(** * CRPropa-Monopoles: trajectory integrator and interaction modules

    A shallow embedding of the monopole fork of CRPropa:
    - [Vector3]                 crpropa/Vector3.h (the operations the modules use)
    - [ParticleID]              ParticleID.cpp
    - [ParticleState]           ParticleState.cpp (the dyon-aware version)
    - [ParticleStateMassless]   ParticleState.cpp (the other version)
    - [Candidate]               the bookkeeping the modules read and write
    - [MonopolePropagationBP]   MonopolePropagationBP/MonopolePropagationBP.cpp
    - [ElasticScattering]       src/module/ElasticScattering.cpp
    - [CylindricalProjectionMap] EmissionMap.cpp (the histogram of directions)
    - [EmissionMap]             EmissionMap.cpp (how [load] fills a histogram)
    - [MonopoleRadiation]       MonopoleRadiation.cpp
    - [ModuleList]              one iteration of the module pipeline
    followed by the concrete inputs of the examples ([Scenario]) and by the
    properties proved of these definitions.

    Numbers.  A C++ [double] is idealised as a real number: arithmetic is
    exact, [std::max]/[std::min] are [Rmax]/[Rmin], [sqrt], [log] and [pow]
    are the real functions.  The one non-finite value the control flow of
    the modules depends on is the [+inf] produced by a division by zero or
    by [pow(0, negative)]; it is kept explicit in the type [xdouble].
    Statements that need a divisor to be non-zero say so in a hypothesis. *)

From Stdlib Require Import Reals Lra Lia List ZArith String.
Import ListNotations.
Open Scope R_scope.

(** ** Doubles that may be +inf *)

Module XDouble.

(** The value of a double expression that can overflow to [+inf]. *)
Inductive xdouble : Type :=
| Fin (v : R)
| PInf.

(** [pow(x, y)] for [x >= 0] and [y < 0] (both call sites use the exponent
    [-0.2]): a zero base gives [+inf], a positive base the real power. *)
Definition pow (x y : R) : xdouble :=
  if Req_dec_T x 0 then PInf else Fin (Rpower x y).

(** [a / b] for a positive numerator: [+inf] when the divisor is zero. *)
Definition div (a b : R) : xdouble :=
  if Req_dec_T b 0 then PInf else Fin (a / b).

(** [a * x] for a positive finite factor [a]. *)
Definition mul (a : R) (x : xdouble) : xdouble :=
  match x with
  | Fin v => Fin (a * v)
  | PInf => PInf
  end.

(** [std::max(x, b)] with a finite [b]. *)
Definition max (x : xdouble) (b : R) : xdouble :=
  match x with
  | Fin v => Fin (Rmax v b)
  | PInf => PInf
  end.

(** [std::min(x, b)] with a finite [b]: always finite. *)
Definition min (x : xdouble) (b : R) : R :=
  match x with
  | Fin v => Rmin v b
  | PInf => b
  end.

(** [-log(u)] for [0 <= u <= 1]: [+inf] at zero. *)
Definition neg_log (u : R) : xdouble :=
  if Req_dec_T u 0 then PInf else Fin (- ln u).

(** [x / b] for [x >= 0] that may be [+inf] and a divisor [b >= 0]. *)
Definition divx (x : xdouble) (b : R) : xdouble :=
  match x with
  | Fin v => div v b
  | PInf => PInf
  end.

End XDouble.

(** ** Vector3d *)

(** crpropa/Vector3.h is not among the sources: the vector operations the
    modules call, with their usual meaning. *)
Module Vector3.

Record Vector3d : Type := mk { x : R; y : R; z : R }.

(** [Vector3d(t)]: all three components equal. *)
Definition fill (t : R) : Vector3d := mk t t t.

Definition zero : Vector3d := fill 0.

Definition add (a b : Vector3d) : Vector3d :=
  mk (x a + x b) (y a + y b) (z a + z b).

Definition sub (a b : Vector3d) : Vector3d :=
  mk (x a - x b) (y a - y b) (z a - z b).

(** [v * f] *)
Definition scale (v : Vector3d) (f : R) : Vector3d :=
  mk (x v * f) (y v * f) (z v * f).

(** [f * v] *)
Definition lscale (f : R) (v : Vector3d) : Vector3d :=
  mk (f * x v) (f * y v) (f * z v).

(** [v / f] *)
Definition div (v : Vector3d) (f : R) : Vector3d :=
  mk (x v / f) (y v / f) (z v / f).

Definition dot (a b : Vector3d) : R :=
  x a * x b + y a * y b + z a * z b.

Definition cross (a b : Vector3d) : Vector3d :=
  mk (y a * z b - y b * z a) (z a * x b - z b * x a) (x a * y b - x b * y a).

(** Euclidean norm. *)
Definition getR (v : Vector3d) : R :=
  sqrt (x v * x v + y v * y v + z v * z v).

Definition getUnitVector (v : Vector3d) : Vector3d := div v (getR v).

End Vector3.

Abbreviation Vector3d := Vector3.Vector3d.

Declare Scope vec_scope.
Delimit Scope vec_scope with vec.
Infix "+" := Vector3.add : vec_scope.
Infix "-" := Vector3.sub : vec_scope.
Infix "*" := Vector3.scale : vec_scope.
Infix "/" := Vector3.div : vec_scope.

(** ** ParticleID *)

Module ParticleID.

Section HepPID.

(** The HepPID library is not among the sources: its classification of an
    id as a nucleus and its mass and charge numbers stay parameters. *)
Variable HepPID_isNucleus : Z -> bool.
Variables HepPID_A HepPID_Z : Z -> Z.
Variable HepPID_isDyon : Z -> bool.

(** [None] stands for the [std::runtime_error] thrown for numbers that are
    no nucleus. *)
Definition nucleusId (a z : Z) : option Z :=
  if (z <? 0)%Z then None
  else if (a <? 1)%Z then None
  else if (a <? z)%Z then None
  else Some (1000000000 + z * 10000 + a * 10)%Z.

Definition chargeNumber (id : Z) : Z := HepPID_Z id.

Definition massNumber (id : Z) : Z :=
  if (id =? 2112)%Z then 1%Z else HepPID_A id.

Definition isNucleus (id : Z) : bool :=
  if (id =? 2112)%Z then true (* consider neutron as nucleus *)
  else HepPID_isNucleus id.

Definition isDyon (id : Z) : bool :=
  if ((id =? 4110000)%Z || (id =? 4120000)%Z
      || (id =? -4110000)%Z || (id =? -4120000)%Z)%bool
  then true (* consider monopoles as dyons *)
  else HepPID_isDyon id.

End HepPID.

End ParticleID.

(** ** ParticleState *)

Module ParticleState.

Record ParticleState : Type := mk {
  id : Z;
  energy : R;
  position : Vector3d;
  direction : Vector3d;
  pmass : R;
  charge : R;
  mcharge : R
}.

Definition setPosition (p : ParticleState) (pos : Vector3d) : ParticleState :=
  mk (id p) (energy p) pos (direction p) (pmass p) (charge p) (mcharge p).

Definition getPosition (p : ParticleState) : Vector3d := position p.

Definition setDirection (p : ParticleState) (dir : Vector3d) : ParticleState :=
  mk (id p) (energy p) (position p) (dir / Vector3.getR dir)%vec
     (pmass p) (charge p) (mcharge p).

Definition getDirection (p : ParticleState) : Vector3d := direction p.

Definition setEnergy (p : ParticleState) (newEnergy : R) : ParticleState :=
  mk (id p) (Rmax 0 newEnergy) (position p) (direction p)
     (pmass p) (charge p) (mcharge p).

Definition getEnergy (p : ParticleState) : R := energy p.

Definition getId (p : ParticleState) : Z := id p.

Definition getMass (p : ParticleState) : R := pmass p.

Definition getCharge (p : ParticleState) : R := charge p.

Definition getMcharge (p : ParticleState) : R := mcharge p.

Definition getRigidity (p : ParticleState) : R := Rabs (energy p / charge p).

Section Units.

(** crpropa/Units.h is not among the sources: the speed of light and its
    square stay parameters. *)
Variables c_light c_squared : R.

Definition getLorentzFactor (p : ParticleState) : R :=
  1 + energy p / (pmass p * c_squared).

Definition setLorentzFactor (p : ParticleState) (lf : R) : ParticleState :=
  let lf := Rmax 0 lf in
  mk (id p) ((lf - 1) * pmass p * c_squared) (position p) (direction p)
     (pmass p) (charge p) (mcharge p).

Definition getVelocity (p : ParticleState) : Vector3d :=
  (direction p * c_light
   * sqrt (1 - 1 / (1 + energy p / pmass p / c_squared)
               / (1 + energy p / pmass p / c_squared)))%vec.

Definition getMomentum (p : ParticleState) : Vector3d :=
  (direction p
   * sqrt ((energy p + pmass p * c_squared) * (energy p + pmass p * c_squared)
           - (pmass p * c_squared) * (pmass p * c_squared))
   / c_light)%vec.

End Units.

Section Identity.

(** crpropa/Units.h and crpropa/ParticleMass.h are not among the sources,
    nor is the HepPID library: the units, the table of nuclear masses and
    HepPID's reading of an id stay parameters. *)
Variables kilogram ampere meter eplus mass_electron : R.
Variable nuclearMass : Z -> R.
Variable HepPID_isNucleus : Z -> bool.
Variable HepPID_Z : Z -> Z.
Variable HepPID_isDyon : Z -> bool.
Variable HepPID_charge : Z -> R.

Definition setMass (p : ParticleState) (new_pmass : R) : ParticleState :=
  mk (id p) (energy p) (position p) (direction p)
     (new_pmass * kilogram) (charge p) (mcharge p).

Definition setMcharge (p : ParticleState) (new_mcharge : R) : ParticleState :=
  let mcharge := Rabs (new_mcharge * ampere * meter) in
  let mcharge := if (id p <? 0)%Z then mcharge * -1 (* anti-monopole *) else mcharge in
  mk (id p) (energy p) (position p) (direction p) (pmass p) (charge p) mcharge.

Definition setId (p : ParticleState) (newId : Z) (new_pmass new_mcharge : R)
    : ParticleState :=
  let p := mk newId (energy p) (position p) (direction p)
              (pmass p) (charge p) (mcharge p) in
  if ParticleID.isNucleus HepPID_isNucleus newId then
    let pmass := nuclearMass newId in
    let charge := IZR (ParticleID.chargeNumber HepPID_Z newId) * eplus in
    let charge := if (newId <? 0)%Z then charge * -1 (* anti-nucleus *) else charge in
    mk (id p) (energy p) (position p) (direction p) pmass charge (mcharge p)
  else if HepPID_isDyon newId then
    let p := setMass p new_pmass in
    let p := setMcharge p new_mcharge in
    let charge := HepPID_charge newId * eplus in
    let charge := if (newId <? 0)%Z then charge * -1 else charge in
    mk (id p) (energy p) (position p) (direction p) (pmass p) charge (mcharge p)
  else
    let pmass := if (Z.abs newId =? 11)%Z then mass_electron else pmass p in
    let charge := HepPID_charge newId * eplus in
    mk (id p) (energy p) (position p) (direction p) pmass charge (mcharge p).

(** The constructor [ParticleState(id, E, pos, dir, pmass, mcharge)]: every
    member is initialised to zero, then the four setters run. *)
Definition construct (id : Z) (E : R) (pos dir : Vector3d) (pmass mcharge : R)
    : ParticleState :=
  let p := mk 0 0 (Vector3.fill 0) (Vector3.fill 0) 0 0 0 in
  let p := setId p id pmass mcharge in
  let p := setEnergy p E in
  let p := setPosition p pos in
  setDirection p dir.

End Identity.

End ParticleState.

Abbreviation ParticleState := ParticleState.ParticleState.

(** The other ParticleState.cpp among the sources, where every particle
    moves at the speed of light: the functions in which it differs. *)
Module ParticleStateMassless.

Section Units.

Variables c_light c_squared ampere meter : R.

Definition setMcharge (p : ParticleState) (new_mcharge : R) : ParticleState :=
  let mcharge := new_mcharge * ampere * meter in
  let mcharge := if (ParticleState.id p <? 0)%Z then mcharge * -1 else mcharge in
  ParticleState.mk (ParticleState.id p) (ParticleState.energy p)
    (ParticleState.position p) (ParticleState.direction p)
    (ParticleState.pmass p) (ParticleState.charge p) mcharge.

Definition getLorentzFactor (p : ParticleState) : R :=
  ParticleState.energy p / (ParticleState.pmass p * c_squared).

Definition setLorentzFactor (p : ParticleState) (lf : R) : ParticleState :=
  let lf := Rmax 0 lf in
  ParticleState.mk (ParticleState.id p) (lf * ParticleState.pmass p * c_squared)
    (ParticleState.position p) (ParticleState.direction p)
    (ParticleState.pmass p) (ParticleState.charge p) (ParticleState.mcharge p).

Definition getVelocity (p : ParticleState) : Vector3d :=
  (ParticleState.direction p * c_light)%vec.

Definition getMomentum (p : ParticleState) : Vector3d :=
  (ParticleState.direction p * (ParticleState.energy p / c_light))%vec.

End Units.

End ParticleStateMassless.

(** ** Candidate *)

Module Candidate.

(** Modelled from the spec: the secondary a module hands to
    [addSecondary(id, energy, position, weight, tag)]; Candidate.cpp is not
    among the sources. *)
Record Secondary : Type := mkSecondary {
  sid : Z;
  senergy : R;
  sposition : Vector3d;
  sweight : R;
  stag : string
}.

(** Modelled from the spec: the Candidate (Candidate.h and Candidate.cpp are
    not among the sources), with the members the three modules read and
    write: the two particle states, the redshift, the step taken and the
    step proposed, and the list of secondaries; [stepRadiation] is what
    MonopoleRadiation stores with [setStepRadiation]. *)
Record Candidate : Type := mk {
  current : ParticleState;
  previous : ParticleState;
  redshift : R;
  currentStep : R;
  nextStep : R;
  stepRadiation : R;
  secondaries : list Secondary
}.

Definition getRedshift (c : Candidate) : R := redshift c.
Definition getCurrentStep (c : Candidate) : R := currentStep c.
Definition getNextStep (c : Candidate) : R := nextStep c.

Definition setCurrent (c : Candidate) (p : ParticleState) : Candidate :=
  mk p (previous c) (redshift c) (currentStep c) (nextStep c)
     (stepRadiation c) (secondaries c).

Definition setPrevious (c : Candidate) (p : ParticleState) : Candidate :=
  mk (current c) p (redshift c) (currentStep c) (nextStep c)
     (stepRadiation c) (secondaries c).

Definition setCurrentStep (c : Candidate) (lstep : R) : Candidate :=
  mk (current c) (previous c) (redshift c) lstep (nextStep c)
     (stepRadiation c) (secondaries c).

Definition setNextStep (c : Candidate) (step : R) : Candidate :=
  mk (current c) (previous c) (redshift c) (currentStep c) step
     (stepRadiation c) (secondaries c).

Definition setStepRadiation (c : Candidate) (dE : R) : Candidate :=
  mk (current c) (previous c) (redshift c) (currentStep c) (nextStep c)
     dE (secondaries c).

(** [nextStep = std::min(nextStep, step)], where the limit may be [+inf]. *)
Definition limitNextStep (c : Candidate) (step : XDouble.xdouble) : Candidate :=
  setNextStep c (XDouble.min step (nextStep c)).

(** Appends one secondary to the candidate's list. *)
Definition addSecondary (c : Candidate) (id : Z) (energy : R) (pos : Vector3d)
    (weight : R) (tag : string) : Candidate :=
  mk (current c) (previous c) (redshift c) (currentStep c) (nextStep c)
     (stepRadiation c) (secondaries c ++ [mkSecondary id energy pos weight tag]).

End Candidate.

Abbreviation Candidate := Candidate.Candidate.

(** ** The field sampler *)

Module MagneticField.

(** What a call of [field->getField(pos, z)] does: it returns a vector or
    throws a [std::exception]. *)
Inductive Outcome : Type :=
| Value (B : Vector3d)
| Throws.

(** A [ref_ptr<MagneticField>]: [None] is the invalid (null) reference. *)
Definition ref_ptr : Type := option (Vector3d -> R -> Outcome).

End MagneticField.

(** Modelled from the spec: [clip(x, lower, upper)] of crpropa/Common.h,
    which is not among the sources: [x] clamped to [lower .. upper]. *)
Definition clip (x lower upper : R) : R := Rmax lower (Rmin x upper).

(** ** Exceptions *)

(** A call that may fail: [None] stands for the [std::runtime_error] it
    throws, and a sequence of calls stops at the first one that fails. *)
Module Throw.

Definition bind {A B : Type} (m : option A) (k : A -> option B) : option B :=
  match m with
  | Some a => k a
  | None => None
  end.

End Throw.

Declare Scope throw_scope.
Delimit Scope throw_scope with throw.
Notation "x <- m ;; k" := (Throw.bind m (fun x => k))
  (at level 61, m at next level, right associativity) : throw_scope.

(** ** MonopolePropagationBP *)

Module MonopolePropagationBP.

(** The members of the module object. *)
Record t : Type := mk {
  field : MagneticField.ref_ptr;
  tolerance : R;
  minStep : R;
  maxStep : R
}.

Definition setField (self : t) (f : MagneticField.ref_ptr) : t :=
  mk f (tolerance self) (minStep self) (maxStep self).

Definition getField (self : t) : MagneticField.ref_ptr := field self.

Definition setTolerance (self : t) (tol : R) : option t :=
  if Rgt_dec tol 1 then None
  else if Rlt_dec tol 0 then None
  else Some (mk (field self) tol (minStep self) (maxStep self)).

Definition setMinimumStep (self : t) (min : R) : option t :=
  if Rlt_dec min 0 then None
  else if Rgt_dec min (maxStep self) then None
  else Some (mk (field self) (tolerance self) min (maxStep self)).

Definition setMaximumStep (self : t) (max : R) : option t :=
  if Rlt_dec max (minStep self) then None
  else Some (mk (field self) (tolerance self) (minStep self) max).

Definition getTolerance (self : t) : R := tolerance self.

Definition getMinimumStep (self : t) : R := minStep self.

Definition getMaximumStep (self : t) : R := maxStep self.

(** The object before the body of a constructor runs: the initialiser list
    is [minStep(0)], the field reference is null, and [tolerance] and
    [maxStep] hold what the memory held, here the values of [raw]. *)
Definition allocate (raw : t) : t := mk None (tolerance raw) 0 (maxStep raw).

(** [MonopolePropagationBP(field, fixedStep)], with a fixed step size. *)
Definition newFixedStep (raw : t) (field : MagneticField.ref_ptr) (fixedStep : R)
    : option t :=
  (let self := setField (allocate raw) field in
   self <- setTolerance self 0.42 ;;
   self <- setMaximumStep self fixedStep ;;
   setMinimumStep self fixedStep)%throw.

(** [MonopolePropagationBP(field, tolerance, minStep, maxStep)], with
    adaptive step size. *)
Definition newAdaptive (raw : t) (field : MagneticField.ref_ptr)
    (tolerance minStep maxStep : R) : option t :=
  (let self := setField (allocate raw) field in
   self <- setTolerance self tolerance ;;
   self <- setMaximumStep self maxStep ;;
   setMinimumStep self minStep)%throw.

(** Phase point: position and direction. *)
Record Y : Type := mkY { x : Vector3d; u : Vector3d }.

(** What one pass of the step-size loop decides: try again with a new step,
    or leave the loop with the step taken and the step proposed. *)
Inductive Control : Type :=
| Retry (step : XDouble.xdouble)
| Accept (step newStep : R).

Section Module.

(** crpropa/Units.h is not among the sources. *)
Variables c_light c_squared : R.

(** MonopolePropagationBP.h is not among the sources: the converting
    constructor [Y(double)], through which [tryStep] stores the scalar
    error estimate in its [Y &error], stays a parameter. *)
Variable Y_of_double : R -> Y.

Variable self : t.

Definition getFieldAtPosition (pos : Vector3d) (z : R) : Vector3d :=
  match field self with
  | Some getField =>
      match getField pos z with
      | MagneticField.Value B => B
      | MagneticField.Throws => Vector3.zero
      end
  | None => Vector3.zero
  end.

(** The push divides by [m] and by [c_squared]: for a divisor that is zero
    it is not a number in the program, and the statements about the step
    control that depend on it take [m] and [c_squared] to be non-zero. *)
Definition dY (pos dir : Vector3d) (step z g m : R) : Y :=
  (* half leap frog step in the position *)
  let pos := (pos + dir * step / 2)%vec in
  (* get B field at particle position *)
  let B := getFieldAtPosition pos z in
  (* Boris push *)
  let dir := (dir + Vector3.lscale g B * step / m / c_squared)%vec in
  (* the other half leap frog step in the position *)
  let pos := (pos + dir * step / 2)%vec in
  mkY pos dir.

Definition errorEstimation (x1 x2 : Vector3d) (step : R) : R :=
  let diff := (x1 - x2)%vec in
  Vector3.getR diff / (step * (1 - 1 / 4)).

(** Returns [(out, error)]. *)
Definition tryStep (y : Y) (h z m g : R) : Y * Y :=
  let out := dY (x y) (u y) h z g m in
  let outHelp := dY (x y) (u y) (h / 2) z g m in
  let outCompare := dY (x outHelp) (u outHelp) (h / 2) z g m in
  (out, Y_of_double (errorEstimation (x out) (x outCompare) h)).

(** The body of the [while (true)] loop after [tryStep], for the ratio [r]
    it computed. *)
Definition stepControl (step newStep r : R) : Control :=
  if Rgt_dec r 1 then
    if Req_dec_T step (minStep self) then
      Accept step newStep
    else
      let newStep := XDouble.mul (step * 0.95) (XDouble.pow r (-0.2)) in
      let newStep := XDouble.max newStep (0.1 * step) in
      let newStep := XDouble.max newStep (minStep self) in
      Retry newStep
  else
    if Req_dec_T step (maxStep self) then
      Accept step newStep
    else
      let newStep := XDouble.mul (step * 0.95) (XDouble.pow r (-0.2)) in
      let newStep := XDouble.min newStep (5 * step) in
      let newStep := Rmin newStep (maxStep self) in
      Accept step newStep.

(** The ratio of the error of an attempted step and the tolerance. *)
Definition errorRatio (yIn : Y) (step z m g : R) : R :=
  Vector3.getR (u (snd (tryStep yIn step z m g))) / tolerance self.

(** The [while (true)] loop; [None] when it has not left after [fuel]
    attempts, or when a step has overflowed. *)
Fixpoint adaptiveLoop (fuel : nat) (yIn : Y) (z m g step newStep : R)
    : option (Y * R * R) :=
  match fuel with
  | O => None
  | S fuel' =>
      let yOut := fst (tryStep yIn step z m g) in
      let r := errorRatio yIn step z m g in
      match stepControl step newStep r with
      | Accept step newStep => Some (yOut, step, newStep)
      | Retry (XDouble.Fin s) => adaptiveLoop fuel' yIn z m g s s
      | Retry XDouble.PInf => None
      end
  end.

(** The rectilinear branch of [process], taken by a candidate without
    magnetic charge. *)
Definition rectilinear (candidate : Candidate) (yIn : Y) : Candidate :=
  let current := Candidate.current candidate in
  let step := clip (Candidate.getNextStep candidate) (minStep self) (maxStep self) in
  let current := ParticleState.setPosition current (x yIn + u yIn * step)%vec in
  let candidate := Candidate.setCurrent candidate current in
  let candidate := Candidate.setCurrentStep candidate step in
  Candidate.setNextStep candidate (maxStep self).

(** The end of [process]: the accepted phase point is written back and the
    energy gained or lost in the field is applied. *)
Definition applyStep (candidate : Candidate) (g z : R) (yOut : Y)
    (step newStep : R) : Candidate :=
  let current := Candidate.current candidate in
  let current := ParticleState.setPosition current (x yOut) in
  let current := ParticleState.setDirection current (Vector3.getUnitVector (u yOut)) in
  let B := getFieldAtPosition (ParticleState.getPosition current) z in
  let E := ParticleState.getEnergy current in
  let dE := g * Vector3.dot B (ParticleState.getDirection current * step)%vec in
  let current := ParticleState.setEnergy current (E + dE) in
  let candidate := Candidate.setCurrent candidate current in
  let candidate := Candidate.setCurrentStep candidate step in
  Candidate.setNextStep candidate newStep.

(** The step taken and the step proposed, with the phase point reached. *)
Definition integrate (fuel : nat) (candidate : Candidate) (yIn : Y) (z m g : R)
    : option (Y * R * R) :=
  let step := maxStep self in
  let newStep := step in
  if Req_dec_T (minStep self) (maxStep self) then
    Some (fst (tryStep yIn step z m g), step, newStep)
  else
    let step := clip (Candidate.getNextStep candidate) (minStep self) (maxStep self) in
    let newStep := step in
    adaptiveLoop fuel yIn z m g step newStep.

Definition process (fuel : nat) (candidate : Candidate) : option Candidate :=
  (* save the new previous particle state *)
  let current := Candidate.current candidate in
  let candidate := Candidate.setPrevious candidate current in
  let yIn := mkY (ParticleState.getPosition current) (ParticleState.getDirection current) in
  (* calculate magnetic charge of particle *)
  let g := ParticleState.getMcharge current in
  (* rectilinear propagation for neutral particles *)
  if Req_dec_T g 0 then
    Some (rectilinear candidate yIn)
  else
    let z := Candidate.getRedshift candidate in
    let m := ParticleState.getEnergy current / (c_light * c_light) in
    match integrate fuel candidate yIn z m g with
    | Some (yOut, step, newStep) => Some (applyStep candidate g z yOut step newStep)
    | None => None
    end.

End Module.

End MonopolePropagationBP.

(** ** ElasticScattering *)

Module ElasticScattering.

(** The members of the module object; of the photon field only its
    redshift scaling is used. *)
Record t : Type := mk {
  getRedshiftScaling : R -> R;
  tabRate : list R;
  tabCDF : list (list R);
  interactionTag : string
}.

Definition log10 (v : R) : R := ln v / ln 10.

(** [floor(v)] stored in a [size_t], for [v >= 0]. *)
Definition floor (v : R) : nat := Z.to_nat (Int_part v).

(** minimum log10(Lorentz-factor) *)
Definition lgmin : R := 6.
(** maximum log10(Lorentz-factor) *)
Definition lgmax : R := 14.
(** number of Lorentz-factor steps *)
Definition nlg : nat := 201.
(** number of photon background energies in nucleus rest frame *)
Definition neps : nat := 513.

Section Module.

(** crpropa/Units.h is not among the sources. *)
Variables c_squared eV : R.

Variable HepPID_isNucleus : Z -> bool.
Variables HepPID_A HepPID_Z : Z -> Z.

(** crpropa/Random.h is not among the sources: the generator behind
    [Random::instance()] is a state, and each of its three operations
    returns a value and the state it leaves. *)
Variable Random : Type.
Variable rand : Random -> R * Random.
Variable randBin : list R -> Random -> nat * Random.
Variable randomInterpolatedPosition : Vector3d -> Vector3d -> Random -> Vector3d * Random.

(** crpropa/Common.h is not among the sources. *)
Variable interpolateEquidistant : R -> R -> R -> list R -> R.

Variable self : t.

Definition epsmin : R := log10 (2 * eV) + 3.
Definition epsmax : R := log10 (2 * eV) + 8.12.

(** [log10(getLorentzFactor() * (1 + z))] *)
Definition lg (candidate : Candidate) : R :=
  log10 (ParticleState.getLorentzFactor c_squared (Candidate.current candidate)
         * (1 + Candidate.getRedshift candidate)).

(** The interaction rate of one pass of the loop. *)
Definition rate (candidate : Candidate) : R :=
  let id := ParticleState.getId (Candidate.current candidate) in
  let z := Candidate.getRedshift candidate in
  let A := ParticleID.massNumber HepPID_A id in
  let Z := ParticleID.chargeNumber HepPID_Z id in
  let N := (A - Z)%Z in
  let rate := interpolateEquidistant (lg candidate) lgmin lgmax (tabRate self) in
  let rate := rate * (IZR (Z * N) / IZR A) in (* TRK scaling *)
  rate * ((1 + z) ^ 2 * getRedshiftScaling self z). (* cosmological scaling *)

(** The part of a pass that follows a successful check for interaction:
    one secondary photon is added. *)
Definition interact (candidate : Candidate) (random : Random) : Candidate * Random :=
  let lg := lg candidate in
  (* index of closest gamma tabulation point *)
  let i := floor ((lg - lgmin) / (lgmax - lgmin) * (INR nlg - 1)) in
  (* index of next lower tabulated eps value, a size_t *)
  let '(bin, random) := randBin (nth i (tabCDF self) []) random in
  let j := ((Z.of_nat bin - 1) mod 2 ^ 64)%Z in
  let binWidth := (epsmax - epsmin) / (INR neps - 1) in
  let '(u1, random) := rand random in
  let eps := Rpower 10 (epsmin + (IZR j + u1) * binWidth) in
  (* boost to lab frame *)
  let '(u2, random) := rand random in
  let cosTheta := 2 * u2 - 1 in
  let E := eps * ParticleState.getLorentzFactor c_squared (Candidate.current candidate)
           * (1 - cosTheta) in
  let '(pos, random) :=
    randomInterpolatedPosition
      (ParticleState.getPosition (Candidate.previous candidate))
      (ParticleState.getPosition (Candidate.current candidate)) random in
  (Candidate.addSecondary candidate 22 E pos 1 (interactionTag self), random).

(** [while (step > 0)]; [None] when the loop has not ended after [fuel]
    passes. *)
Fixpoint loop (fuel : nat) (candidate : Candidate) (step : R) (random : Random)
    : option (Candidate * Random) :=
  match fuel with
  | O => None
  | S fuel' =>
      if Rgt_dec step 0 then
        let rate := rate candidate in
        (* check for interaction *)
        let '(u0, random) := rand random in
        match XDouble.divx (XDouble.neg_log u0) rate with
        | XDouble.PInf => Some (candidate, random) (* step < +inf *)
        | XDouble.Fin randDist =>
            if Rlt_dec step randDist then Some (candidate, random)
            else
              let '(candidate, random) := interact candidate random in
              (* repeat with remaining step *)
              loop fuel' candidate (step - randDist) random
        end
      else Some (candidate, random)
  end.

Definition process (fuel : nat) (candidate : Candidate) (random : Random)
    : option (Candidate * Random) :=
  let id := ParticleState.getId (Candidate.current candidate) in
  if negb (ParticleID.isNucleus HepPID_isNucleus id) then Some (candidate, random)
  else
    let lg := lg candidate in
    if Rlt_dec lg lgmin then Some (candidate, random)
    else if Rgt_dec lg lgmax then Some (candidate, random)
    else
      let step := Candidate.getCurrentStep candidate in
      loop fuel candidate step random.

End Module.

End ElasticScattering.

(** ** CylindricalProjectionMap *)

(** The histogram of emission directions of EmissionMap.cpp, which the
    sources hold in the file of ElasticScattering.cpp.  An access
    outside a [std::vector] has no defined behaviour in C++: here it makes
    the call fail with [None]. *)
Module CylindricalProjectionMap.

Record t : Type := mk {
  nPhi : nat;
  nTheta : nat;
  dirty : bool;
  pdf : list R;
  cdf : list R;
  sPhi : R;
  sTheta : R
}.

(** [nPhi * nTheta] in [size_t], taken as 64 bits wide: the product wraps
    around. *)
Definition bins (nPhi nTheta : nat) : nat :=
  N.to_nat ((N.of_nat nPhi * N.of_nat nTheta) mod 2 ^ 64).

(** [CylindricalProjectionMap(nPhi, nTheta)]; the allocation of the two
    vectors is taken to succeed. *)
Definition create (nPhi nTheta : nat) : t :=
  mk nPhi nTheta false (repeat 0 (bins nPhi nTheta)) (repeat 0 (bins nPhi nTheta))
     (2 * PI / INR nPhi) (2 / INR nTheta).

(** [v[i] = a] *)
Fixpoint store (v : list R) (i : nat) (a : R) : option (list R) :=
  match v, i with
  | [], _ => None
  | _ :: v', O => Some (a :: v')
  | b :: v', S i' =>
      match store v' i' a with
      | Some w => Some (b :: w)
      | None => None
      end
  end.

(** [fillBin(bin, weight)] *)
Definition fillBin (self : t) (bin : nat) (weight : R) : option t :=
  (old <- nth_error (pdf self) bin ;;
   pdf' <- store (pdf self) bin (old + weight) ;;
   Some (mk (nPhi self) (nTheta self) true pdf' (cdf self) (sPhi self) (sTheta self)))%throw.

(** The loop [for (i = 1; i < pdf.size(); i++) cdf[i] = cdf[i-1] + pdf[i]]
    from index [i], with [n] passes left. *)
Fixpoint updateLoop (n i : nat) (pdf cdf : list R) : option (list R) :=
  match n with
  | O => Some cdf
  | S n' =>
      (prev <- nth_error cdf (i - 1) ;;
       w <- nth_error pdf i ;;
       cdf <- store cdf i (prev + w) ;;
       updateLoop n' (S i) pdf cdf)%throw
  end.

Definition updateCdf (self : t) : option t :=
  if dirty self then
    (w0 <- nth_error (pdf self) 0 ;;
     cdf <- store (cdf self) 0 w0 ;;
     cdf <- updateLoop (List.length (pdf self) - 1) 1 (pdf self) cdf ;;
     Some (mk (nPhi self) (nTheta self) false (pdf self) cdf (sPhi self) (sTheta self)))%throw
  else Some self.

Section Random.

(** crpropa/Random.h is not among the sources. *)
Variable Random : Type.
Variable randBin : list R -> Random -> nat * Random.

(** The bin [drawDirection] draws, with the map it leaves: the cumulative
    sums are brought up to date first. *)
Definition drawBin (self : t) (random : Random) : option (nat * t * Random) :=
  (self <- (if dirty self then updateCdf self else Some self) ;;
   let '(bin, random) := randBin (cdf self) random in
   Some (bin, self, random))%throw.

End Random.

(** The const [getPdf()]. *)
Definition getPdf (self : t) : list R := pdf self.

(** [getPdf()[i] = a]: a write through the reference that the non-const
    [getPdf()] returns.  The flag [dirty] is not touched. *)
Definition setPdf (self : t) (i : nat) (a : R) : option t :=
  (pdf' <- store (pdf self) i a ;;
   Some (mk (nPhi self) (nTheta self) (dirty self) pdf' (cdf self) (sPhi self) (sTheta self)))%throw.

(** The maps that the constructor, [fillBin] and [updateCdf] build, without
    a write through [getPdf()]. *)
Inductive Built : t -> Prop :=
| Built_create (nPhi nTheta : nat) : Built (create nPhi nTheta)
| Built_fillBin (self self' : t) (bin : nat) (weight : R) :
    Built self -> fillBin self bin weight = Some self' -> Built self'
| Built_updateCdf (self self' : t) :
    Built self -> updateCdf self = Some self' -> Built self'.

End CylindricalProjectionMap.

(** ** EmissionMap *)

Module EmissionMap.

(** The loop [for (i = 0; i < pdf.size(); i++) in >> pdf[i]] of [load]
    from index [i], with [n] passes left, for the numbers [values] that the
    stream delivers; [None] when the stream ends before the last bin. *)
Fixpoint readPdf (n i : nat) (values : list R) (cpm : CylindricalProjectionMap.t)
    : option CylindricalProjectionMap.t :=
  match n with
  | O => Some cpm
  | S n' =>
      (a <- nth_error values i ;;
       cpm <- CylindricalProjectionMap.setPdf cpm i a ;;
       readPdf n' (S i) values cpm)%throw
  end.

(** The map that [load] stores for one line of the file, which holds
    [nPhi_], [nTheta_] and the weights [values]: a new map whose weights are
    read through [getPdf()].  [None] when [load] drops the line. *)
Definition load (nPhi_ nTheta_ : nat) (values : list R)
    : option CylindricalProjectionMap.t :=
  let cpm := CylindricalProjectionMap.create nPhi_ nTheta_ in
  let pdf := CylindricalProjectionMap.getPdf cpm in
  readPdf (List.length pdf) 0 values cpm.

End EmissionMap.

(** ** MonopoleRadiation *)

Module MonopoleRadiation.

(** The members of the module object. *)
Record t : Type := mk {
  field : MagneticField.ref_ptr;
  Brms : R;
  havePhotons : bool;
  thinning : R;
  limit : R;
  maximumSamples : Z;
  secondaryThreshold : R;
  interactionTag : string
}.

(** [process] returns, or the exception of the field sampler, which it does
    not catch, leaves it. *)
Inductive Result : Type :=
| Done (candidate : Candidate)
| Thrown.

Section Module.

(** crpropa/Units.h is not among the sources. *)
Variables c_light c_squared mu0 : R.

Variable self : t.

(** The field component perpendicular to the direction of flight. *)
Definition perpendicularField (candidate : Candidate) (z : R) : option R :=
  let current := Candidate.current candidate in
  match field self with
  | Some getField =>
      match getField (ParticleState.getPosition current) z with
      | MagneticField.Value Bvec =>
          Some (Vector3.getR (Vector3.cross Bvec (ParticleState.getDirection current)))
      | MagneticField.Throws => None
      end
  | None => Some (sqrt (2 / 3) * Brms self) (* average perpendicular field component *)
  end.

(** The energy loss has the sign of the difference
    [dbeta.dot(dbeta) - beta.cross(dbeta).dot(beta.cross(dbeta))], whose two
    terms agree to about [1 / lf^2]; with doubles the rounding of the terms
    decides that sign once [1 / lf^2] comes close to their spacing, so a
    statement about the sign of the loss bounds the Lorentz factor. *)
Definition process (candidate : Candidate) : Result :=
  let current := Candidate.current candidate in
  let mcharge := Rabs (ParticleState.getMcharge current) in
  if Req_dec_T mcharge 0 then Done candidate (* only charged particles *)
  else
    let z := Candidate.getRedshift candidate in
    match perpendicularField candidate z with
    | None => Thrown
    | Some B =>
        let B := B * (1 + z) ^ 2 in (* cosmological scaling *)
        (* Get helper values *)
        let lf := ParticleState.getLorentzFactor c_squared current in
        let step := Candidate.getCurrentStep candidate / (1 + z) in
        let beta := (ParticleState.getVelocity c_light c_squared current / c_light)%vec in
        let dbeta :=
          ((ParticleState.getVelocity c_light c_squared current
            - ParticleState.getVelocity c_light c_squared (Candidate.previous candidate))
           / step)%vec in
        (* calculate energy loss *)
        let dEdx :=
          mu0 / 6 / PI * lf ^ 6 * (mcharge / c_light) ^ 2
          * (Vector3.dot dbeta dbeta
             - Vector3.dot (Vector3.cross beta dbeta) (Vector3.cross beta dbeta)) in
        let dE := step * dEdx in
        let candidate := Candidate.setStepRadiation candidate dE in
        (* apply energy loss and limit next step *)
        let E := ParticleState.getEnergy current in
        let candidate :=
          Candidate.setCurrent candidate (ParticleState.setEnergy current (E - dE)) in
        let candidate :=
          Candidate.limitNextStep candidate (XDouble.div (limit self * E) dEdx) in
        (* optionally add secondary photons *)
        if negb (havePhotons self) then Done candidate
        else
          (* the sampling of photons that follows in the source is inside
             a comment: nothing is executed after the test *)
          Done candidate
    end.

End Module.

End MonopoleRadiation.

(** ** The words of the specification, for comparison with the code *)

Module Spec.

(** The step the specification proposes after an accepted attempt:
    [clamp(h * min(0.95 * r^-0.2, 5), h, maxStep)]. *)
Definition proposedStep (h r maxStep : R) : R :=
  clip (XDouble.min (XDouble.mul (h * 0.95) (XDouble.pow r (-0.2))) (h * 5)) h maxStep.

(** The thinning of the specification for one sampled secondary of energy
    [Ephoton], decided by the uniform draw [u]: it is kept when
    [u < f^thinning] and then carries the weight [w1 / f^thinning]. *)
Definition thinned (thinning parentEnergyAvailable w1 Ephoton u : R) : option R :=
  let f := Ephoton / parentEnergyAvailable in
  if Rlt_dec u (Rpower f thinning) then Some (w1 / Rpower f thinning) else None.

(** The sampling of secondary photons that the specification describes for
    the radiation module, as MonopoleRadiation.cpp keeps it inside the
    comment that ends [process]: photons are drawn from the tabulated
    spectrum ([tabx], [tabCDF], in units of the critical energy [Ecrit]) up
    to the energy loss of the step, then thinned one by one.  The critical
    energy, which the comment computes from a gyroradius that [process] does
    not define, and the two tables stay parameters. *)
Section Photons.

Variable Random : Type.
Variable rand : Random -> R * Random.
Variable randBin : list R -> Random -> nat * Random.
Variable randomInterpolatedPosition : Vector3d -> Vector3d -> Random -> Vector3d * Random.

Variable self : MonopoleRadiation.t.
Variables tabx tabCDF : list R.
Variable Ecrit : R.

(** [while (dE > 0)]: draw photons up to the total energy loss.  Returns the
    energy left and the energies drawn; [None] when the loop has not ended
    after [fuel] passes. *)
Fixpoint drawPhotons (fuel : nat) (dE : R) (energies : list R) (counter : Z)
    (random : Random) : option (R * list R * Random) :=
  match fuel with
  | O => None
  | S fuel' =>
      if Rgt_dec dE 0 then
        (* draw random bin (upper bin boundary returned) *)
        let '(i, random) := randBin tabCDF random in
        let binWidth := nth i tabx 0 - nth (i - 1) tabx 0 in
        (* draw random x uniformly distributed in bin *)
        let '(u, random) := rand random in
        let x := nth (i - 1) tabx 0 + u * binWidth in
        let Ephoton := x * Ecrit in
        (* if the remaining energy is not sufficient check for random accepting *)
        let '(accepted, random) :=
          if Rgt_dec Ephoton dE then
            let '(u, random) := rand random in
            (if Rgt_dec u (dE / Ephoton) then false else true, random)
          else (true, random) in
        if negb accepted then Some (dE, energies, random)
        else if ((0 <? MonopoleRadiation.maximumSamples self)%Z
                 && (MonopoleRadiation.maximumSamples self <=? counter)%Z)%bool
        then Some (dE, energies, random)
        else drawPhotons fuel' (dE - Ephoton) (energies ++ [Ephoton]) (counter + 1) random
      else Some (dE, energies, random)
  end.

(** The loop over the sampled photons: each is thinned, and enqueued with
    its weight when it is kept and lies above the threshold. *)
Fixpoint emit (parentEnergyAvailable w1 : R) (energies : list R) (candidate : Candidate)
    (random : Random) : Candidate * Random :=
  match energies with
  | [] => (candidate, random)
  | Ephoton :: energies' =>
      let '(u, random) := rand random in
      match thinned (MonopoleRadiation.thinning self) parentEnergyAvailable w1 Ephoton u with
      | Some w =>
          let '(pos, random) :=
            randomInterpolatedPosition
              (ParticleState.getPosition (Candidate.previous candidate))
              (ParticleState.getPosition (Candidate.current candidate)) random in
          let candidate :=
            if Rgt_dec Ephoton (MonopoleRadiation.secondaryThreshold self)
            then Candidate.addSecondary candidate 22 Ephoton pos w
                   (MonopoleRadiation.interactionTag self)
            else candidate in
          emit parentEnergyAvailable w1 energies' candidate random
      | None => emit parentEnergyAvailable w1 energies' candidate random
      end
  end.

(** The photons of one step in which the parent of energy [E] has lost
    [dE]. *)
Definition photons (fuel : nat) (E dE : R) (candidate : Candidate) (random : Random)
    : option (Candidate * Random) :=
  if Rlt_dec (14 * Ecrit) (MonopoleRadiation.secondaryThreshold self)
  then Some (candidate, random)
  else
    let dE0 := dE in
    match drawPhotons fuel dE [] 0 random with
    | None => None
    | Some (dE, energies, random) =>
        (* the loop before gave a total energy which is just a fraction of
           the required one *)
        let w1 :=
          if ((0 <? MonopoleRadiation.maximumSamples self)%Z
              && (if Rgt_dec dE 0 then true else false))%bool
          then 1 / (1 - dE / dE0) else 1 in
        Some (emit (E - dE0) w1 energies candidate random)
    end.

(** [process] as the specification has it: the energy loss of the code,
    followed by the photons when they are requested. *)
Definition process (c_light c_squared mu0 : R) (fuel : nat) (candidate : Candidate)
    (random : Random) : option (Candidate * Random) :=
  match MonopoleRadiation.process c_light c_squared mu0 self candidate with
  | MonopoleRadiation.Thrown => None
  | MonopoleRadiation.Done candidate' =>
      if Req_dec_T (Rabs (ParticleState.getMcharge (Candidate.current candidate))) 0
      then Some (candidate', random)
      else if negb (MonopoleRadiation.havePhotons self) then Some (candidate', random)
      else
        photons fuel (ParticleState.getEnergy (Candidate.current candidate))
          (Candidate.stepRadiation candidate') candidate' random
  end.

End Photons.

End Spec.

(** ** crpropa/Common *)

Module Common.

(** Modelled from the spec: [interpolateEquidistant] of crpropa/Common,
    which is not among the sources.  Linear interpolation of the values [Y]
    tabulated on an equidistant grid from [lo] to [hi]; at or below the
    lower bound it returns the first tabulated value, at or above the upper
    bound the last one. *)
Definition interpolateEquidistant (x lo hi : R) (Y : list R) : R :=
  if Rle_dec x lo then hd 0 Y
  else if Rge_dec x hi then last Y 0
  else
    let dx := (hi - lo) / (INR (List.length Y) - 1) in
    let p := (x - lo) / dx in
    let i := Z.to_nat (Int_part p) in
    nth i Y 0 + (p - INR i) * (nth (S i) Y 0 - nth i Y 0).

End Common.

(** ** The module pipeline *)

Module ModuleList.

Section Modules.

Variables c_light c_squared mu0 eV : R.
Variable Y_of_double : R -> MonopolePropagationBP.Y.
Variable HepPID_isNucleus : Z -> bool.
Variables HepPID_A HepPID_Z : Z -> Z.
Variable Random : Type.
Variable rand : Random -> R * Random.
Variable randBin : list R -> Random -> nat * Random.
Variable randomInterpolatedPosition : Vector3d -> Vector3d -> Random -> Vector3d * Random.
Variable interpolateEquidistant : R -> R -> R -> list R -> R.

(** The registered modules. *)
Variable propagation : MonopolePropagationBP.t.
Variable scattering : ElasticScattering.t.
Variable radiation : MonopoleRadiation.t.

(** Modelled from the spec: one iteration of the pipeline for one candidate
    (the ModuleList is not among the sources): the integrator runs once,
    then every interaction module once.  [None] when a loop runs out of
    fuel or a module throws. *)
Definition process (fuel : nat) (candidate : Candidate) (random : Random)
    : option (Candidate * Random) :=
  match MonopolePropagationBP.process c_light c_squared Y_of_double propagation
          fuel candidate with
  | None => None
  | Some candidate =>
      match ElasticScattering.process c_squared eV HepPID_isNucleus HepPID_A HepPID_Z
              Random rand randBin randomInterpolatedPosition interpolateEquidistant
              scattering fuel candidate random with
      | None => None
      | Some (candidate, random) =>
          match MonopoleRadiation.process c_light c_squared mu0 radiation candidate with
          | MonopoleRadiation.Done candidate => Some (candidate, random)
          | MonopoleRadiation.Thrown => None
          end
      end
  end.

(** [steps] iterations of the pipeline. *)
Fixpoint run (steps fuel : nat) (candidate : Candidate) (random : Random)
    : option (Candidate * Random) :=
  match steps with
  | O => Some (candidate, random)
  | S steps' =>
      match process fuel candidate random with
      | None => None
      | Some (candidate, random) => run steps' fuel candidate random
      end
  end.

End Modules.

End ModuleList.

(** ** Proof automation *)

(** Equality of two phase points with concrete coordinates. *)
Ltac vector_arith :=
  unfold Vector3.add, Vector3.scale, Vector3.div, Vector3.lscale, Vector3.zero, Vector3.fill;
  simpl; f_equal; f_equal; field.

(** * Concrete inputs *)

Module Scenario.

(** A dyon of mass 1 at rest, asked for the Lorentz factor 0. *)
Definition heavyDyon : ParticleState :=
  ParticleState.mk 4110000 0 Vector3.zero (Vector3.mk 1 0 0) 1 0 1.

(** The converting constructor [Y(double)] as upstream CRPropa declares it:
    both vectors are filled with the number. *)
Definition Y_of_double (f : R) : MonopolePropagationBP.Y :=
  MonopolePropagationBP.mkY (Vector3.fill f) (Vector3.fill f).

(** A uniform field along the x axis. *)
Definition uniformField : MagneticField.ref_ptr :=
  Some (fun _ _ => MagneticField.Value (Vector3.mk 1 0 0)).

(** A uniform field against the x axis. *)
Definition opposingField : MagneticField.ref_ptr :=
  Some (fun _ _ => MagneticField.Value (Vector3.mk (-1) 0 0)).

(** A sampler that always throws. *)
Definition brokenField : MagneticField.ref_ptr :=
  Some (fun _ _ => MagneticField.Throws).

(** [MonopolePropagationBP(field, fixedStep)] with a step of one unit. *)
Definition fixedStepBP (field : MagneticField.ref_ptr) : MonopolePropagationBP.t :=
  MonopolePropagationBP.mk field 0.42 1 1.

(** [MonopolePropagationBP(field, tolerance, minStep, maxStep)]. *)
Definition adaptiveBP (field : MagneticField.ref_ptr) : MonopolePropagationBP.t :=
  MonopolePropagationBP.mk field 0.5 1 10.

(** A monopole at the origin flying along the x axis. *)
Definition monopoleState : ParticleState :=
  ParticleState.mk 4110000 1 Vector3.zero (Vector3.mk 1 0 0) 1 0 1.

Definition monopole : Candidate :=
  Candidate.mk monopoleState monopoleState 0 0 0 0 [].

(** The monopole after a step of one unit in which nothing changed. *)
Definition monopoleAfterStep : Candidate :=
  Candidate.mk monopoleState monopoleState 0 1 1 0 [].

(** A photon at the origin flying along the x axis. *)
Definition photonState : ParticleState :=
  ParticleState.mk 22 1 Vector3.zero (Vector3.mk 1 0 0) 0 0 0.

Definition photon : Candidate :=
  Candidate.mk photonState photonState 0 0 0 0 [].

(** A reading of the nucleus ids [10LZZZAAAI] that [nucleusId] builds, in
    place of the HepPID library. *)
Definition hepIsNucleus (id : Z) : bool := (1000000000 <=? Z.abs id)%Z.
Definition hepA (id : Z) : Z := ((Z.abs id / 10) mod 1000)%Z.
Definition hepZ (id : Z) : Z := ((Z.abs id / 10000) mod 1000)%Z.

(** A generator whose draws are all [exp(-1)]; its state counts the draws.
    [randBin] always picks bin 1, and the interpolated position is
    [a + u * (b - a)] for the next draw [u]. *)
Definition rand (n : nat) : R * nat := (exp (-1), S n).
Definition randBin (cdf : list R) (n : nat) : nat * nat := (1%nat, S n).
Definition randomInterpolatedPosition (a b : Vector3d) (n : nat) : Vector3d * nat :=
  ((a + (b - a) * exp (-1))%vec, S n).

(** An elastic-scattering module with a flat rate table and a background
    that does not scale with redshift. *)
Definition flatScattering : ElasticScattering.t :=
  ElasticScattering.mk (fun _ => 1) [1; 1] [] "ES"%string.

(** Helium-4 with the Lorentz factor [10^6], the lower bound of the table,
    at redshift 0 (in units with [c_squared = 1] and the mass 1). *)
Definition heliumState : ParticleState :=
  ParticleState.mk 1000020040 999999 Vector3.zero (Vector3.mk 1 0 0) 1 2 0.

Definition helium (currentStep : R) : Candidate :=
  Candidate.mk heliumState heliumState 0 currentStep 0 0 [].

(** The same nucleus at rest, below the table, and with the Lorentz factor
    [10^14], its upper bound. *)
Definition heliumAtRest : Candidate :=
  let state := ParticleState.mk 1000020040 0 Vector3.zero (Vector3.mk 1 0 0) 1 2 0 in
  Candidate.mk state state 0 1 0 0 [].

Definition heliumAtUpperBound : Candidate :=
  let state :=
    ParticleState.mk 1000020040 99999999999999 Vector3.zero (Vector3.mk 1 0 0) 1 2 0 in
  Candidate.mk state state 0 1 0 0 [].

(** A candidate that is the helium nucleus above, whatever its bookkeeping. *)
Definition isHelium (candidate : Candidate) : Prop :=
  Candidate.current candidate = heliumState /\ Candidate.redshift candidate = 0.

(** A radiation module asked for secondary photons, with thinning. *)
Definition thinningRadiation : MonopoleRadiation.t :=
  MonopoleRadiation.mk None 1 true 1 0.1 0 0 "MR"%string.

(** A field that is [(0, 0, 3/16)] in the slab [3/4 <= x < 5/4] and zero
    elsewhere. *)
Definition slabField : MagneticField.ref_ptr :=
  Some (fun pos _ =>
          MagneticField.Value
            (if Rle_dec (3 / 4) (Vector3.x pos) then
               if Rlt_dec (Vector3.x pos) (5 / 4) then Vector3.mk 0 0 (3 / 16)
               else Vector3.zero
             else Vector3.zero)).

(** [MonopolePropagationBP(slabField, 0.5, 1, 10)]. *)
Definition slabBP : MonopolePropagationBP.t := adaptiveBP slabField.

(** The monopole, with a next step of 2 proposed by the previous call. *)
Definition monopoleNextStep2 : Candidate :=
  Candidate.mk monopoleState monopoleState 0 0 2 0 [].

(** A proton with the Lorentz factor [10^6] at redshift 0, after a step of
    one unit. *)
Definition protonState : ParticleState :=
  ParticleState.mk 1000010010 999999 Vector3.zero (Vector3.mk 1 0 0) 1 1 0.

Definition proton : Candidate :=
  Candidate.mk protonState protonState 0 1 0 0 [].

(** Stand-ins for the table of nuclear masses and for HepPID's reading of
    ids that are no nuclei: every nucleus weighs 4 units, and no id is a
    dyon or carries a charge. *)
Definition nuclearMass (id : Z) : R := 4.
Definition hepIsDyon (id : Z) : bool := false.
Definition hepCharge (id : Z) : R := 0.

(** Helium-4 built by the constructor, in units that are all 1, with a mass
    and a magnetic charge asked for. *)
Definition constructedHelium (pmass mcharge : R) : ParticleState :=
  ParticleState.construct 1 1 1 1 1 nuclearMass hepIsNucleus hepZ hepIsDyon hepCharge
    1000020040 5 Vector3.zero (Vector3.mk 2 0 0) pmass mcharge.

Definition constructedHeliumCandidate : Candidate :=
  Candidate.mk (constructedHelium 7 3) (constructedHelium 7 3) 0 0 2 0 [].

(** A radiation module with a field, no photons and the same step limit as
    [thinningRadiation]. *)
Definition fieldRadiation : MonopoleRadiation.t :=
  MonopoleRadiation.mk uniformField 5 false 0 0.1 7 3 "MR"%string.

(** A modified histogram of two bins with the weights 1 and 2. *)
Definition twoBins : CylindricalProjectionMap.t :=
  CylindricalProjectionMap.mk 2 1 true [1; 2] [0; 0] PI 2.

(** [std::lower_bound]: the index of the first entry that is not below
    [v]. *)
Fixpoint lowerBound (cdf : list R) (v : R) : nat :=
  match cdf with
  | [] => O
  | c :: cdf' => if Rlt_dec c v then S (lowerBound cdf' v) else O
  end.

(** A generator whose draws are all [1/2]; its state counts the draws.
    [randBin] is the one of upstream CRPropa, the lower bound of
    [rand() * cdf.back()] in the cdf, and the interpolated position is
    [a + u * (b - a)] for the next draw [u]. *)
Definition halfRand (n : nat) : R * nat := (1 / 2, S n).
Definition halfRandBin (cdf : list R) (n : nat) : nat * nat :=
  let '(u, n) := halfRand n in (lowerBound cdf (u * last cdf 0), n).
Definition halfPosition (a b : Vector3d) (n : nat) : Vector3d * nat :=
  let '(u, n) := halfRand n in ((a + (b - a) * u)%vec, n).

(** An elastic-scattering module like [flatScattering] whose table of
    photon energies has one row, with two entries. *)
Definition tableScattering : ElasticScattering.t :=
  ElasticScattering.mk (fun _ => 1) [1; 1] [[0; 1]] "ES"%string.

(** A monopole of mass 15/4 and magnetic charge 27/25 (in units with
    [c_light = c_squared = 1]) that a step of one unit along the x axis has
    taken from the Lorentz factor 5/4 to the Lorentz factor 5/3. *)
Definition acceleratedMonopole : Candidate :=
  Candidate.mk
    (ParticleState.mk 4110000 (5 / 2) (Vector3.mk 1 0 0) (Vector3.mk 1 0 0)
       (15 / 4) 0 (27 / 25))
    (ParticleState.mk 4110000 (15 / 16) Vector3.zero (Vector3.mk 1 0 0)
       (15 / 4) 0 (27 / 25))
    0 1 1 0 [].

End Scenario.

(** * Properties *)

(** ** Vectors *)

Lemma getR_nonneg (v : Vector3d) : 0 <= Vector3.getR v.
Proof. apply sqrt_pos. Qed.

Lemma getR_zero : Vector3.getR Vector3.zero = 0.
Proof.
  unfold Vector3.getR, Vector3.zero, Vector3.fill; simpl.
  replace (0 * 0 + 0 * 0 + 0 * 0) with 0 by ring.
  apply sqrt_0.
Qed.

Lemma norm2_nonneg (a b c : R) : 0 <= a * a + b * b + c * c.
Proof. nra. Qed.

(** A vector divided by its own non-zero length has length one. *)
Lemma getR_normalized (v : Vector3d) :
  Vector3.getR v <> 0 -> Vector3.getR (v / Vector3.getR v)%vec = 1.
Proof.
  intros Hn.
  unfold Vector3.getR at 1; unfold Vector3.div; cbn [Vector3.x Vector3.y Vector3.z].
  set (n := Vector3.getR v) in *.
  assert (Hsq : n * n = Vector3.x v * Vector3.x v + Vector3.y v * Vector3.y v
                          + Vector3.z v * Vector3.z v).
  { unfold n, Vector3.getR. apply sqrt_sqrt, norm2_nonneg. }
  replace (Vector3.x v / n * (Vector3.x v / n) + Vector3.y v / n * (Vector3.y v / n)
           + Vector3.z v / n * (Vector3.z v / n))
    with ((Vector3.x v * Vector3.x v + Vector3.y v * Vector3.y v
           + Vector3.z v * Vector3.z v) / (n * n)) by (field; exact Hn).
  rewrite <- Hsq.
  replace (n * n / (n * n)) with 1 by (field; exact Hn).
  apply sqrt_1.
Qed.

Lemma dot_scale (a b : Vector3d) (s : R) :
  Vector3.dot a (b * s)%vec = Vector3.dot a b * s.
Proof. unfold Vector3.dot, Vector3.scale; simpl; ring. Qed.

(** ** ParticleState: the energy *)

Lemma setEnergy_nonneg (p : ParticleState) (newEnergy : R) :
  0 <= ParticleState.energy (ParticleState.setEnergy p newEnergy).
Proof. simpl. apply Rmax_l. Qed.

Lemma setEnergy_clamps (p : ParticleState) (newEnergy : R) :
  ParticleState.energy (ParticleState.setEnergy p newEnergy)
  = if Rle_dec newEnergy 0 then 0 else newEnergy.
Proof.
  simpl. destruct (Rle_dec newEnergy 0).
  - apply Rmax_left; assumption.
  - apply Rmax_right; lra.
Qed.

(** C7, the failing path: [setLorentzFactor] clamps the Lorentz factor at 0,
    and with the energy it assigns, [(lf - 1) * pmass * c_squared], every
    factor below 1 leaves a massive particle with a negative energy, which
    [setEnergy] never does. *)
Theorem setLorentzFactor_negative_energy (c_squared : R) (p : ParticleState) (lf : R) :
  0 < c_squared -> 0 < ParticleState.pmass p -> lf < 1 ->
  ParticleState.energy (ParticleState.setLorentzFactor c_squared p lf) < 0
  /\ 0 <= ParticleState.energy (ParticleState.setEnergy p ((lf - 1) * ParticleState.pmass p * c_squared)).
Proof.
  intros Hc Hm Hlf. split.
  - simpl. assert (Rmax 0 lf - 1 < 0).
    { unfold Rmax. destruct (Rle_dec 0 lf); lra. }
    assert (0 < ParticleState.pmass p * c_squared) by nra.
    nra.
  - apply setEnergy_nonneg.
Qed.

Lemma setLorentzFactor_negative_energy_witness :
  ParticleState.energy
    (ParticleState.setLorentzFactor (299792458 * 299792458) Scenario.heavyDyon 0) < 0
  /\ 0 <= ParticleState.energy
            (ParticleState.setEnergy Scenario.heavyDyon
               ((0 - 1) * ParticleState.pmass Scenario.heavyDyon * (299792458 * 299792458))).
Proof.
  apply (setLorentzFactor_negative_energy (299792458 * 299792458) Scenario.heavyDyon 0);
    simpl; lra.
Defined.

(** ** MonopolePropagationBP *)

Section MonopolePropagationBP_facts.

Variables c_light c_squared : R.
Variable Y_of_double : R -> MonopolePropagationBP.Y.
Variable self : MonopolePropagationBP.t.

Local Abbreviation Y := MonopolePropagationBP.Y.
Local Abbreviation x := MonopolePropagationBP.x.
Local Abbreviation u := MonopolePropagationBP.u.
Local Abbreviation minStep := (MonopolePropagationBP.minStep self).
Local Abbreviation maxStep := (MonopolePropagationBP.maxStep self).
Local Abbreviation tolerance := (MonopolePropagationBP.tolerance self).
Local Abbreviation getFieldAtPosition := (MonopolePropagationBP.getFieldAtPosition self).
Local Abbreviation dY := (MonopolePropagationBP.dY c_squared self).
Local Abbreviation errorEstimation := MonopolePropagationBP.errorEstimation.
Local Abbreviation tryStep := (MonopolePropagationBP.tryStep c_squared Y_of_double self).
Local Abbreviation errorRatio := (MonopolePropagationBP.errorRatio c_squared Y_of_double self).
Local Abbreviation stepControl := (MonopolePropagationBP.stepControl self).
Local Abbreviation adaptiveLoop := (MonopolePropagationBP.adaptiveLoop c_squared Y_of_double self).
Local Abbreviation integrate := (MonopolePropagationBP.integrate c_squared Y_of_double self).
Local Abbreviation rectilinear := (MonopolePropagationBP.rectilinear self).
Local Abbreviation applyStep := (MonopolePropagationBP.applyStep self).
Local Abbreviation process := (MonopolePropagationBP.process c_light c_squared Y_of_double self).
Local Abbreviation Retry := MonopolePropagationBP.Retry.
Local Abbreviation Accept := MonopolePropagationBP.Accept.

(** *** The step-size loop *)

Lemma stepControl_Accept_step (step newStep r s n : R) :
  stepControl step newStep r = Accept s n -> s = step.
Proof.
  unfold MonopolePropagationBP.stepControl.
  destruct (Rgt_dec r 1); [destruct (Req_dec_T step minStep) | destruct (Req_dec_T step maxStep)];
    intros H; inversion H; reflexivity.
Qed.

(** The loop leaves with the phase point of the last attempt. *)
Lemma adaptiveLoop_yOut (yIn : Y) (z m g : R) (fuel : nat) :
  forall step newStep yOut h n,
    adaptiveLoop fuel yIn z m g step newStep = Some (yOut, h, n) ->
    yOut = fst (tryStep yIn h z m g).
Proof.
  induction fuel as [|fuel IH]; simpl; intros step newStep yOut h n H.
  - discriminate.
  - destruct (stepControl step newStep (errorRatio yIn step z m g)) as [[s|]|s n'] eqn:E.
    + eapply IH; eassumption.
    + discriminate.
    + apply stepControl_Accept_step in E. inversion H; subst. reflexivity.
Qed.

Lemma integrate_yOut (fuel : nat) (candidate : Candidate) (yIn : Y) (z m g : R)
    (yOut : Y) (h n : R) :
  integrate fuel candidate yIn z m g = Some (yOut, h, n) ->
  yOut = dY (x yIn) (u yIn) h z g m.
Proof.
  unfold MonopolePropagationBP.integrate.
  destruct (Req_dec_T minStep maxStep).
  - intros H; inversion H; subst. reflexivity.
  - intros H. apply adaptiveLoop_yOut in H. exact H.
Qed.

(** In fixed-step mode the integrator needs no fuel. *)
Lemma process_fixed_step_total (fuel : nat) (candidate : Candidate) :
  minStep = maxStep -> exists candidate', process fuel candidate = Some candidate'.
Proof.
  intros Heq. unfold MonopolePropagationBP.process, MonopolePropagationBP.integrate.
  destruct (Req_dec_T _ 0); [eexists; reflexivity|].
  destruct (Req_dec_T minStep maxStep); [|contradiction].
  eexists; reflexivity.
Qed.

(** In fixed-step mode a candidate with magnetic charge takes one [dY] of
    length [maxStep]. *)
Lemma process_fixed_step (fuel : nat) (candidate : Candidate) :
  minStep = maxStep ->
  ParticleState.mcharge (Candidate.current candidate) <> 0 ->
  let current := Candidate.current candidate in
  let g := ParticleState.mcharge current in
  let z := Candidate.redshift candidate in
  let m := ParticleState.energy current / (c_light * c_light) in
  process fuel candidate
  = Some (applyStep (Candidate.setPrevious candidate current) g z
            (dY (ParticleState.position current) (ParticleState.direction current)
               maxStep z g m)
            maxStep maxStep).
Proof.
  intros Heq Hg. unfold MonopolePropagationBP.process, MonopolePropagationBP.integrate.
  destruct (Req_dec_T _ 0) as [Hz|_]; [exfalso; apply Hg; exact Hz|].
  destruct (Req_dec_T minStep maxStep); [|contradiction].
  reflexivity.
Qed.

(** *** The error estimate *)

(** C2: [tryStep] returns the result of one [dY] with the full step, and as
    error the distance between that position and the position after two
    [dY] with half the step, the second starting where the first ended,
    divided by [h * (1 - 1/4)]. *)
Theorem tryStep_error_estimate (y : Y) (h z m g : R) :
  let out := dY (x y) (u y) h z g m in
  let half := dY (x y) (u y) (h / 2) z g m in
  let compare := dY (x half) (u half) (h / 2) z g m in
  let estimate := Vector3.getR (x out - x compare)%vec / (h * (1 - 1 / 4)) in
  tryStep y h z m g = (out, Y_of_double estimate)
  /\ errorEstimation (x out) (x compare) h = estimate
  /\ (h <> 0 -> estimate = 4 * Vector3.getR (x out - x compare)%vec / (3 * h)).
Proof.
  intros out half compare estimate. repeat split.
  intros Hh. unfold estimate. field. exact Hh.
Qed.

(** *** The energy update *)

Lemma applyStep_energy (candidate : Candidate) (g z : R) (yOut : Y) (step newStep : R) :
  let candidate' := applyStep candidate g z yOut step newStep in
  let current' := Candidate.current candidate' in
  let B := getFieldAtPosition (ParticleState.position current') z in
  ParticleState.position current' = x yOut
  /\ Candidate.currentStep candidate' = step
  /\ ParticleState.energy current'
     = Rmax 0 (ParticleState.energy (Candidate.current candidate)
               + g * Vector3.dot B (ParticleState.direction current') * step).
Proof.
  cbv zeta. repeat split.
  unfold MonopolePropagationBP.applyStep; cbn -[Rmax Vector3.dot Vector3.scale Vector3.getR].
  rewrite dot_scale. f_equal. ring.
Qed.

(** *** The step-size control *)

Lemma Rpower_one (y : R) : Rpower 1 y = 1.
Proof. unfold Rpower. rewrite ln_1, Rmult_0_r. apply exp_0. Qed.

(** [r^-0.2] is below 1 for a ratio above 1 ... *)
Lemma Rpower_shrinks (r : R) : 1 < r -> 0 < Rpower r (-0.2) < 1.
Proof.
  intros Hr. split; [apply exp_pos|].
  unfold Rpower. rewrite <- exp_0. apply exp_increasing.
  assert (0 < ln r) by (rewrite <- ln_1; apply ln_increasing; lra).
  nra.
Qed.

(** ... and at least 1 for a positive ratio up to 1. *)
Lemma Rpower_grows (r : R) : 0 < r <= 1 -> 1 <= Rpower r (-0.2).
Proof.
  intros [Hr [Hlt| ->]].
  - left. unfold Rpower. rewrite <- exp_0. apply exp_increasing.
    assert (ln r < 0) by (rewrite <- ln_1; apply ln_increasing; lra).
    nra.
  - rewrite Rpower_one. lra.
Qed.

Lemma Rpower_fifth (r : R) : 0 < r -> Rpower r (-0.2) ^ 5 = / r.
Proof.
  intros Hr.
  rewrite <- Rpower_pow by apply exp_pos.
  rewrite Rpower_mult.
  replace (-0.2 * INR 5) with (- (1)) by (simpl; lra).
  rewrite Rpower_Ropp, Rpower_1 by exact Hr. reflexivity.
Qed.

(** For a ratio above [0.95^5] the safety factor [0.95] outweighs the
    growth [r^-0.2]. *)
Lemma safety_factor_shrinks (r : R) : 0.95 ^ 5 < r -> 0.95 * Rpower r (-0.2) < 1.
Proof.
  intros Hr.
  assert (H0 : 0 < r) by (assert (0 < 0.95 ^ 5) by (apply pow_lt; lra); lra).
  pose proof (Rpower_fifth r H0) as H5.
  set (p := Rpower r (-0.2)) in *.
  assert (Hp : 0 < p) by apply exp_pos.
  destruct (Rlt_dec (0.95 * p) 1) as [Hlt|Hge]; [exact Hlt|exfalso].
  assert (Hle : / 0.95 <= p).
  { apply Rmult_le_reg_l with 0.95; [lra|]. rewrite Rinv_r by lra. lra. }
  assert (Hpow : (/ 0.95) ^ 5 <= p ^ 5).
  { apply pow_incr. split; [|exact Hle]. left. apply Rinv_0_lt_compat. lra. }
  rewrite H5 in Hpow.
  rewrite pow_inv in Hpow.
  apply Rinv_le_contravar in Hpow; [|apply Rinv_0_lt_compat; apply pow_lt; lra].
  rewrite !Rinv_inv in Hpow. lra.
Qed.

Lemma Rmax_scale (s a b : R) : 0 <= s -> Rmax (s * a) (s * b) = s * Rmax a b.
Proof. intros Hs. apply RmaxRmult; assumption. Qed.

Lemma Rmin_scale (s a b : R) : 0 <= s -> Rmin (s * a) (s * b) = s * Rmin a b.
Proof.
  intros Hs. unfold Rmin.
  destruct (Rle_dec (s * a) (s * b)), (Rle_dec a b); try reflexivity; nra.
Qed.

(** What [stepControl] returns, by the branch it takes. *)
Lemma stepControl_shrink (step newStep r : R) :
  1 < r -> step <> minStep ->
  stepControl step newStep r
  = Retry (XDouble.Fin (Rmax (Rmax (step * 0.95 * Rpower r (-0.2)) (0.1 * step)) minStep)).
Proof.
  intros Hr Hs. unfold MonopolePropagationBP.stepControl, XDouble.pow.
  destruct (Rgt_dec r 1); [|lra].
  destruct (Req_dec_T step minStep); [contradiction|].
  destruct (Req_dec_T r 0); [lra|]. reflexivity.
Qed.

Lemma stepControl_grow (step newStep r : R) :
  0 < r <= 1 -> step <> maxStep ->
  stepControl step newStep r
  = Accept step (Rmin (Rmin (step * 0.95 * Rpower r (-0.2)) (5 * step)) maxStep).
Proof.
  intros Hr Hs. unfold MonopolePropagationBP.stepControl, XDouble.pow.
  destruct (Rgt_dec r 1); [lra|].
  destruct (Req_dec_T step maxStep); [contradiction|].
  destruct (Req_dec_T r 0); [lra|]. reflexivity.
Qed.

Lemma stepControl_grow_zero_error (step newStep : R) :
  step <> maxStep ->
  stepControl step newStep 0 = Accept step (Rmin (5 * step) maxStep).
Proof.
  intros Hs. unfold MonopolePropagationBP.stepControl, XDouble.pow.
  destruct (Rgt_dec 0 1); [lra|].
  destruct (Req_dec_T step maxStep); [contradiction|].
  destruct (Req_dec_T 0 0); [reflexivity|lra].
Qed.

Lemma stepControl_at_minStep (step newStep r : R) :
  1 < r -> step = minStep -> stepControl step newStep r = Accept step newStep.
Proof.
  intros Hr Hs. unfold MonopolePropagationBP.stepControl.
  destruct (Rgt_dec r 1); [|lra].
  destruct (Req_dec_T step minStep); [reflexivity|contradiction].
Qed.

Lemma stepControl_at_maxStep (step newStep r : R) :
  r <= 1 -> step = maxStep -> stepControl step newStep r = Accept step newStep.
Proof.
  intros Hr Hs. unfold MonopolePropagationBP.stepControl.
  destruct (Rgt_dec r 1); [lra|].
  destruct (Req_dec_T step maxStep); [reflexivity|contradiction].
Qed.

(** The decision of one pass of the loop, case by case. *)
Lemma stepControl_by_case (h r : R) :
  0 < h ->
  (1 < r -> h = minStep -> stepControl h h r = Accept h h)
  /\ (1 < r -> h <> minStep ->
      stepControl h h r
      = Retry (XDouble.Fin (Rmax (h * Rmax (0.95 * Rpower r (-0.2)) 0.1) minStep)))
  /\ (r <= 1 -> h = maxStep -> stepControl h h r = Accept h h)
  /\ (0 < r <= 1 -> h <> maxStep ->
      stepControl h h r
      = Accept h (Rmin (h * Rmin (0.95 * Rpower r (-0.2)) 5) maxStep))
  /\ (r = 0 -> h <> maxStep -> stepControl h h r = Accept h (Rmin (5 * h) maxStep))
  /\ (0 <= r <= 1 -> h <= maxStep ->
      exists newStep,
        stepControl h h r = Accept h newStep
        /\ newStep <= 5 * h /\ newStep <= maxStep /\ 0.95 * h <= newStep)
  /\ (0.95 ^ 5 < r <= 1 -> h <> maxStep ->
      exists newStep, stepControl h h r = Accept h newStep /\ newStep < h).
Proof.
  intros Hh.
  assert (Hgrow : forall r', 0 < r' <= 1 ->
            Rmin (Rmin (h * 0.95 * Rpower r' (-0.2)) (5 * h)) maxStep
            = Rmin (h * Rmin (0.95 * Rpower r' (-0.2)) 5) maxStep).
  { intros r' _. rewrite <- Rmin_scale by lra. f_equal. f_equal; ring. }
  split; [|split; [|split; [|split; [|split; [|split]]]]].
  - intros Hr Hs. apply stepControl_at_minStep; assumption.
  - intros Hr Hs. rewrite stepControl_shrink by assumption.
    do 3 f_equal. rewrite <- Rmax_scale by lra. f_equal; ring.
  - intros Hr Hs. apply stepControl_at_maxStep; assumption.
  - intros Hr Hs. rewrite stepControl_grow by assumption.
    f_equal. apply Hgrow; assumption.
  - intros -> Hs. apply stepControl_grow_zero_error; assumption.
  - intros [Hr0 Hr1] Hle.
    destruct (Req_dec_T h maxStep) as [Heq|Hne].
    + exists h. split; [apply stepControl_at_maxStep; assumption|]. lra.
    + destruct Hr0 as [Hpos| <-].
      * eexists. split; [apply stepControl_grow; [lra|assumption]|].
        pose proof (Rpower_grows r (conj Hpos Hr1)) as Hp.
        set (p := Rpower r (-0.2)) in *.
        unfold Rmin.
        destruct (Rle_dec (h * 0.95 * p) (5 * h));
          destruct (Rle_dec _ maxStep); repeat split; nra.
      * eexists. split; [apply stepControl_grow_zero_error; assumption|].
        unfold Rmin. destruct (Rle_dec (5 * h) maxStep); repeat split; lra.
  - intros [Hr0 Hr1] Hne.
    assert (Hpos : 0 < r) by (assert (0 < 0.95 ^ 5) by (apply pow_lt; lra); lra).
    eexists. split; [apply stepControl_grow; [lra|assumption]|].
    pose proof (safety_factor_shrinks r Hr0) as Hp.
    set (p := Rpower r (-0.2)) in *.
    apply Rle_lt_trans with (h * 0.95 * p); [|nra].
    eapply Rle_trans; apply Rmin_l.
Qed.

(** *** The loop as a whole *)

(** A retry comes from the shrinking branch only. *)
Lemma stepControl_Retry (step newStep r : R) (s : XDouble.xdouble) :
  stepControl step newStep r = Retry s ->
  1 < r /\ step <> minStep
  /\ s = XDouble.Fin (Rmax (Rmax (step * 0.95 * Rpower r (-0.2)) (0.1 * step)) minStep).
Proof.
  intros H.
  destruct (Rgt_dec r 1) as [Hr|Hr].
  - destruct (Req_dec_T step minStep) as [Hs|Hs].
    + rewrite stepControl_at_minStep in H by assumption. discriminate.
    + rewrite stepControl_shrink in H by assumption. inversion H. auto.
  - unfold MonopolePropagationBP.stepControl in H.
    destruct (Rgt_dec r 1); [contradiction|].
    destruct (Req_dec_T step maxStep); discriminate.
Qed.

(** The step tried next lies between [minStep] and 95 percent of the step
    that failed, or is [minStep] itself. *)
Lemma shrunk_step_bounds (step r : R) :
  1 < r -> 0 <= step ->
  let s := Rmax (Rmax (step * 0.95 * Rpower r (-0.2)) (0.1 * step)) minStep in
  minStep <= s /\ (s = minStep \/ s <= 0.95 * step).
Proof.
  intros Hr Hs s. pose proof (Rpower_shrinks r Hr) as Hp.
  set (p := Rpower r (-0.2)) in *.
  split; [apply Rmax_r|].
  unfold s, Rmax.
  destruct (Rle_dec (step * 0.95 * p) (0.1 * step));
    destruct (Rle_dec _ minStep); try (left; reflexivity); right; nra.
Qed.

(** The loop leaves with a step between [minStep] and the first step
    tried, and with what [stepControl] decided for that step. *)
Lemma adaptiveLoop_result (yIn : Y) (z m g : R) (fuel : nat) :
  0 <= minStep ->
  forall step yOut h n,
    minStep <= step ->
    adaptiveLoop fuel yIn z m g step step = Some (yOut, h, n) ->
    minStep <= h <= step
    /\ stepControl h h (errorRatio yIn h z m g) = Accept h n.
Proof.
  intros Hmin. induction fuel as [|fuel IH]; simpl; intros step yOut h n Hstep H.
  - discriminate.
  - destruct (stepControl step step (errorRatio yIn step z m g)) as [s|s n'] eqn:E.
    + apply stepControl_Retry in E. destruct E as (Hr & Hne & ->).
      destruct (shrunk_step_bounds step (errorRatio yIn step z m g) Hr) as [Hlo Hhi]; [lra|].
      cbv zeta in Hlo, Hhi.
      apply IH in H; [|exact Hlo].
      destruct H as [[H1 H2] H3]. split; [|exact H3].
      split; [exact H1|]. destruct Hhi as [Hhi|Hhi]; lra.
    + pose proof (stepControl_Accept_step _ _ _ _ _ E) as ->.
      inversion H; subst. split; [lra|exact E].
Qed.

(** With a positive [minStep], [k + 1] attempts are enough once
    [0.95^k] of the first step is below [minStep]. *)
Lemma adaptiveLoop_fuel (yIn : Y) (z m g : R) :
  0 < minStep ->
  forall k step,
    minStep <= step -> step * 0.95 ^ k <= minStep ->
    exists result, adaptiveLoop (S k) yIn z m g step step = Some result.
Proof.
  intros Hmin. induction k as [|k IH]; intros step Hlo Hk.
  - assert (step = minStep) by (simpl in Hk; lra).
    simpl. destruct (stepControl step step (errorRatio yIn step z m g)) as [s|s n'] eqn:E.
    + apply stepControl_Retry in E. destruct E as (_ & Hne & _). contradiction.
    + eexists; reflexivity.
  - cbn [MonopolePropagationBP.adaptiveLoop].
    destruct (stepControl step step (errorRatio yIn step z m g)) as [s|s n'] eqn:E.
    + apply stepControl_Retry in E. destruct E as (Hr & Hne & ->).
      destruct (shrunk_step_bounds step (errorRatio yIn step z m g) Hr) as [Hs1 Hs2]; [lra|].
      cbv zeta in Hs1, Hs2.
      apply IH; [exact Hs1|].
      assert (Hpow : 0 < 0.95 ^ k <= 1).
      { split; [apply pow_lt; lra|].
        rewrite <- (pow1 k). apply pow_incr. lra. }
      destruct Hs2 as [->|Hs2]; [nra|].
      simpl in Hk. nra.
    + eexists; reflexivity.
Qed.

(** In adaptive mode with a positive [minStep] the loop ends. *)
Lemma adaptiveLoop_terminates (yIn : Y) (z m g step : R) :
  0 < minStep -> minStep <= step ->
  exists fuel result, adaptiveLoop fuel yIn z m g step step = Some result.
Proof.
  intros Hmin Hstep.
  destruct (pow_lt_1_zero 0.95) with (y := minStep / step) as [N HN].
  - rewrite Rabs_pos_eq; lra.
  - apply Rdiv_lt_0_compat; lra.
  - exists (S N). apply adaptiveLoop_fuel; try assumption.
    specialize (HN N (Nat.le_refl N)).
    rewrite Rabs_pos_eq in HN by (apply pow_le; lra).
    apply (Rmult_lt_compat_l step) in HN; [|lra].
    replace (step * (minStep / step)) with minStep in HN by (field; lra).
    lra.
Qed.

Lemma clip_bounds (v lower upper : R) :
  lower <= upper -> lower <= clip v lower upper <= upper.
Proof.
  intros H. unfold clip, Rmax, Rmin.
  destruct (Rle_dec v upper); destruct (Rle_dec lower _); lra.
Qed.

(** [process] returns for every candidate when [0 < minStep <= maxStep]. *)
Lemma process_total (candidate : Candidate) :
  0 < minStep <= maxStep ->
  exists fuel candidate', process fuel candidate = Some candidate'.
Proof.
  intros [Hmin Hle].
  unfold MonopolePropagationBP.process, MonopolePropagationBP.integrate.
  destruct (Req_dec_T _ 0); [exists O; eexists; reflexivity|].
  destruct (Req_dec_T minStep maxStep); [exists O; eexists; reflexivity|].
  set (current := Candidate.current candidate).
  destruct (adaptiveLoop_terminates
              (MonopolePropagationBP.mkY (ParticleState.getPosition current)
                 (ParticleState.getDirection current))
              (Candidate.getRedshift (Candidate.setPrevious candidate current))
              (ParticleState.getEnergy current / (c_light * c_light))
              (ParticleState.getMcharge current)
              (clip (Candidate.getNextStep (Candidate.setPrevious candidate current))
                 minStep maxStep) Hmin)
    as (fuel & [[yOut h] ns] & Hl).
  - apply clip_bounds; assumption.
  - exists fuel. rewrite Hl. eexists; reflexivity.
Qed.


(** *** The field lookup *)

(** C10: the field lookup is total; an invalid field reference and a
    sampler that throws both give the zero vector, a sampler that returns
    gives its value; and whatever the sampler does, [process] returns a
    candidate, in fixed-step mode at once and in adaptive mode with
    [0 < minStep <= maxStep] after finitely many attempts. *)
Theorem getFieldAtPosition_never_fails (pos : Vector3d) (z : R) :
  (MonopolePropagationBP.field self = None ->
   getFieldAtPosition pos z = Vector3.zero)
  /\ (forall getField,
        MonopolePropagationBP.field self = Some getField ->
        getField pos z = MagneticField.Throws ->
        getFieldAtPosition pos z = Vector3.zero)
  /\ (forall getField B,
        MonopolePropagationBP.field self = Some getField ->
        getField pos z = MagneticField.Value B ->
        getFieldAtPosition pos z = B)
  /\ (minStep = maxStep ->
      forall fuel candidate, exists candidate', process fuel candidate = Some candidate')
  /\ (0 < minStep <= maxStep ->
      forall candidate, exists fuel candidate', process fuel candidate = Some candidate').
Proof.
  unfold MonopolePropagationBP.getFieldAtPosition.
  repeat split.
  - intros ->. reflexivity.
  - intros getField -> ->. reflexivity.
  - intros getField B -> ->. reflexivity.
  - intros Heq fuel candidate. apply process_fixed_step_total; assumption.
  - intros Hsteps candidate. apply process_total; assumption.
Qed.

(** What [process] returns in adaptive mode is the attempt that
    [stepControl] accepted. *)
Lemma process_adaptive_accepts (fuel : nat) (candidate candidate' : Candidate) :
  let current := Candidate.current candidate in
  let g := ParticleState.mcharge current in
  let z := Candidate.redshift candidate in
  let m := ParticleState.energy current / (c_light * c_light) in
  let yIn :=
    MonopolePropagationBP.mkY (ParticleState.position current)
      (ParticleState.direction current) in
  g <> 0 -> minStep <> maxStep -> 0 <= minStep <= maxStep ->
  process fuel candidate = Some candidate' ->
  let h := Candidate.currentStep candidate' in
  minStep <= h <= clip (Candidate.nextStep candidate) minStep maxStep
  /\ stepControl h h (errorRatio yIn h z m g) = Accept h (Candidate.nextStep candidate').
Proof.
  intros current g z m yIn Hg Hne [Hmin Hle] Hp.
  unfold MonopolePropagationBP.process, MonopolePropagationBP.integrate in Hp.
  destruct (Req_dec_T _ 0) as [Hz|_]; [exfalso; apply Hg; exact Hz|].
  destruct (Req_dec_T minStep maxStep); [contradiction|].
  destruct (adaptiveLoop _ _ _ _ _ _ _) as [[[yOut step] newStep]|] eqn:Hl; [|discriminate].
  inversion Hp; subst candidate'; clear Hp.
  apply adaptiveLoop_result in Hl.
  - exact Hl.
  - exact Hmin.
  - apply clip_bounds; exact Hle.
Qed.

(** C1, as the code has it.  With the ratio [r] of one attempt of the
    positive step [h], the loop
    - leaves with [h] when [r > 1] and [h] is [minStep];
    - tries again with [max(h * max(0.95 * r^-0.2, 0.1), minStep)] when
      [r > 1] and [h] is not [minStep];
    - leaves with [h] when [r <= 1], proposing [h] itself when [h] is
      [maxStep], and otherwise [min(h * min(0.95 * r^-0.2, 5), maxStep)]
      ([min(5 * h, maxStep)] for [r = 0], where [r^-0.2] is infinite);
    the proposal is at most [5 * h] and at most [maxStep], and at least
    [0.95 * h] when [h <= maxStep]; there is no lower clamp at [h]: for
    [0.95^5 < r <= 1] and [h] not [maxStep] the proposal is smaller than
    [h].
    What [process] returns in adaptive mode for a candidate with magnetic
    charge is such an accepted attempt: its current step [h] lies between
    [minStep] and the clipped next step of the candidate, and its next
    step is the proposal of the pass that accepted [h]; with
    [0 < minStep <= maxStep] the loop ends after finitely many attempts. *)
Theorem stepControl_cases :
  (forall h r : R,
     0 < h ->
     (1 < r -> h = minStep -> stepControl h h r = Accept h h)
     /\ (1 < r -> h <> minStep ->
         stepControl h h r
         = Retry (XDouble.Fin (Rmax (h * Rmax (0.95 * Rpower r (-0.2)) 0.1) minStep)))
     /\ (r <= 1 -> h = maxStep -> stepControl h h r = Accept h h)
     /\ (0 < r <= 1 -> h <> maxStep ->
         stepControl h h r
         = Accept h (Rmin (h * Rmin (0.95 * Rpower r (-0.2)) 5) maxStep))
     /\ (r = 0 -> h <> maxStep -> stepControl h h r = Accept h (Rmin (5 * h) maxStep))
     /\ (0 <= r <= 1 -> h <= maxStep ->
         exists newStep,
           stepControl h h r = Accept h newStep
           /\ newStep <= 5 * h /\ newStep <= maxStep /\ 0.95 * h <= newStep)
     /\ (0.95 ^ 5 < r <= 1 -> h <> maxStep ->
         exists newStep, stepControl h h r = Accept h newStep /\ newStep < h))
  /\ (forall (fuel : nat) (candidate candidate' : Candidate),
        let current := Candidate.current candidate in
        let g := ParticleState.mcharge current in
        let z := Candidate.redshift candidate in
        let m := ParticleState.energy current / (c_light * c_light) in
        let yIn :=
          MonopolePropagationBP.mkY (ParticleState.position current)
            (ParticleState.direction current) in
        g <> 0 -> m <> 0 -> c_squared <> 0 ->
        minStep <> maxStep -> 0 < minStep <= maxStep -> 0 < tolerance ->
        process fuel candidate = Some candidate' ->
        let h := Candidate.currentStep candidate' in
        minStep <= h <= clip (Candidate.nextStep candidate) minStep maxStep
        /\ stepControl h h (errorRatio yIn h z m g)
           = Accept h (Candidate.nextStep candidate'))
  /\ (0 < minStep <= maxStep ->
      forall candidate : Candidate,
      exists fuel candidate', process fuel candidate = Some candidate').
Proof.
  split; [|split].
  - exact stepControl_by_case.
  - intros fuel candidate candidate' current g z m yIn Hg _ _ Hne [Hmin Hle] _ Hp.
    apply (process_adaptive_accepts fuel candidate candidate'); try assumption.
    split; lra.
  - intros Hsteps candidate. apply process_total. exact Hsteps.
Qed.

(** *** The direction *)

Lemma setDirection_unit (p : ParticleState) (dir : Vector3d) :
  Vector3.getR dir <> 0 ->
  Vector3.getR (ParticleState.direction (ParticleState.setDirection p dir)) = 1.
Proof. intros H. simpl. apply getR_normalized. exact H. Qed.

Lemma applyStep_direction_unit (candidate : Candidate) (g z : R) (yOut : Y)
    (step newStep : R) :
  Vector3.getR (u yOut) <> 0 ->
  Vector3.getR
    (ParticleState.direction (Candidate.current (applyStep candidate g z yOut step newStep)))
  = 1.
Proof.
  intros H. unfold MonopolePropagationBP.applyStep.
  cbn -[Vector3.getR Vector3.div Vector3.getUnitVector Vector3.dot Vector3.scale Rmax].
  apply getR_normalized. unfold Vector3.getUnitVector.
  rewrite getR_normalized by exact H. lra.
Qed.

(** What the rectilinear branch leaves. *)
Lemma process_rectilinear (fuel : nat) (candidate : Candidate) :
  ParticleState.mcharge (Candidate.current candidate) = 0 ->
  let current := Candidate.current candidate in
  let h := clip (Candidate.nextStep candidate) minStep maxStep in
  process fuel candidate
  = Some (Candidate.mk
            (ParticleState.setPosition current
               (ParticleState.position current + ParticleState.direction current * h)%vec)
            current (Candidate.redshift candidate) h maxStep
            (Candidate.stepRadiation candidate) (Candidate.secondaries candidate)).
Proof.
  intros Hg. unfold MonopolePropagationBP.process.
  destruct (Req_dec_T _ 0) as [_|Hne]; [reflexivity|].
  exfalso; apply Hne; exact Hg.
Qed.

(** C6, as the code has it: [setDirection] leaves a unit vector for every
    argument of non-zero length; after a call of [process] on a candidate
    with magnetic charge the direction has length one provided the pushed
    direction of the accepted step is not the zero vector (and the mass
    [E / c^2] and [c_squared] it is divided by are not zero); a candidate
    without magnetic charge keeps its direction. *)
Theorem direction_unit_norm :
  (forall (p : ParticleState) (dir : Vector3d),
     Vector3.getR dir <> 0 ->
     Vector3.getR (ParticleState.direction (ParticleState.setDirection p dir)) = 1)
  /\ (forall (fuel : nat) (candidate candidate' : Candidate),
        let current := Candidate.current candidate in
        let g := ParticleState.mcharge current in
        let m := ParticleState.energy current / (c_light * c_light) in
        g <> 0 -> m <> 0 -> c_squared <> 0 ->
        process fuel candidate = Some candidate' ->
        Vector3.getR
          (u (dY (ParticleState.position current) (ParticleState.direction current)
                (Candidate.currentStep candidate') (Candidate.redshift candidate) g m)) <> 0 ->
        Vector3.getR (ParticleState.direction (Candidate.current candidate')) = 1)
  /\ (forall (fuel : nat) (candidate candidate' : Candidate),
        ParticleState.mcharge (Candidate.current candidate) = 0 ->
        process fuel candidate = Some candidate' ->
        ParticleState.direction (Candidate.current candidate')
        = ParticleState.direction (Candidate.current candidate)).
Proof.
  split; [exact setDirection_unit|split].
  - intros fuel candidate candidate' current g m Hg _ _ Hp Hu.
    unfold MonopolePropagationBP.process in Hp.
    destruct (Req_dec_T _ 0) as [Hz|_]; [exfalso; apply Hg; exact Hz|].
    destruct (integrate _ _ _ _ _ _) as [[[yOut step] newStep]|] eqn:Hi; [|discriminate].
    apply integrate_yOut in Hi.
    inversion Hp; subst candidate'; clear Hp.
    apply applyStep_direction_unit.
    destruct (applyStep_energy
                (Candidate.setPrevious candidate (Candidate.current candidate))
                (ParticleState.getMcharge (Candidate.current candidate))
                (Candidate.getRedshift candidate) yOut step newStep) as (_ & Hs & _).
    unfold Candidate.getRedshift, ParticleState.getMcharge in *.
    rewrite Hs in Hu. rewrite Hi. exact Hu.
  - intros fuel candidate candidate' Hg Hp.
    rewrite (process_rectilinear fuel candidate Hg) in Hp.
    inversion Hp; subst. reflexivity.
Qed.

End MonopolePropagationBP_facts.

(** *** Concrete runs of the integrator *)


Lemma div_zero (f : R) : (Vector3.zero / f)%vec = Vector3.zero.
Proof.
  unfold Vector3.div, Vector3.zero, Vector3.fill; simpl.
  f_equal; unfold Rdiv; ring.
Qed.

(** C6, against the specification: [setDirection] of the zero vector does
    not leave a vector of length one; and one fixed step of the monopole
    in the opposing field, whose push cancels the direction, leaves a
    candidate whose direction has not the length one. *)
Lemma direction_not_always_unit :
  Vector3.getR
    (ParticleState.direction (ParticleState.setDirection Scenario.photonState Vector3.zero))
  <> 1
  /\ exists candidate',
       MonopolePropagationBP.process 1 1 Scenario.Y_of_double
         (Scenario.fixedStepBP Scenario.opposingField) 0 Scenario.monopole
       = Some candidate'
       /\ Vector3.getR (ParticleState.direction (Candidate.current candidate')) <> 1.
Proof.
  split.
  - cbn [ParticleState.setDirection ParticleState.direction].
    rewrite div_zero, getR_zero. lra.
  - eexists. split.
    + apply process_fixed_step; [reflexivity|simpl; lra].
    + cbv zeta.
      assert (HdY : MonopolePropagationBP.u
                      (MonopolePropagationBP.dY 1 (Scenario.fixedStepBP Scenario.opposingField)
                         Vector3.zero (Vector3.mk 1 0 0) 1 0 1 (1 / (1 * 1)))
                    = Vector3.zero).
      { unfold MonopolePropagationBP.dY, MonopolePropagationBP.getFieldAtPosition,
          Vector3.add, Vector3.scale, Vector3.div, Vector3.lscale, Vector3.zero, Vector3.fill;
          simpl.
        f_equal; field. }
      unfold MonopolePropagationBP.applyStep.
      cbn [Scenario.monopole Candidate.current Candidate.redshift Scenario.monopoleState
           ParticleState.position ParticleState.direction ParticleState.energy
           ParticleState.mcharge Scenario.fixedStepBP MonopolePropagationBP.maxStep
           Candidate.setPrevious Candidate.setCurrent Candidate.setCurrentStep
           Candidate.setNextStep ParticleState.setEnergy ParticleState.setDirection
           ParticleState.setPosition].
      cbn [Scenario.fixedStepBP] in HdY. rewrite HdY.
      unfold Vector3.getUnitVector. rewrite !div_zero, getR_zero. lra.
Qed.

Lemma direction_unit_norm_witness :
  exists candidate',
    MonopolePropagationBP.process 1 1 Scenario.Y_of_double
      (Scenario.fixedStepBP Scenario.uniformField) 0 Scenario.monopole
    = Some candidate'
    /\ Vector3.getR (ParticleState.direction (Candidate.current candidate')) = 1.
Proof.
  eexists. split.
  - apply process_fixed_step; [reflexivity|simpl; lra].
  - refine (proj1 (proj2 (direction_unit_norm 1 1 Scenario.Y_of_double
                            (Scenario.fixedStepBP Scenario.uniformField)))
              O Scenario.monopole _ _ _ _ _ _).
    + simpl; lra.
    + simpl; lra.
    + lra.
    + apply process_fixed_step; [reflexivity|simpl; lra].
    + unfold MonopolePropagationBP.applyStep, MonopolePropagationBP.dY,
        MonopolePropagationBP.getFieldAtPosition, Vector3.getR; simpl.
      match goal with |- sqrt ?e <> 0 => assert (0 < sqrt e); [|lra] end.
      apply sqrt_lt_R0. nra.
Defined.

(** *** A run of the adaptive loop *)

Section Slab.

Local Abbreviation dY := (MonopolePropagationBP.dY 1 Scenario.slabBP).
Local Abbreviation getFieldAtPosition :=
  (MonopolePropagationBP.getFieldAtPosition Scenario.slabBP).
Local Abbreviation errorRatio :=
  (MonopolePropagationBP.errorRatio 1 Scenario.Y_of_double Scenario.slabBP).

Lemma slab_inside (pos : Vector3d) (z : R) :
  3 / 4 <= Vector3.x pos < 5 / 4 -> getFieldAtPosition pos z = Vector3.mk 0 0 (3 / 16).
Proof.
  intros H. unfold MonopolePropagationBP.getFieldAtPosition; simpl.
  destruct (Rle_dec (3 / 4) (Vector3.x pos)); [|lra].
  destruct (Rlt_dec (Vector3.x pos) (5 / 4)); [reflexivity|lra].
Qed.

Lemma slab_outside (pos : Vector3d) (z : R) :
  Vector3.x pos < 3 / 4 \/ 5 / 4 <= Vector3.x pos -> getFieldAtPosition pos z = Vector3.zero.
Proof.
  intros H. unfold MonopolePropagationBP.getFieldAtPosition; simpl.
  destruct (Rle_dec (3 / 4) (Vector3.x pos)); [|reflexivity].
  destruct (Rlt_dec (Vector3.x pos) (5 / 4)); [lra|reflexivity].
Qed.

(** The full step samples the field in the middle of the slab ... *)
Lemma slab_full_step :
  dY Vector3.zero (Vector3.mk 1 0 0) 2 0 1 1
  = MonopolePropagationBP.mkY (Vector3.mk 2 0 (3 / 8)) (Vector3.mk 1 0 (3 / 8)).
Proof.
  unfold MonopolePropagationBP.dY.
  rewrite slab_inside by (simpl; lra). vector_arith.
Qed.

(** ... the two half steps sample it on either side of the slab. *)
Lemma slab_first_half_step :
  dY Vector3.zero (Vector3.mk 1 0 0) 1 0 1 1
  = MonopolePropagationBP.mkY (Vector3.mk 1 0 0) (Vector3.mk 1 0 0).
Proof.
  unfold MonopolePropagationBP.dY.
  rewrite slab_outside by (simpl; lra). vector_arith.
Qed.

Lemma slab_second_half_step :
  dY (Vector3.mk 1 0 0) (Vector3.mk 1 0 0) 1 0 1 1
  = MonopolePropagationBP.mkY (Vector3.mk 2 0 0) (Vector3.mk 1 0 0).
Proof.
  unfold MonopolePropagationBP.dY.
  rewrite slab_outside by (simpl; lra). vector_arith.
Qed.

(** The error estimate of the attempt of the step 2 is [1/4], its ratio to
    the tolerance [sqrt(3)/2]. *)
Lemma slab_errorRatio :
  errorRatio (MonopolePropagationBP.mkY Vector3.zero (Vector3.mk 1 0 0)) 2 0 1 1
  = 2 * sqrt (3 / 16).
Proof.
  unfold MonopolePropagationBP.errorRatio, MonopolePropagationBP.tryStep.
  cbn [snd MonopolePropagationBP.x MonopolePropagationBP.u].
  replace (2 / 2) with 1 by field.
  rewrite slab_full_step, slab_first_half_step.
  cbn [MonopolePropagationBP.x MonopolePropagationBP.u].
  rewrite slab_second_half_step.
  unfold MonopolePropagationBP.errorEstimation.
  cbn [MonopolePropagationBP.x MonopolePropagationBP.u Scenario.Y_of_double
       Scenario.slabBP Scenario.adaptiveBP MonopolePropagationBP.tolerance].
  assert (Hdiff : Vector3.getR (Vector3.mk 2 0 (3 / 8) - Vector3.mk 2 0 0)%vec = 3 / 8).
  { unfold Vector3.getR, Vector3.sub; simpl.
    replace ((2 - 2) * (2 - 2) + (0 - 0) * (0 - 0) + (3 / 8 - 0) * (3 / 8 - 0))
      with ((3 / 8) * (3 / 8)) by field.
    apply sqrt_square. lra. }
  rewrite Hdiff.
  replace (3 / 8 / (2 * (1 - 1 / 4))) with (1 / 4) by field.
  unfold Vector3.getR, Vector3.fill; simpl.
  replace (1 / 4 * (1 / 4) + 1 / 4 * (1 / 4) + 1 / 4 * (1 / 4)) with (3 / 16) by field.
  lra.
Qed.

Lemma slab_errorRatio_bounds : 0.95 ^ 5 < 2 * sqrt (3 / 16) <= 1.
Proof.
  assert (Hlo : 0.39 < sqrt (3 / 16)).
  { rewrite <- (sqrt_square 0.39) by lra. apply sqrt_lt_1_alt. lra. }
  assert (Hhi : sqrt (3 / 16) < 0.5).
  { rewrite <- (sqrt_square 0.5) by lra. apply sqrt_lt_1_alt. lra. }
  simpl. lra.
Qed.

(** The monopole attempts the step 2 through the slab: the error ratio is
    below 1, the step is accepted, and the step proposed for the next call
    is smaller than the step taken. *)
Lemma slab_process_run :
  exists candidate',
    MonopolePropagationBP.process 1 1 Scenario.Y_of_double Scenario.slabBP 1
      Scenario.monopoleNextStep2 = Some candidate'
    /\ Candidate.currentStep candidate' = 2
    /\ Candidate.nextStep candidate' < 2.
Proof.
  unfold MonopolePropagationBP.process, MonopolePropagationBP.integrate.
  cbn [Scenario.monopoleNextStep2 Candidate.current Candidate.setPrevious
       Scenario.monopoleState ParticleState.getMcharge ParticleState.mcharge
       ParticleState.getPosition ParticleState.position ParticleState.getDirection
       ParticleState.direction ParticleState.getEnergy ParticleState.energy
       Candidate.getRedshift Candidate.redshift Candidate.getNextStep Candidate.nextStep
       Scenario.slabBP Scenario.adaptiveBP MonopolePropagationBP.minStep
       MonopolePropagationBP.maxStep].
  destruct (Req_dec_T 1 0); [lra|].
  destruct (Req_dec_T 1 10); [lra|].
  replace (clip 2 1 10) with 2
    by (unfold clip, Rmax, Rmin; destruct (Rle_dec 2 10); destruct (Rle_dec 1 _); lra).
  replace (1 / (1 * 1)) with 1 by field.
  cbn [MonopolePropagationBP.adaptiveLoop].
  fold (Scenario.adaptiveBP Scenario.slabField). fold Scenario.slabBP.
  rewrite slab_errorRatio.
  destruct (stepControl_by_case Scenario.slabBP 2 (2 * sqrt (3 / 16)))
    as (_ & _ & _ & _ & _ & _ & Hsmall); [lra|].
  destruct (Hsmall slab_errorRatio_bounds) as (newStep & -> & Hlt); [simpl; lra|].
  eexists. split; [reflexivity|].
  cbn [MonopolePropagationBP.applyStep Candidate.setNextStep Candidate.setCurrentStep
       Candidate.currentStep Candidate.nextStep].
  split; [reflexivity|exact Hlt].
Qed.

Lemma proposedStep_lower_bound (h r maxStep : R) :
  h <= maxStep -> h <= Spec.proposedStep h r maxStep.
Proof. intros H. unfold Spec.proposedStep. apply clip_bounds. exact H. Qed.

(** C1, against the specification: after that call the step proposed for
    the next call is smaller than the step just taken, while the
    [clamp(h * min(0.95 * r^-0.2, 5), h, maxStep)] of the specification
    is never below the step taken. *)
Lemma process_proposes_smaller_step :
  exists candidate',
    MonopolePropagationBP.process 1 1 Scenario.Y_of_double Scenario.slabBP 1
      Scenario.monopoleNextStep2 = Some candidate'
    /\ Candidate.nextStep candidate' < Candidate.currentStep candidate'
    /\ Candidate.nextStep candidate'
       <> Spec.proposedStep (Candidate.currentStep candidate')
            (errorRatio (MonopolePropagationBP.mkY Vector3.zero (Vector3.mk 1 0 0))
               (Candidate.currentStep candidate') 0 1 1)
            (MonopolePropagationBP.maxStep Scenario.slabBP).
Proof.
  destruct slab_process_run as (candidate' & Hp & Hh & Hn).
  exists candidate'. split; [exact Hp|]. rewrite Hh. split; [exact Hn|].
  pose proof (proposedStep_lower_bound 2
                (errorRatio (MonopolePropagationBP.mkY Vector3.zero (Vector3.mk 1 0 0))
                   2 0 1 1)
                (MonopolePropagationBP.maxStep Scenario.slabBP)) as Hlo.
  simpl MonopolePropagationBP.maxStep in *. lra.
Qed.

Lemma stepControl_cases_witness :
  MonopolePropagationBP.stepControl Scenario.slabBP 2 2 1
  = MonopolePropagationBP.Accept 2 (Rmin (2 * Rmin (0.95 * Rpower 1 (-0.2)) 5) 10)
  /\ MonopolePropagationBP.stepControl Scenario.slabBP 2 2 3
     = MonopolePropagationBP.Retry
         (XDouble.Fin (Rmax (2 * Rmax (0.95 * Rpower 3 (-0.2)) 0.1) 1))
  /\ exists candidate',
       MonopolePropagationBP.process 1 1 Scenario.Y_of_double Scenario.slabBP 1
         Scenario.monopoleNextStep2 = Some candidate'
       /\ 1 <= Candidate.currentStep candidate' <= clip 2 1 10
       /\ MonopolePropagationBP.stepControl Scenario.slabBP
            (Candidate.currentStep candidate') (Candidate.currentStep candidate')
            (errorRatio (MonopolePropagationBP.mkY Vector3.zero (Vector3.mk 1 0 0))
               (Candidate.currentStep candidate') 0 (1 / (1 * 1)) 1)
          = MonopolePropagationBP.Accept (Candidate.currentStep candidate')
              (Candidate.nextStep candidate').
Proof.
  pose proof (stepControl_cases 1 1 Scenario.Y_of_double Scenario.slabBP)
    as (Hpass & Hrun & _).
  destruct (Hpass 2 1) as (_ & _ & _ & Hgrow & _); [lra|].
  destruct (Hpass 2 3) as (_ & Hshrink & _); [lra|].
  split; [apply Hgrow; simpl; lra|].
  split; [apply Hshrink; simpl; lra|].
  destruct slab_process_run as (candidate' & Hp & _).
  exists candidate'. split; [exact Hp|].
  apply (Hrun 1%nat Scenario.monopoleNextStep2 candidate'); simpl; try lra.
  exact Hp.
Defined.

End Slab.

(** *** Runs in a uniform field and without field *)

Lemma getR_axis (a : R) : 0 <= a -> Vector3.getR (Vector3.mk a 0 0) = a.
Proof.
  intros Ha. unfold Vector3.getR; simpl.
  replace (a * a + 0 * 0 + 0 * 0) with (a * a) by ring.
  apply sqrt_square. exact Ha.
Qed.

(** One fixed step of the monopole in the uniform field: the push doubles
    the direction vector, the new direction is its unit vector, and the
    energy grows by [g * (B . direction) * h = 1]. *)
Lemma uniform_field_step :
  MonopolePropagationBP.process 1 1 Scenario.Y_of_double
    (Scenario.fixedStepBP Scenario.uniformField) 0 Scenario.monopole
  = Some (Candidate.mk
            (ParticleState.mk 4110000 2 (Vector3.mk (3 / 2) 0 0) (Vector3.mk 1 0 0) 1 0 1)
            Scenario.monopoleState 0 1 1 0 []).
Proof.
  rewrite process_fixed_step by (simpl; try reflexivity; lra).
  cbv zeta.
  assert (HdY : MonopolePropagationBP.dY 1 (Scenario.fixedStepBP Scenario.uniformField)
                  Vector3.zero (Vector3.mk 1 0 0) 1 0 1 (1 / (1 * 1))
                = MonopolePropagationBP.mkY (Vector3.mk (3 / 2) 0 0) (Vector3.mk 2 0 0)).
  { unfold MonopolePropagationBP.dY, MonopolePropagationBP.getFieldAtPosition,
      Vector3.add, Vector3.scale, Vector3.div, Vector3.lscale, Vector3.zero, Vector3.fill;
      simpl.
    f_equal; f_equal; field. }
  cbn [Scenario.monopole Candidate.current Candidate.redshift Scenario.monopoleState
       ParticleState.position ParticleState.direction ParticleState.energy
       ParticleState.mcharge Scenario.fixedStepBP MonopolePropagationBP.maxStep].
  cbn [Scenario.fixedStepBP] in HdY. rewrite HdY.
  unfold MonopolePropagationBP.applyStep.
  cbn [MonopolePropagationBP.x MonopolePropagationBP.u].
  assert (Hunit : Vector3.getUnitVector (Vector3.mk 2 0 0) = Vector3.mk 1 0 0).
  { unfold Vector3.getUnitVector. rewrite getR_axis by lra.
    unfold Vector3.div; simpl. f_equal; field. }
  rewrite Hunit.
  unfold ParticleState.setDirection. rewrite getR_axis by lra.
  replace (Vector3.mk 1 0 0 / 1)%vec with (Vector3.mk 1 0 0)
    by (unfold Vector3.div; simpl; f_equal; field).
  unfold MonopolePropagationBP.getFieldAtPosition, ParticleState.setEnergy,
    ParticleState.setPosition, ParticleState.getEnergy, ParticleState.getDirection,
    ParticleState.getPosition, Candidate.setNextStep, Candidate.setCurrentStep,
    Candidate.setCurrent, Candidate.setPrevious, Vector3.dot, Vector3.scale.
  cbn -[Rmax].
  replace (Rmax 0 (1 + 1 * (1 * (1 * 1) + 0 * (0 * 1) + 0 * (0 * 1)))) with 2
    by (rewrite Rmax_right; lra).
  reflexivity.
Qed.

Lemma dot_zero_l (v : Vector3d) : Vector3.dot Vector3.zero v = 0.
Proof. unfold Vector3.dot, Vector3.zero, Vector3.fill; simpl. ring. Qed.

(** Where the field lookup gives the zero vector everywhere, one step and
    two half steps end at the same position: the error ratio is zero. *)
Lemma zero_field_errorRatio (c_squared : R) (self : MonopolePropagationBP.t)
    (yIn : MonopolePropagationBP.Y) (h z m g : R) :
  (forall pos z', MonopolePropagationBP.getFieldAtPosition self pos z' = Vector3.zero) ->
  MonopolePropagationBP.errorRatio c_squared Scenario.Y_of_double self yIn h z m g = 0.
Proof.
  intros Hzero.
  assert (Hpush : forall dir s,
            (dir + Vector3.lscale g Vector3.zero * s / m / c_squared)%vec = dir).
  { intros [dx dy dz] s.
    unfold Vector3.zero, Vector3.fill, Vector3.add, Vector3.scale, Vector3.div,
      Vector3.lscale; simpl.
    f_equal; unfold Rdiv; ring. }
  unfold MonopolePropagationBP.errorRatio, MonopolePropagationBP.tryStep,
    MonopolePropagationBP.dY.
  rewrite !Hzero, !Hpush.
  cbn [snd MonopolePropagationBP.x MonopolePropagationBP.u Scenario.Y_of_double].
  unfold MonopolePropagationBP.errorEstimation.
  match goal with
  | |- Vector3.getR (Vector3.fill (Vector3.getR ?d / _)) / _ = 0 =>
      replace d with Vector3.zero
  end.
  - rewrite getR_zero.
    replace (0 / (h * (1 - 1 / 4))) with 0 by (unfold Rdiv; ring).
    fold Vector3.zero. rewrite getR_zero. unfold Rdiv; ring.
  - destruct yIn as [[px py pz] [ux uy uz]].
    unfold Vector3.zero, Vector3.fill, Vector3.sub, Vector3.add, Vector3.scale,
      Vector3.div, Vector3.lscale; simpl.
    f_equal; field.
Qed.

(** A sampler that throws on every call does not stop the adaptive
    integrator: the field counts as zero, the first attempt is accepted
    with the error ratio 0, and five times the step is proposed. *)
Lemma broken_field_run :
  exists candidate',
    MonopolePropagationBP.process 1 1 Scenario.Y_of_double
      (Scenario.adaptiveBP Scenario.brokenField) 1 Scenario.monopole = Some candidate'
    /\ Candidate.currentStep candidate' = 1
    /\ Candidate.nextStep candidate' = 5
    /\ ParticleState.energy (Candidate.current candidate') = 1.
Proof.
  assert (Hzero : forall pos z',
            MonopolePropagationBP.getFieldAtPosition
              (Scenario.adaptiveBP Scenario.brokenField) pos z' = Vector3.zero)
    by reflexivity.
  unfold MonopolePropagationBP.process, MonopolePropagationBP.integrate.
  cbn [Scenario.monopole Candidate.current Candidate.setPrevious
       Scenario.monopoleState ParticleState.getMcharge ParticleState.mcharge
       Candidate.getNextStep Candidate.nextStep
       Scenario.adaptiveBP MonopolePropagationBP.minStep MonopolePropagationBP.maxStep].
  destruct (Req_dec_T 1 0); [lra|].
  destruct (Req_dec_T 1 10); [lra|].
  replace (clip 0 1 10) with 1
    by (unfold clip, Rmax, Rmin; destruct (Rle_dec 0 10); destruct (Rle_dec 1 _); lra).
  cbn [MonopolePropagationBP.adaptiveLoop].
  fold (Scenario.adaptiveBP Scenario.brokenField).
  rewrite (zero_field_errorRatio 1 _ _ _ _ _ _ Hzero).
  rewrite stepControl_grow_zero_error by (simpl; lra).
  replace (Rmin (5 * 1) (MonopolePropagationBP.maxStep (Scenario.adaptiveBP Scenario.brokenField)))
    with 5 by (simpl; unfold Rmin; destruct (Rle_dec (5 * 1) 10); lra).
  eexists. split; [reflexivity|].
  split; [reflexivity|]. split; [reflexivity|].
  unfold MonopolePropagationBP.applyStep.
  rewrite Hzero.
  cbn -[Rmax Vector3.getUnitVector Vector3.getR Vector3.div Vector3.dot Vector3.zero].
  rewrite dot_zero_l, Rmax_right; lra.
Qed.

Lemma getFieldAtPosition_never_fails_witness :
  MonopolePropagationBP.getFieldAtPosition (Scenario.adaptiveBP Scenario.brokenField)
    (Vector3.mk 1 2 3) 0 = Vector3.zero
  /\ exists fuel candidate',
       MonopolePropagationBP.process 1 1 Scenario.Y_of_double
         (Scenario.adaptiveBP Scenario.brokenField) fuel Scenario.monopole
       = Some candidate'.
Proof.
  destruct (getFieldAtPosition_never_fails 1 1 Scenario.Y_of_double
              (Scenario.adaptiveBP Scenario.brokenField) (Vector3.mk 1 2 3) 0)
    as (_ & Hthrows & _ & _ & Htotal).
  split.
  - apply (Hthrows (fun _ _ => MagneticField.Throws)); reflexivity.
  - apply Htotal. simpl. lra.
Defined.

(** ** ElasticScattering *)

Section ElasticScattering_facts.

Variables c_squared eV : R.
Variable HepPID_isNucleus : Z -> bool.
Variables HepPID_A HepPID_Z : Z -> Z.
Variable Random : Type.
Variable rand : Random -> R * Random.
Variable randBin : list R -> Random -> nat * Random.
Variable randomInterpolatedPosition : Vector3d -> Vector3d -> Random -> Vector3d * Random.
Variable interpolateEquidistant : R -> R -> R -> list R -> R.
Variable self : ElasticScattering.t.

Local Abbreviation lgmin := ElasticScattering.lgmin.
Local Abbreviation lgmax := ElasticScattering.lgmax.
Local Abbreviation isNucleus := (ParticleID.isNucleus HepPID_isNucleus).
Local Abbreviation massNumber := (ParticleID.massNumber HepPID_A).
Local Abbreviation chargeNumber := (ParticleID.chargeNumber HepPID_Z).
Local Abbreviation lg := (ElasticScattering.lg c_squared).
Local Abbreviation rate :=
  (ElasticScattering.rate c_squared HepPID_A HepPID_Z interpolateEquidistant self).
Local Abbreviation interact :=
  (ElasticScattering.interact c_squared eV Random rand randBin
     randomInterpolatedPosition self).
Local Abbreviation loop :=
  (ElasticScattering.loop c_squared eV HepPID_A HepPID_Z Random rand randBin
     randomInterpolatedPosition interpolateEquidistant self).
Local Abbreviation process :=
  (ElasticScattering.process c_squared eV HepPID_isNucleus HepPID_A HepPID_Z Random
     rand randBin randomInterpolatedPosition interpolateEquidistant self).

(** [interact] appends exactly one photon of weight 1 and touches nothing
    else of the candidate. *)
Lemma interact_appends_photon (candidate : Candidate) (random : Random) :
  exists E pos,
    fst (interact candidate random)
    = Candidate.addSecondary candidate 22 E pos 1 (ElasticScattering.interactionTag self).
Proof.
  unfold ElasticScattering.interact.
  destruct (randBin _ random) as [bin random1].
  destruct (rand random1) as [u1 random2].
  destruct (rand random2) as [u2 random3].
  destruct (randomInterpolatedPosition _ _ random3) as [pos random4].
  eexists; eexists; reflexivity.
Qed.

Lemma interact_rate (candidate : Candidate) (random : Random) :
  rate (fst (interact candidate random)) = rate candidate.
Proof.
  destruct (interact_appends_photon candidate random) as (E & pos & ->).
  reflexivity.
Qed.

(** One pass of the loop with a finite free path. *)
Lemma loop_pass_finite (fuel : nat) (candidate : Candidate) (step : R) (random : Random) :
  0 < step -> 0 < fst (rand random) -> rate candidate <> 0 ->
  let freePath := - ln (fst (rand random)) / rate candidate in
  loop (S fuel) candidate step random
  = if Rlt_dec step freePath then Some (candidate, snd (rand random))
    else loop fuel (fst (interact candidate (snd (rand random))))
           (step - freePath) (snd (interact candidate (snd (rand random)))).
Proof.
  intros Hs Hu Hr freePath. cbn [ElasticScattering.loop].
  destruct (Rgt_dec step 0); [|lra].
  destruct (rand random) as [u0 random1]; cbn [fst snd] in *.
  unfold XDouble.neg_log, XDouble.divx, XDouble.div.
  destruct (Req_dec_T u0 0); [lra|].
  destruct (Req_dec_T (rate candidate) 0); [contradiction|].
  fold freePath. destruct (Rlt_dec step freePath); [reflexivity|].
  destruct (interact candidate random1); reflexivity.
Qed.

(** One pass of the loop with an infinite free path. *)
Lemma loop_pass_infinite (fuel : nat) (candidate : Candidate) (step : R) (random : Random) :
  0 < step -> fst (rand random) = 0 \/ rate candidate = 0 ->
  loop (S fuel) candidate step random = Some (candidate, snd (rand random)).
Proof.
  intros Hs H. cbn [ElasticScattering.loop].
  destruct (Rgt_dec step 0); [|lra].
  destruct (rand random) as [u0 random1]; cbn [fst snd] in *.
  unfold XDouble.neg_log, XDouble.divx, XDouble.div.
  destruct (Req_dec_T u0 0); [reflexivity|].
  destruct (Req_dec_T (rate candidate) 0); [reflexivity|].
  destruct H; contradiction.
Qed.

Lemma loop_exhausted (fuel : nat) (candidate : Candidate) (step : R) (random : Random) :
  step <= 0 -> loop (S fuel) candidate step random = Some (candidate, random).
Proof.
  intros Hs. cbn [ElasticScattering.loop]. destruct (Rgt_dec step 0); [lra|reflexivity].
Qed.

(** With a positive rate and free paths of at least [delta], a step of at
    most [n * delta] needs at most [n + 1] passes. *)
Lemma loop_fuel (delta : R) :
  0 < delta ->
  (forall random, 0 < fst (rand random)) ->
  forall n candidate step random,
    rate candidate <> 0 ->
    (forall random', delta <= - ln (fst (rand random')) / rate candidate) ->
    step <= INR n * delta ->
    exists result, loop (S n) candidate step random = Some result.
Proof.
  intros Hdelta Hdraw.
  induction n as [|n IH]; intros candidate step random Hrate Hpath Hstep.
  - rewrite loop_exhausted by (simpl in Hstep; lra). eexists; reflexivity.
  - destruct (Rle_dec step 0) as [Hle|Hgt].
    + rewrite loop_exhausted by exact Hle. eexists; reflexivity.
    + rewrite loop_pass_finite by (try apply Hdraw; try assumption; lra).
      cbv zeta. destruct (Rlt_dec step _); [eexists; reflexivity|].
      apply IH.
      * rewrite interact_rate. exact Hrate.
      * intros random'. rewrite interact_rate. apply Hpath.
      * rewrite S_INR in Hstep. specialize (Hpath random). lra.
Qed.

(** Under the same conditions the loop ends for every step. *)
Lemma loop_terminates (delta : R) (candidate : Candidate) (step : R) (random : Random) :
  0 < delta ->
  (forall random', 0 < fst (rand random')) ->
  rate candidate <> 0 ->
  (forall random', delta <= - ln (fst (rand random')) / rate candidate) ->
  exists fuel result, loop fuel candidate step random = Some result.
Proof.
  intros Hdelta Hdraw Hrate Hpath.
  destruct (INR_unbounded (step / delta)) as [n Hn].
  exists (S n). apply (loop_fuel delta Hdelta Hdraw); try assumption.
  apply (Rmult_lt_compat_r delta) in Hn; [|exact Hdelta].
  replace (step / delta * delta) with step in Hn by (field; lra). lra.
Qed.

(** A nucleus in the tabulated range enters the loop with the current step. *)
Lemma process_in_range (fuel : nat) (candidate : Candidate) (random : Random) :
  isNucleus (ParticleState.id (Candidate.current candidate)) = true ->
  lgmin <= lg candidate <= lgmax ->
  process fuel candidate random = loop fuel candidate (Candidate.currentStep candidate) random.
Proof.
  intros Hn [Hlo Hhi]. unfold ElasticScattering.process, ParticleState.getId.
  rewrite Hn. cbn [negb].
  destruct (Rlt_dec (lg candidate) lgmin); [lra|].
  destruct (Rgt_dec (lg candidate) lgmax); [lra|]. reflexivity.
Qed.

(** C3, as the code has it.  For a nucleus whose boosted log Lorentz factor
    is in the tabulated range, [process] is the loop over the current step.
    In each pass with a positive remaining step the rate is the
    interpolated rate times [Z * N / A] times [(1 + z)^2] times the
    redshift scaling of the background, and the free path is
    [-ln(U) / rate] for the next draw [U]; the pass ends the loop without
    interaction when the remaining step is strictly smaller than the free
    path (also when the free path is infinite, for a draw or a rate that
    is zero); otherwise, the free path being at most the remaining step,
    it appends exactly one secondary photon of weight 1, and the loop goes
    on with the remaining step reduced by the free path; it ends when the
    remaining step is exhausted, after finitely many passes when the free
    paths stay above some positive length. *)
Theorem elastic_scattering_pass (fuel : nat) (candidate : Candidate) (step : R)
    (random : Random) :
  let current := Candidate.current candidate in
  let z := Candidate.redshift candidate in
  let A := massNumber (ParticleState.id current) in
  let Z := chargeNumber (ParticleState.id current) in
  let N := (A - Z)%Z in
  let U := fst (rand random) in
  let freePath := - ln U / rate candidate in
  (isNucleus (ParticleState.id current) = true ->
   lgmin <= lg candidate <= lgmax ->
   process fuel candidate random = loop fuel candidate (Candidate.currentStep candidate) random)
  /\ rate candidate
     = interpolateEquidistant (lg candidate) lgmin lgmax (ElasticScattering.tabRate self)
       * (IZR (Z * N) / IZR A)
       * ((1 + z) ^ 2 * ElasticScattering.getRedshiftScaling self z)
  /\ (0 < step -> 0 < U -> rate candidate <> 0 -> step < freePath ->
      loop (S fuel) candidate step random = Some (candidate, snd (rand random)))
  /\ (0 < step -> 0 <= U < 1 -> 0 <= rate candidate -> U = 0 \/ rate candidate = 0 ->
      loop (S fuel) candidate step random = Some (candidate, snd (rand random)))
  /\ (0 < step -> 0 < U -> rate candidate <> 0 -> freePath <= step ->
      exists E pos random',
        let candidate' :=
          Candidate.addSecondary candidate 22 E pos 1 (ElasticScattering.interactionTag self) in
        loop (S fuel) candidate step random = loop fuel candidate' (step - freePath) random'
        /\ Candidate.secondaries candidate'
           = Candidate.secondaries candidate
             ++ [Candidate.mkSecondary 22 E pos 1 (ElasticScattering.interactionTag self)])
  /\ (step <= 0 -> loop (S fuel) candidate step random = Some (candidate, random))
  /\ (forall delta : R,
        0 < delta ->
        (forall random', 0 < fst (rand random')) ->
        rate candidate <> 0 ->
        (forall random', delta <= - ln (fst (rand random')) / rate candidate) ->
        exists fuel' result, loop fuel' candidate step random = Some result).
Proof.
  intros current z A Z N U freePath.
  split; [|split; [|split; [|split; [|split; [|split]]]]].
  - intros Hn Hr. apply process_in_range; assumption.
  - reflexivity.
  - intros Hs Hu Hr Hlt. rewrite loop_pass_finite by assumption.
    fold U freePath. destruct (Rlt_dec step freePath); [reflexivity|contradiction].
  - intros Hs _ _ H. apply loop_pass_infinite; assumption.
  - intros Hs Hu Hr Hle. rewrite loop_pass_finite by assumption.
    fold U freePath. destruct (Rlt_dec step freePath); [lra|].
    destruct (interact_appends_photon candidate (snd (rand random))) as (E & pos & Hi).
    exists E, pos, (snd (interact candidate (snd (rand random)))).
    cbv zeta. rewrite Hi. split; reflexivity.
  - intros Hs. apply loop_exhausted; assumption.
  - intros delta Hdelta Hdraw Hrate Hpath. apply (loop_terminates delta); assumption.
Qed.

(** The candidate is left as it was outside the tabulated range and for a
    particle that is no nucleus. *)
Lemma process_out_of_range (fuel : nat) (candidate : Candidate) (random : Random) :
  isNucleus (ParticleState.id (Candidate.current candidate)) = false
  \/ lg candidate < lgmin \/ lgmax < lg candidate ->
  process fuel candidate random = Some (candidate, random).
Proof.
  intros H. unfold ElasticScattering.process, ParticleState.getId.
  destruct (isNucleus _); cbn [negb]; [|reflexivity].
  destruct (Rlt_dec (lg candidate) lgmin); [reflexivity|].
  destruct (Rgt_dec (lg candidate) lgmax); [reflexivity|].
  destruct H as [H|[H|H]]; [discriminate|lra|lra].
Qed.

End ElasticScattering_facts.

(** *** The tabulated range *)

Section ElasticScattering_range.

Variables c_squared eV : R.
Variable HepPID_isNucleus : Z -> bool.
Variables HepPID_A HepPID_Z : Z -> Z.
Variable Random : Type.
Variable rand : Random -> R * Random.
Variable randBin : list R -> Random -> nat * Random.
Variable randomInterpolatedPosition : Vector3d -> Vector3d -> Random -> Vector3d * Random.
Variable self : ElasticScattering.t.

Local Abbreviation lgmin := ElasticScattering.lgmin.
Local Abbreviation lgmax := ElasticScattering.lgmax.
Local Abbreviation isNucleus := (ParticleID.isNucleus HepPID_isNucleus).
Local Abbreviation lg := (ElasticScattering.lg c_squared).
Local Abbreviation interpolateEquidistant := Common.interpolateEquidistant.
Local Abbreviation loop :=
  (ElasticScattering.loop c_squared eV HepPID_A HepPID_Z Random rand randBin
     randomInterpolatedPosition interpolateEquidistant self).
Local Abbreviation process :=
  (ElasticScattering.process c_squared eV HepPID_isNucleus HepPID_A HepPID_Z Random
     rand randBin randomInterpolatedPosition interpolateEquidistant self).

Lemma interpolateEquidistant_lower (lo hi : R) (Y : list R) :
  interpolateEquidistant lo lo hi Y = hd 0 Y.
Proof.
  unfold Common.interpolateEquidistant. destruct (Rle_dec lo lo); [reflexivity|lra].
Qed.

Lemma interpolateEquidistant_upper (lo hi : R) (Y : list R) :
  lo < hi -> interpolateEquidistant hi lo hi Y = last Y 0.
Proof.
  intros H. unfold Common.interpolateEquidistant.
  destruct (Rle_dec hi lo); [lra|]. destruct (Rge_dec hi hi); [reflexivity|lra].
Qed.

(** C9: outside the tabulated range [process] returns the candidate and the
    generator as they were; a nucleus exactly at the lower or at the upper
    bound is in range (it enters the loop), and the rate interpolated there
    is the first, respectively the last, tabulated value. *)
Theorem elastic_scattering_range (fuel : nat) (candidate : Candidate) (random : Random) :
  let id := ParticleState.id (Candidate.current candidate) in
  let tabRate := ElasticScattering.tabRate self in
  (lg candidate < lgmin \/ lgmax < lg candidate ->
   process fuel candidate random = Some (candidate, random))
  /\ (isNucleus id = true -> lg candidate = lgmin ->
      process fuel candidate random
      = loop fuel candidate (Candidate.currentStep candidate) random
      /\ interpolateEquidistant (lg candidate) lgmin lgmax tabRate = hd 0 tabRate)
  /\ (isNucleus id = true -> lg candidate = lgmax ->
      process fuel candidate random
      = loop fuel candidate (Candidate.currentStep candidate) random
      /\ interpolateEquidistant (lg candidate) lgmin lgmax tabRate = last tabRate 0).
Proof.
  intros id tabRate.
  pose proof (process_in_range c_squared eV HepPID_isNucleus HepPID_A HepPID_Z
                Random rand randBin randomInterpolatedPosition interpolateEquidistant
                self fuel candidate random) as Hin.
  assert (Hlt : lgmin < lgmax) by (unfold ElasticScattering.lgmin, ElasticScattering.lgmax; lra).
  split; [|split].
  - intros H. apply process_out_of_range. right. exact H.
  - intros Hn Hl. split.
    + apply Hin; [exact Hn|lra].
    + rewrite Hl. apply interpolateEquidistant_lower.
  - intros Hn Hl. split.
    + apply Hin; [exact Hn|lra].
    + rewrite Hl. apply interpolateEquidistant_upper. exact Hlt.
Qed.

End ElasticScattering_range.

(** *** Concrete runs of the scattering loop *)

Lemma ln_10_pos : 0 < ln 10.
Proof. rewrite <- ln_1. apply ln_increasing; lra. Qed.

Lemma log10_pow10 (n : nat) : ElasticScattering.log10 (10 ^ n) = INR n.
Proof.
  unfold ElasticScattering.log10.
  rewrite ln_pow by lra. pose proof ln_10_pos. field. lra.
Qed.

Lemma log10_million : ElasticScattering.log10 1000000 = 6.
Proof.
  replace 1000000 with (10 ^ 6) by (simpl; ring).
  rewrite log10_pow10. simpl. ring.
Qed.

Section Helium.

Local Abbreviation lg := (ElasticScattering.lg 1).
Local Abbreviation rate :=
  (ElasticScattering.rate 1 Scenario.hepA Scenario.hepZ Common.interpolateEquidistant
     Scenario.flatScattering).
Local Abbreviation interact :=
  (ElasticScattering.interact 1 1 nat Scenario.rand Scenario.randBin
     Scenario.randomInterpolatedPosition Scenario.flatScattering).
Local Abbreviation loop :=
  (ElasticScattering.loop 1 1 Scenario.hepA Scenario.hepZ nat Scenario.rand
     Scenario.randBin Scenario.randomInterpolatedPosition Common.interpolateEquidistant
     Scenario.flatScattering).
Local Abbreviation process :=
  (ElasticScattering.process 1 1 Scenario.hepIsNucleus Scenario.hepA Scenario.hepZ nat
     Scenario.rand Scenario.randBin Scenario.randomInterpolatedPosition
     Common.interpolateEquidistant Scenario.flatScattering).

Local Abbreviation isHelium := Scenario.isHelium.

Lemma helium_lg (candidate : Candidate) : isHelium candidate -> lg candidate = 6.
Proof.
  intros [Hc Hz]. unfold ElasticScattering.lg, ParticleState.getLorentzFactor,
    Candidate.getRedshift. rewrite Hc, Hz. simpl.
  replace ((1 + 999999 / (1 * 1)) * (1 + 0)) with 1000000 by field.
  apply log10_million.
Qed.

Lemma helium_rate (candidate : Candidate) : isHelium candidate -> rate candidate = 1.
Proof.
  intros H. unfold ElasticScattering.rate. rewrite (helium_lg candidate H).
  destruct H as [Hc Hz]. unfold Candidate.getRedshift, ParticleState.getId.
  rewrite Hc, Hz.
  replace (ParticleID.massNumber Scenario.hepA (ParticleState.id Scenario.heliumState))
    with 4%Z by reflexivity.
  replace (ParticleID.chargeNumber Scenario.hepZ (ParticleState.id Scenario.heliumState))
    with 2%Z by reflexivity.
  unfold Common.interpolateEquidistant, ElasticScattering.lgmin.
  destruct (Rle_dec 6 6); [|lra]. simpl. field.
Qed.

Lemma helium_interact (candidate : Candidate) (n : nat) :
  isHelium candidate ->
  isHelium (fst (interact candidate n))
  /\ exists photon,
       Candidate.secondaries (fst (interact candidate n))
       = Candidate.secondaries candidate ++ [photon].
Proof.
  intros [Hc Hz].
  destruct (interact_appends_photon 1 1 nat Scenario.rand Scenario.randBin
              Scenario.randomInterpolatedPosition Scenario.flatScattering candidate n)
    as (E & pos & ->).
  split; [split; assumption|]. eexists; reflexivity.
Qed.

(** Every free path of the scenario has length 1. *)
Lemma helium_pass (fuel : nat) (candidate : Candidate) (step : R) (n : nat) :
  isHelium candidate -> 0 < step ->
  loop (S fuel) candidate step n
  = if Rlt_dec step 1 then Some (candidate, S n)
    else loop fuel (fst (interact candidate (S n))) (step - 1)
           (snd (interact candidate (S n))).
Proof.
  intros H Hs.
  rewrite loop_pass_finite.
  - cbn [Scenario.rand fst snd]. rewrite (helium_rate candidate H), ln_exp.
    replace (- -1 / 1) with 1 by field. reflexivity.
  - exact Hs.
  - cbn [Scenario.rand fst]. apply exp_pos.
  - rewrite (helium_rate candidate H). lra.
Qed.

Lemma helium_is_helium (step : R) : isHelium (Scenario.helium step).
Proof. split; reflexivity. Qed.

Lemma helium_enters_loop (fuel : nat) (step : R) (n : nat) :
  process fuel (Scenario.helium step) n = loop fuel (Scenario.helium step) step n.
Proof.
  apply process_in_range.
  - reflexivity.
  - rewrite (helium_lg _ (helium_is_helium step)).
    unfold ElasticScattering.lgmin, ElasticScattering.lgmax. lra.
Qed.

(** C3, against the specification: with the free path equal to the
    remaining step (both 1) the pass does record an interaction. *)
Lemma interaction_at_equal_free_path :
  - ln (fst (Scenario.rand 0)) / rate (Scenario.helium 1)
  >= Candidate.currentStep (Scenario.helium 1)
  /\ exists candidate' random',
       process 2 (Scenario.helium 1) 0%nat = Some (candidate', random')
       /\ List.length (Candidate.secondaries candidate') = 1%nat.
Proof.
  split.
  - rewrite (helium_rate _ (helium_is_helium 1)). cbn [Scenario.rand fst].
    rewrite ln_exp. simpl. lra.
  - rewrite helium_enters_loop.
    rewrite helium_pass by (try apply helium_is_helium; lra).
    destruct (Rlt_dec 1 1); [lra|].
    rewrite loop_exhausted by lra.
    destruct (helium_interact (Scenario.helium 1) 1 (helium_is_helium 1)) as (_ & photon & Hs).
    eexists; eexists; split; [reflexivity|]. rewrite Hs. reflexivity.
Qed.

(** Two interactions in one step of length 2.5. *)
Lemma two_interactions_in_one_step :
  exists candidate' random',
    process 3 (Scenario.helium 2.5) 0%nat = Some (candidate', random')
    /\ List.length (Candidate.secondaries candidate') = 2%nat.
Proof.
  rewrite helium_enters_loop.
  pose proof (helium_is_helium 2.5) as H0.
  rewrite helium_pass by (try assumption; lra).
  destruct (Rlt_dec 2.5 1); [lra|].
  destruct (helium_interact _ 1 H0) as (H1 & p1 & Hs1).
  rewrite helium_pass by (try assumption; lra).
  destruct (Rlt_dec (2.5 - 1) 1); [lra|].
  destruct (helium_interact _ (S (snd (interact (Scenario.helium 2.5) 1%nat))) H1)
    as (H2 & p2 & Hs2).
  rewrite helium_pass by (try assumption; lra).
  destruct (Rlt_dec (2.5 - 1 - 1) 1); [|lra].
  eexists; eexists; split; [reflexivity|].
  rewrite Hs2, Hs1. reflexivity.
Qed.

Lemma elastic_scattering_pass_witness :
  exists E pos random',
    loop 2 (Scenario.helium 1.5) 1.5 0%nat
    = loop 1 (Candidate.addSecondary (Scenario.helium 1.5) 22 E pos 1 "ES"%string)
        (1.5 - - ln (fst (Scenario.rand 0)) / rate (Scenario.helium 1.5)) random'.
Proof.
  destruct (elastic_scattering_pass 1 1 Scenario.hepIsNucleus Scenario.hepA Scenario.hepZ
              nat Scenario.rand Scenario.randBin Scenario.randomInterpolatedPosition
              Common.interpolateEquidistant Scenario.flatScattering
              1 (Scenario.helium 1.5) 1.5 0%nat) as (_ & _ & _ & _ & Hpass & _).
  destruct Hpass as (E & pos & random' & Heq & _).
  - lra.
  - cbn [Scenario.rand fst]. apply exp_pos.
  - rewrite (helium_rate _ (helium_is_helium 1.5)). lra.
  - rewrite (helium_rate _ (helium_is_helium 1.5)). cbn [Scenario.rand fst].
    rewrite ln_exp. lra.
  - exists E, pos, random'. exact Heq.
Defined.

Lemma elastic_scattering_range_witness :
  process 2 (Scenario.helium 1) 0%nat = loop 2 (Scenario.helium 1) 1 0%nat
  /\ Common.interpolateEquidistant (lg (Scenario.helium 1)) ElasticScattering.lgmin
       ElasticScattering.lgmax [1; 1] = 1
  /\ process 2 Scenario.heliumAtUpperBound 0%nat = loop 2 Scenario.heliumAtUpperBound 1 0%nat
  /\ process 2 Scenario.heliumAtRest 0%nat = Some (Scenario.heliumAtRest, 0%nat).
Proof.
  assert (Hrange := fun candidate =>
            elastic_scattering_range 1 1 Scenario.hepIsNucleus Scenario.hepA
              Scenario.hepZ nat Scenario.rand Scenario.randBin
              Scenario.randomInterpolatedPosition Scenario.flatScattering
              2 candidate 0%nat).
  cbv zeta in Hrange.
  destruct (Hrange (Scenario.helium 1)) as (_ & Hlower & _).
  destruct (Hrange Scenario.heliumAtUpperBound) as (_ & _ & Hupper).
  destruct (Hrange Scenario.heliumAtRest) as (Hout & _).
  destruct Hlower as [Hl1 Hl2];
    [reflexivity|apply helium_lg, helium_is_helium|].
  destruct Hupper as [Hu1 _]; [reflexivity| |].
  { unfold ElasticScattering.lg, ParticleState.getLorentzFactor, Candidate.getRedshift;
      simpl.
    replace ((1 + 99999999999999 / (1 * 1)) * (1 + 0)) with (10 ^ 14) by (simpl; field).
    rewrite log10_pow10. unfold ElasticScattering.lgmax. simpl. ring. }
  repeat split; try assumption.
  apply Hout. left.
  unfold ElasticScattering.lg, ParticleState.getLorentzFactor, Candidate.getRedshift,
    ElasticScattering.log10; simpl.
  replace ((1 + 0 / (1 * 1)) * (1 + 0)) with 1 by field.
  rewrite ln_1. unfold ElasticScattering.lgmin, Rdiv. lra.
Defined.

End Helium.

(** ** MonopoleRadiation *)

Section MonopoleRadiation_facts.

Variables c_light c_squared mu0 : R.
Variable self : MonopoleRadiation.t.

Local Abbreviation process := (MonopoleRadiation.process c_light c_squared mu0 self).

Lemma process_without_charge (candidate : Candidate) :
  ParticleState.mcharge (Candidate.current candidate) = 0 ->
  process candidate = MonopoleRadiation.Done candidate.
Proof.
  intros Hg. unfold MonopoleRadiation.process, ParticleState.getMcharge.
  rewrite Hg, Rabs_R0. destruct (Req_dec_T 0 0); [reflexivity|lra].
Qed.

(** C4, as the code has it: the sampling and thinning of secondary photons
    is switched off in [process].  Whatever [havePhotons], [thinning],
    [maximumSamples] and [secondaryThreshold] are, a call that returns has
    added no secondary, and has changed nothing but the energy, the
    radiated energy of the step and the next step; and the result does not
    depend on these four members. *)
Theorem process_adds_no_secondary (candidate : Candidate) :
  match process candidate with
  | MonopoleRadiation.Done candidate' =>
      Candidate.secondaries candidate' = Candidate.secondaries candidate
      /\ ParticleState.id (Candidate.current candidate')
         = ParticleState.id (Candidate.current candidate)
      /\ ParticleState.position (Candidate.current candidate')
         = ParticleState.position (Candidate.current candidate)
      /\ ParticleState.direction (Candidate.current candidate')
         = ParticleState.direction (Candidate.current candidate)
      /\ ParticleState.pmass (Candidate.current candidate')
         = ParticleState.pmass (Candidate.current candidate)
      /\ ParticleState.charge (Candidate.current candidate')
         = ParticleState.charge (Candidate.current candidate)
      /\ ParticleState.mcharge (Candidate.current candidate')
         = ParticleState.mcharge (Candidate.current candidate)
      /\ Candidate.previous candidate' = Candidate.previous candidate
      /\ Candidate.redshift candidate' = Candidate.redshift candidate
      /\ Candidate.currentStep candidate' = Candidate.currentStep candidate
  | MonopoleRadiation.Thrown => True
  end
  /\ forall havePhotons thinning maximumSamples secondaryThreshold,
       MonopoleRadiation.process c_light c_squared mu0
         (MonopoleRadiation.mk (MonopoleRadiation.field self) (MonopoleRadiation.Brms self)
            havePhotons thinning (MonopoleRadiation.limit self) maximumSamples
            secondaryThreshold (MonopoleRadiation.interactionTag self)) candidate
       = process candidate.
Proof.
  split.
  - unfold MonopoleRadiation.process.
    destruct (Req_dec_T _ 0); [repeat split|].
    destruct (MonopoleRadiation.perpendicularField self candidate _); [|exact I].
    destruct (MonopoleRadiation.havePhotons self); cbn [negb]; repeat split.
  - intros havePhotons thinning maximumSamples secondaryThreshold.
    unfold MonopoleRadiation.process, MonopoleRadiation.perpendicularField; cbn.
    destruct (Req_dec_T _ 0); [reflexivity|].
    destruct (MonopoleRadiation.field self) as [getField|].
    + destruct (getField _ _); [|reflexivity].
      destruct havePhotons, (MonopoleRadiation.havePhotons self); reflexivity.
    + destruct havePhotons, (MonopoleRadiation.havePhotons self); reflexivity.
Qed.

End MonopoleRadiation_facts.

(** The square root of a square. *)
Lemma sqrt_of_square (a b : R) : 0 <= b -> a = b * b -> sqrt a = b.
Proof. intros Hb ->. apply sqrt_square. exact Hb. Qed.

(** The radiation module on the accelerated monopole: the loss of the step
    is 1, the energy drops from 5/2 to 3/2 and the next step is limited to
    1/4. *)
Lemma acceleratedMonopole_loss :
  MonopoleRadiation.process 1 1 (6 * PI) Scenario.thinningRadiation
    Scenario.acceleratedMonopole
  = MonopoleRadiation.Done
      (Candidate.mk
         (ParticleState.mk 4110000 (3 / 2) (Vector3.mk 1 0 0) (Vector3.mk 1 0 0)
            (15 / 4) 0 (27 / 25))
         (Candidate.previous Scenario.acceleratedMonopole) 0 1 (1 / 4) 1 []).
Proof.
  unfold MonopoleRadiation.process, MonopoleRadiation.perpendicularField.
  simpl MonopoleRadiation.field. cbv iota.
  destruct (Req_dec_T _ 0) as [Hz|_].
  { exfalso. simpl in Hz. rewrite Rabs_right in Hz; lra. }
  assert (Hcur : ParticleState.getVelocity 1 1 (Candidate.current Scenario.acceleratedMonopole)
                 = Vector3.mk (4 / 5) 0 0).
  { unfold ParticleState.getVelocity. simpl.
    rewrite (sqrt_of_square _ (4 / 5)); [|lra|field].
    unfold Vector3.scale; simpl. f_equal; field. }
  assert (Hprev : ParticleState.getVelocity 1 1 (Candidate.previous Scenario.acceleratedMonopole)
                  = Vector3.mk (3 / 5) 0 0).
  { unfold ParticleState.getVelocity. simpl.
    rewrite (sqrt_of_square _ (3 / 5)); [|lra|field].
    unfold Vector3.scale; simpl. f_equal; field. }
  rewrite Hcur, Hprev.
  assert (Hg : Rabs (ParticleState.getMcharge (Candidate.current Scenario.acceleratedMonopole))
               = 27 / 25) by (simpl; apply Rabs_right; lra).
  rewrite Hg.
  assert (HdEdx :
    6 * PI / 6 / PI
    * ParticleState.getLorentzFactor 1 (Candidate.current Scenario.acceleratedMonopole) ^ 6
    * (27 / 25 / 1) ^ 2
    * (Vector3.dot
         ((Vector3.mk (4 / 5) 0 0 - Vector3.mk (3 / 5) 0 0)
          / (Candidate.getCurrentStep Scenario.acceleratedMonopole
             / (1 + Candidate.getRedshift Scenario.acceleratedMonopole)))%vec
         ((Vector3.mk (4 / 5) 0 0 - Vector3.mk (3 / 5) 0 0)
          / (Candidate.getCurrentStep Scenario.acceleratedMonopole
             / (1 + Candidate.getRedshift Scenario.acceleratedMonopole)))%vec
       - Vector3.dot
           (Vector3.cross (Vector3.mk (4 / 5) 0 0 / 1)%vec
              ((Vector3.mk (4 / 5) 0 0 - Vector3.mk (3 / 5) 0 0)
               / (Candidate.getCurrentStep Scenario.acceleratedMonopole
                  / (1 + Candidate.getRedshift Scenario.acceleratedMonopole)))%vec)
           (Vector3.cross (Vector3.mk (4 / 5) 0 0 / 1)%vec
              ((Vector3.mk (4 / 5) 0 0 - Vector3.mk (3 / 5) 0 0)
               / (Candidate.getCurrentStep Scenario.acceleratedMonopole
                  / (1 + Candidate.getRedshift Scenario.acceleratedMonopole)))%vec))
    = 1).
  { unfold ParticleState.getLorentzFactor, Vector3.dot, Vector3.cross, Vector3.sub,
      Vector3.div, Candidate.getCurrentStep, Candidate.getRedshift. simpl.
    field. exact PI_neq0. }
  rewrite HdEdx.
  unfold XDouble.div. destruct (Req_dec_T 1 0) as [H|_]; [lra|].
  simpl negb. cbv iota.
  unfold Candidate.limitNextStep, Candidate.setNextStep, Candidate.setCurrent,
    Candidate.setStepRadiation, ParticleState.setEnergy, ParticleState.getEnergy,
    Candidate.getCurrentStep, Candidate.getRedshift, XDouble.min.
  simpl.
  f_equal. f_equal.
  - f_equal. rewrite Rmax_right; lra.
  - rewrite Rmin_left; lra.
  - field.
Qed.

(** The bin that the generator of draws [1/2] finds in the cdf [0, 1]. *)
Lemma lowerBound_half : Scenario.lowerBound [0; 1] (1 / 2 * 1) = 1%nat.
Proof.
  simpl. destruct (Rlt_dec 0 (1 / 2 * 1)); [|lra].
  destruct (Rlt_dec 1 (1 / 2 * 1)); [lra|reflexivity].
Qed.

(** C4, against the specification: photons are requested and the thinning
    exponent is 1.  A step has taken the monopole from the Lorentz factor
    5/4 to 5/3, and [process] records the energy loss 1 of the 5/2 the
    monopole had.  For this step the sampling that the specification
    describes draws one photon of energy 1, the fraction [f = 2/3] of the
    3/2 left to the parent, keeps it (the draw 1/2 is below [f^thinning])
    and enqueues it with the weight [w1 / f^thinning = 3/2]; the call of
    [process] returns with an empty list of secondaries. *)
Lemma thinning_never_reached :
  MonopoleRadiation.havePhotons Scenario.thinningRadiation = true
  /\ 0 < MonopoleRadiation.thinning Scenario.thinningRadiation
  /\ exists candidate',
       MonopoleRadiation.process 1 1 (6 * PI) Scenario.thinningRadiation
         Scenario.acceleratedMonopole
       = MonopoleRadiation.Done candidate'
       /\ Candidate.stepRadiation candidate' = 1
       /\ Candidate.secondaries candidate' = []
       /\ Spec.thinned (MonopoleRadiation.thinning Scenario.thinningRadiation)
            (ParticleState.energy (Candidate.current Scenario.acceleratedMonopole)
             - Candidate.stepRadiation candidate') 1 1 (1 / 2)
          = Some (3 / 2)
       /\ Spec.process nat Scenario.halfRand Scenario.halfRandBin Scenario.halfPosition
            Scenario.thinningRadiation [0; 2] [0; 1] 1 1 1 (6 * PI) 2
            Scenario.acceleratedMonopole 0%nat
          = Some (Candidate.addSecondary candidate' 22 1 (Vector3.mk (1 / 2) 0 0) (3 / 2)
                    "MR"%string, 4%nat).
Proof.
  split; [reflexivity|]. split; [simpl; lra|].
  eexists. split; [exact acceleratedMonopole_loss|].
  split; [reflexivity|]. split; [reflexivity|].
  assert (Hthin : Spec.thinned 1 (5 / 2 - 1) 1 1 (1 / 2) = Some (3 / 2)).
  { unfold Spec.thinned. rewrite Rpower_1 by lra.
    destruct (Rlt_dec (1 / 2) (1 / (5 / 2 - 1))); [|lra]. f_equal. field. }
  split; [exact Hthin|].
  unfold Spec.process. rewrite acceleratedMonopole_loss.
  destruct (Req_dec_T _ 0) as [Hz|_].
  { exfalso. simpl in Hz. rewrite Rabs_right in Hz; lra. }
  simpl negb. cbv iota.
  unfold Spec.photons. simpl MonopoleRadiation.secondaryThreshold.
  destruct (Rlt_dec (14 * 1) 0) as [H|_]; [lra|].
  cbn [Candidate.stepRadiation].
  cbn [Spec.drawPhotons].
  destruct (Rgt_dec 1 0) as [_|H]; [|lra].
  unfold Scenario.halfRandBin, Scenario.halfRand. cbn [last].
  rewrite lowerBound_half. cbn [nth Nat.sub].
  replace ((0 + 1 / 2 * (2 - 0)) * 1) with 1 by field.
  destruct (Rgt_dec 1 1) as [H|_]; [lra|].
  cbn [negb]. simpl MonopoleRadiation.maximumSamples. cbn [Z.ltb Z.compare andb].
  replace (1 - 1) with 0 by ring.
  destruct (Rgt_dec 0 0) as [H|_]; [lra|].
  cbn [andb app].
  unfold Spec.emit. unfold ParticleState.getEnergy.
  cbn [Candidate.current Scenario.acceleratedMonopole ParticleState.energy].
  simpl MonopoleRadiation.thinning. rewrite Hthin.
  unfold Scenario.halfPosition, Scenario.halfRand.
  simpl MonopoleRadiation.secondaryThreshold.
  destruct (Rgt_dec 1 0) as [_|H]; [|lra].
  f_equal. f_equal.
  unfold Candidate.addSecondary. simpl. f_equal. f_equal. f_equal.
  unfold Vector3.add, Vector3.sub, Vector3.scale, Vector3.zero, Vector3.fill. simpl.
  f_equal; field.
Qed.

(** ** The pipeline *)

Lemma rectilinear_advance (pos dir : Vector3d) (h k : R) :
  (pos + dir * h + dir * (k * h))%vec = (pos + dir * ((k + 1) * h))%vec.
Proof. unfold Vector3.add, Vector3.scale; simpl. f_equal; ring. Qed.

Lemma clip_fixed (v h : R) : clip v h h = h.
Proof.
  unfold clip, Rmax, Rmin.
  destruct (Rle_dec v h); destruct (Rle_dec h _); lra.
Qed.

Section ModuleList_facts.

Variables c_light c_squared mu0 eV : R.
Variable Y_of_double : R -> MonopolePropagationBP.Y.
Variable HepPID_isNucleus : Z -> bool.
Variables HepPID_A HepPID_Z : Z -> Z.
Variable Random : Type.
Variable rand : Random -> R * Random.
Variable randBin : list R -> Random -> nat * Random.
Variable randomInterpolatedPosition : Vector3d -> Vector3d -> Random -> Vector3d * Random.
Variable interpolateEquidistant : R -> R -> R -> list R -> R.
Variable propagation : MonopolePropagationBP.t.
Variable scattering : ElasticScattering.t.
Variable radiation : MonopoleRadiation.t.

Local Abbreviation minStep := (MonopolePropagationBP.minStep propagation).
Local Abbreviation maxStep := (MonopolePropagationBP.maxStep propagation).
Local Abbreviation integrator :=
  (MonopolePropagationBP.process c_light c_squared Y_of_double propagation).
Local Abbreviation process :=
  (ModuleList.process c_light c_squared mu0 eV Y_of_double HepPID_isNucleus HepPID_A
     HepPID_Z Random rand randBin randomInterpolatedPosition interpolateEquidistant
     propagation scattering radiation).
Local Abbreviation run :=
  (ModuleList.run c_light c_squared mu0 eV Y_of_double HepPID_isNucleus HepPID_A
     HepPID_Z Random rand randBin randomInterpolatedPosition interpolateEquidistant
     propagation scattering radiation).


(** One iteration of the pipeline on a photon is the rectilinear step of
    the integrator: no interaction module acts. *)
Lemma process_photon (fuel : nat) (candidate : Candidate) (random : Random) :
  HepPID_isNucleus 22 = false ->
  ParticleState.id (Candidate.current candidate) = 22%Z ->
  ParticleState.mcharge (Candidate.current candidate) = 0 ->
  let current := Candidate.current candidate in
  let h := clip (Candidate.nextStep candidate) minStep maxStep in
  process fuel candidate random
  = Some (Candidate.mk
            (ParticleState.setPosition current
               (ParticleState.position current + ParticleState.direction current * h)%vec)
            current (Candidate.redshift candidate) h maxStep
            (Candidate.stepRadiation candidate) (Candidate.secondaries candidate),
          random).
Proof.
  intros Hhep Hid Hg current h. unfold ModuleList.process.
  rewrite (process_rectilinear c_light c_squared Y_of_double propagation fuel candidate Hg).
  cbv zeta. fold current h.
  rewrite process_out_of_range.
  - rewrite process_without_charge; [reflexivity|exact Hg].
  - left. cbn [Candidate.current ParticleState.id ParticleState.setPosition].
    subst current. rewrite Hid. unfold ParticleID.isNucleus. exact Hhep.
Qed.

(** C8: a candidate without magnetic charge is advanced by the integrator
    rectilinearly, by [direction * h] with [h] the next step clipped to
    [minStep .. maxStep], and keeps its direction and energy; a photon run
    through the pipeline in fixed-step mode for [steps] iterations ends at
    [position + direction * (steps * maxStep)] with its direction, energy
    and list of secondaries as they were. *)
Theorem photon_propagates_rectilinearly (steps fuel : nat) (candidate : Candidate)
    (random : Random) :
  let current := Candidate.current candidate in
  let h := clip (Candidate.nextStep candidate) minStep maxStep in
  HepPID_isNucleus 22 = false ->
  ParticleState.id current = 22%Z ->
  ParticleState.mcharge current = 0 ->
  (exists candidate',
     integrator fuel candidate = Some candidate'
     /\ ParticleState.position (Candidate.current candidate')
        = (ParticleState.position current + ParticleState.direction current * h)%vec
     /\ ParticleState.direction (Candidate.current candidate') = ParticleState.direction current
     /\ ParticleState.energy (Candidate.current candidate') = ParticleState.energy current
     /\ Candidate.currentStep candidate' = h)
  /\ (minStep = maxStep ->
      exists candidate',
        run steps fuel candidate random = Some (candidate', random)
        /\ ParticleState.position (Candidate.current candidate')
           = (ParticleState.position current
              + ParticleState.direction current * (INR steps * maxStep))%vec
        /\ ParticleState.direction (Candidate.current candidate')
           = ParticleState.direction current
        /\ ParticleState.energy (Candidate.current candidate') = ParticleState.energy current
        /\ Candidate.secondaries candidate' = Candidate.secondaries candidate).
Proof.
  intros current h Hhep Hid Hg. split.
  - rewrite (process_rectilinear c_light c_squared Y_of_double propagation fuel candidate Hg).
    eexists. split; [reflexivity|]. repeat split.
  - intros Hfixed. subst current h. revert candidate random Hid Hg.
    induction steps as [|steps IH]; intros candidate random Hid Hg.
    + exists candidate. split; [reflexivity|]. repeat split.
      destruct (ParticleState.position (Candidate.current candidate)) as [px py pz].
      unfold Vector3.add, Vector3.scale; simpl. f_equal; ring.
    + cbn [ModuleList.run]. rewrite (process_photon fuel candidate random Hhep Hid Hg).
      cbv zeta. rewrite Hfixed, clip_fixed.
      match goal with
      | |- context [run steps fuel ?c ?r] =>
          destruct (IH c r Hid Hg) as (candidate' & Hrun & Hpos & Hdir & He & Hsec)
      end.
      exists candidate'. split; [exact Hrun|].
      cbn in Hpos, Hdir, He, Hsec. rewrite Hpos, Hdir, He, Hsec.
      repeat split. rewrite S_INR. apply rectilinear_advance.
Qed.

End ModuleList_facts.

Lemma photon_propagates_rectilinearly_witness :
  exists candidate',
    ModuleList.run 1 1 1 1 Scenario.Y_of_double Scenario.hepIsNucleus Scenario.hepA
      Scenario.hepZ nat Scenario.rand Scenario.randBin Scenario.randomInterpolatedPosition
      Common.interpolateEquidistant (Scenario.fixedStepBP None) Scenario.flatScattering
      Scenario.thinningRadiation 10 0 Scenario.photon 0%nat
    = Some (candidate', 0%nat)
    /\ ParticleState.position (Candidate.current candidate') = Vector3.mk 10 0 0
    /\ ParticleState.direction (Candidate.current candidate') = Vector3.mk 1 0 0
    /\ ParticleState.energy (Candidate.current candidate') = 1
    /\ Candidate.secondaries candidate' = [].
Proof.
  destruct (photon_propagates_rectilinearly 1 1 1 1 Scenario.Y_of_double
              Scenario.hepIsNucleus Scenario.hepA Scenario.hepZ nat Scenario.rand
              Scenario.randBin Scenario.randomInterpolatedPosition
              Common.interpolateEquidistant (Scenario.fixedStepBP None)
              Scenario.flatScattering Scenario.thinningRadiation
              10 0 Scenario.photon 0%nat eq_refl eq_refl eq_refl)
    as [_ Hrun].
  destruct (Hrun eq_refl) as (candidate' & H & Hpos & Hdir & He & Hsec).
  exists candidate'. split; [exact H|]. rewrite Hpos, Hdir, He, Hsec.
  repeat split.
  unfold Vector3.add, Vector3.scale; simpl. f_equal; ring.
Defined.

(** * Further properties *)

(** ** Construction of the integrator *)

Section MonopolePropagationBP_construction.

Variable raw : MonopolePropagationBP.t.
Variable field : MagneticField.ref_ptr.

(** The constructors run [setTolerance], [setMaximumStep] and
    [setMinimumStep] in this order on an object with [minStep = 0]. *)
Lemma newFixedStep_throws (fixedStep : R) :
  fixedStep < 0 -> MonopolePropagationBP.newFixedStep raw field fixedStep = None.
Proof.
  intros H. unfold MonopolePropagationBP.newFixedStep, MonopolePropagationBP.setTolerance.
  destruct (Rgt_dec 0.42 1); [lra|]. destruct (Rlt_dec 0.42 0); [lra|].
  cbn. unfold MonopolePropagationBP.setMaximumStep. cbn.
  destruct (Rlt_dec fixedStep 0); [reflexivity|lra].
Qed.

Lemma newAdaptive_builds (tolerance minStep maxStep : R) :
  0 <= tolerance <= 1 -> 0 <= minStep <= maxStep ->
  MonopolePropagationBP.newAdaptive raw field tolerance minStep maxStep
  = Some (MonopolePropagationBP.mk field tolerance minStep maxStep).
Proof.
  intros Ht Hs. unfold MonopolePropagationBP.newAdaptive, MonopolePropagationBP.setTolerance.
  destruct (Rgt_dec tolerance 1); [lra|]. destruct (Rlt_dec tolerance 0); [lra|].
  cbn. unfold MonopolePropagationBP.setMaximumStep. cbn.
  destruct (Rlt_dec maxStep 0); [lra|].
  cbn. unfold MonopolePropagationBP.setMinimumStep. cbn.
  destruct (Rlt_dec minStep 0); [lra|]. destruct (Rgt_dec minStep maxStep); [lra|].
  reflexivity.
Qed.

Lemma newAdaptive_throws (tolerance minStep maxStep : R) :
  tolerance < 0 \/ 1 < tolerance \/ minStep < 0 \/ maxStep < minStep ->
  MonopolePropagationBP.newAdaptive raw field tolerance minStep maxStep = None.
Proof.
  intros H. unfold MonopolePropagationBP.newAdaptive, MonopolePropagationBP.setTolerance.
  destruct (Rgt_dec tolerance 1); [reflexivity|].
  destruct (Rlt_dec tolerance 0); [reflexivity|].
  cbn. unfold MonopolePropagationBP.setMaximumStep. cbn.
  destruct (Rlt_dec maxStep 0); [reflexivity|].
  cbn. unfold MonopolePropagationBP.setMinimumStep. cbn.
  destruct (Rlt_dec minStep 0); [reflexivity|].
  destruct (Rgt_dec minStep maxStep); [reflexivity|]. lra.
Qed.

Lemma newFixedStep_builds (fixedStep : R) :
  0 <= fixedStep ->
  MonopolePropagationBP.newFixedStep raw field fixedStep
  = Some (MonopolePropagationBP.mk field 0.42 fixedStep fixedStep).
Proof.
  intros H. apply (newAdaptive_builds 0.42 fixedStep fixedStep); lra.
Qed.

(** X1: [MonopolePropagationBP(field, fixedStep)] throws for a negative
    step; for any other step it builds the integrator with the tolerance
    0.42 and [minStep = maxStep = fixedStep], whatever the memory of the
    new object held. *)
Theorem fixed_step_constructor (fixedStep : R) :
  (fixedStep < 0 -> MonopolePropagationBP.newFixedStep raw field fixedStep = None)
  /\ (0 <= fixedStep ->
      MonopolePropagationBP.newFixedStep raw field fixedStep
      = Some (MonopolePropagationBP.mk field 0.42 fixedStep fixedStep)).
Proof.
  split; [apply newFixedStep_throws | apply newFixedStep_builds].
Qed.

(** X2: [MonopolePropagationBP(field, tolerance, minStep, maxStep)] builds
    an integrator exactly when [0 <= tolerance <= 1] and
    [0 <= minStep <= maxStep], and then stores the four arguments; in every
    other case it throws. *)
Theorem adaptive_constructor (tolerance minStep maxStep : R) :
  (0 <= tolerance <= 1 /\ 0 <= minStep <= maxStep ->
   MonopolePropagationBP.newAdaptive raw field tolerance minStep maxStep
   = Some (MonopolePropagationBP.mk field tolerance minStep maxStep))
  /\ (tolerance < 0 \/ 1 < tolerance \/ minStep < 0 \/ maxStep < minStep ->
      MonopolePropagationBP.newAdaptive raw field tolerance minStep maxStep = None).
Proof.
  split; [intros [Ht Hs]; apply newAdaptive_builds; assumption | apply newAdaptive_throws].
Qed.

End MonopolePropagationBP_construction.

Section MonopolePropagationBP_setters.

Variable self : MonopolePropagationBP.t.

Local Abbreviation tolerance := MonopolePropagationBP.tolerance.
Local Abbreviation minStep := MonopolePropagationBP.minStep.
Local Abbreviation maxStep := MonopolePropagationBP.maxStep.
Local Abbreviation setTolerance := MonopolePropagationBP.setTolerance.
Local Abbreviation setMinimumStep := MonopolePropagationBP.setMinimumStep.
Local Abbreviation setMaximumStep := MonopolePropagationBP.setMaximumStep.

(** X3: the setters keep the configuration consistent.  From an object with
    [0 <= tolerance <= 1] and [0 <= minStep <= maxStep], a setter either
    throws, exactly for a tolerance outside [0, 1], a minimum step that is
    negative or above [maxStep], or a maximum step below [minStep], or it
    stores the new value, keeps the other members, and returns an object of
    which the same two conditions hold. *)
Theorem setters_keep_step_window (v : R) :
  0 <= tolerance self <= 1 -> 0 <= minStep self <= maxStep self ->
  (match setTolerance self v with
   | None => v < 0 \/ 1 < v
   | Some self' =>
       self' = MonopolePropagationBP.mk (MonopolePropagationBP.field self) v
                 (minStep self) (maxStep self)
       /\ 0 <= tolerance self' <= 1 /\ 0 <= minStep self' <= maxStep self'
   end)
  /\ (match setMinimumStep self v with
      | None => v < 0 \/ maxStep self < v
      | Some self' =>
          self' = MonopolePropagationBP.mk (MonopolePropagationBP.field self)
                    (tolerance self) v (maxStep self)
          /\ 0 <= tolerance self' <= 1 /\ 0 <= minStep self' <= maxStep self'
      end)
  /\ (match setMaximumStep self v with
      | None => v < minStep self
      | Some self' =>
          self' = MonopolePropagationBP.mk (MonopolePropagationBP.field self)
                    (tolerance self) (minStep self) v
          /\ 0 <= tolerance self' <= 1 /\ 0 <= minStep self' <= maxStep self'
      end).
Proof.
  intros Ht Hs.
  unfold MonopolePropagationBP.setTolerance, MonopolePropagationBP.setMinimumStep,
    MonopolePropagationBP.setMaximumStep.
  repeat split;
    repeat match goal with
           | |- context [Rgt_dec ?a ?b] => destruct (Rgt_dec a b)
           | |- context [Rlt_dec ?a ?b] => destruct (Rlt_dec a b)
           end; cbn; try lra; try (repeat split; try reflexivity; lra).
Qed.

(** X4: the order of the two step setters matters.  To move the window
    above the current [maxStep] the maximum has to be raised first, and to
    move it below the current [minStep] the minimum has to be lowered first:
    the other order throws although the requested window is a valid one. *)
Theorem step_window_move (min max : R) :
  0 <= min <= max ->
  (maxStep self < min ->
   minStep self <= maxStep self ->
   setMinimumStep self min = None
   /\ (self' <- setMaximumStep self max ;; setMinimumStep self' min)%throw
      = Some (MonopolePropagationBP.mk (MonopolePropagationBP.field self)
                (tolerance self) min max))
  /\ (max < minStep self ->
      minStep self <= maxStep self ->
      setMaximumStep self max = None
      /\ (self' <- setMinimumStep self min ;; setMaximumStep self' max)%throw
         = Some (MonopolePropagationBP.mk (MonopolePropagationBP.field self)
                   (tolerance self) min max)).
Proof.
  intros Hw. split; intros Hout Hs.
  - unfold MonopolePropagationBP.setMinimumStep, MonopolePropagationBP.setMaximumStep.
    destruct (Rlt_dec min 0); [lra|].
    destruct (Rgt_dec min (maxStep self)); [|lra].
    split; [reflexivity|].
    destruct (Rlt_dec max (minStep self)); [lra|]. cbn.
    destruct (Rlt_dec min 0); [lra|]. destruct (Rgt_dec min max); [lra|]. reflexivity.
  - unfold MonopolePropagationBP.setMinimumStep, MonopolePropagationBP.setMaximumStep.
    destruct (Rlt_dec max (minStep self)); [|lra].
    split; [reflexivity|].
    destruct (Rlt_dec min 0); [lra|].
    destruct (Rgt_dec min (maxStep self)); [lra|]. cbn.
    destruct (Rlt_dec max min); [lra|]. reflexivity.
Qed.

End MonopolePropagationBP_setters.

Lemma setters_keep_step_window_witness :
  MonopolePropagationBP.setTolerance (Scenario.adaptiveBP None) 2 = None
  /\ MonopolePropagationBP.setMinimumStep (Scenario.adaptiveBP None) 2
     = Some (MonopolePropagationBP.mk None 0.5 2 10)
  /\ MonopolePropagationBP.setMaximumStep (Scenario.adaptiveBP None) 2
     = Some (MonopolePropagationBP.mk None 0.5 1 2).
Proof.
  destruct (setters_keep_step_window (Scenario.adaptiveBP None) 2) as (Ht & Hmin & Hmax);
    [simpl; lra|simpl; lra|].
  destruct (MonopolePropagationBP.setTolerance (Scenario.adaptiveBP None) 2);
    [destruct Ht as (-> & Hr & _); simpl in Hr; lra|].
  destruct (MonopolePropagationBP.setMinimumStep (Scenario.adaptiveBP None) 2);
    [|simpl in Hmin; lra].
  destruct (MonopolePropagationBP.setMaximumStep (Scenario.adaptiveBP None) 2);
    [|simpl in Hmax; lra].
  destruct Hmin as [-> _]. destruct Hmax as [-> _]. repeat split.
Defined.

Lemma step_window_move_witness :
  MonopolePropagationBP.setMinimumStep (Scenario.adaptiveBP None) 20 = None
  /\ (self' <- MonopolePropagationBP.setMaximumStep (Scenario.adaptiveBP None) 30 ;;
      MonopolePropagationBP.setMinimumStep self' 20)%throw
     = Some (MonopolePropagationBP.mk None 0.5 20 30).
Proof.
  refine (proj1 (step_window_move (Scenario.adaptiveBP None) 20 30 _) _ _); simpl; lra.
Defined.

Section MonopolePropagationBP_steps.

Variables c_light c_squared : R.
Variable Y_of_double : R -> MonopolePropagationBP.Y.
Variable self : MonopolePropagationBP.t.

Local Abbreviation Y := MonopolePropagationBP.Y.
Local Abbreviation x := MonopolePropagationBP.x.
Local Abbreviation u := MonopolePropagationBP.u.
Local Abbreviation minStep := (MonopolePropagationBP.minStep self).
Local Abbreviation maxStep := (MonopolePropagationBP.maxStep self).
Local Abbreviation tolerance := (MonopolePropagationBP.tolerance self).
Local Abbreviation getFieldAtPosition := (MonopolePropagationBP.getFieldAtPosition self).
Local Abbreviation dY := (MonopolePropagationBP.dY c_squared self).
Local Abbreviation tryStep := (MonopolePropagationBP.tryStep c_squared Y_of_double self).
Local Abbreviation errorRatio := (MonopolePropagationBP.errorRatio c_squared Y_of_double self).
Local Abbreviation stepControl := (MonopolePropagationBP.stepControl self).
Local Abbreviation integrate := (MonopolePropagationBP.integrate c_squared Y_of_double self).
Local Abbreviation applyStep := (MonopolePropagationBP.applyStep self).
Local Abbreviation process := (MonopolePropagationBP.process c_light c_squared Y_of_double self).
Local Abbreviation Accept := MonopolePropagationBP.Accept.

(** The ratio of a length and a positive tolerance. *)
Lemma errorRatio_nonneg (yIn : Y) (h z m g : R) :
  0 < tolerance -> 0 <= errorRatio yIn h z m g.
Proof.
  intros Ht. unfold MonopolePropagationBP.errorRatio.
  apply Rmult_le_pos; [apply getR_nonneg|].
  left. apply Rinv_0_lt_compat. exact Ht.
Qed.

(** The step proposed when an attempt is accepted. *)
Lemma stepControl_Accept_bounds (h r n : R) :
  0 <= r -> 0 <= h <= maxStep ->
  stepControl h h r = Accept h n -> 0.95 * h <= n <= maxStep.
Proof.
  intros Hr Hh. unfold MonopolePropagationBP.stepControl.
  destruct (Rgt_dec r 1) as [Hgt|Hle].
  - destruct (Req_dec_T h minStep); [|discriminate].
    intros H; inversion H; subst. lra.
  - destruct (Req_dec_T h maxStep).
    + intros H; inversion H; subst. lra.
    + intros H; inversion H; subst n; clear H.
      unfold XDouble.pow. destruct (Req_dec_T r 0) as [Hz|Hnz]; cbn.
      * unfold Rmin. destruct (Rle_dec (5 * h) maxStep); lra.
      * assert (Hp : 1 <= Rpower r (-0.2)) by (apply Rpower_grows; lra).
        set (p := Rpower r (-0.2)) in *.
        unfold Rmin.
        destruct (Rle_dec (h * 0.95 * p) (5 * h));
          destruct (Rle_dec _ maxStep); nra.
Qed.

(** The two ways in which [process] returns: the rectilinear branch, or the
    write-back of an accepted step of the integrator. *)
Lemma process_result (fuel : nat) (candidate candidate' : Candidate) :
  process fuel candidate = Some candidate' ->
  let current := Candidate.current candidate in
  let g := ParticleState.mcharge current in
  let z := Candidate.redshift candidate in
  let m := ParticleState.energy current / (c_light * c_light) in
  let yIn :=
    MonopolePropagationBP.mkY (ParticleState.position current)
      (ParticleState.direction current) in
  (g = 0
   /\ candidate'
      = MonopolePropagationBP.rectilinear self (Candidate.setPrevious candidate current) yIn)
  \/ (g <> 0
      /\ exists yOut step newStep,
           integrate fuel (Candidate.setPrevious candidate current) yIn z m g
           = Some (yOut, step, newStep)
           /\ candidate'
              = applyStep (Candidate.setPrevious candidate current) g z yOut step newStep).
Proof.
  intros Hp. cbv zeta. unfold MonopolePropagationBP.process in Hp.
  destruct (Req_dec_T _ 0) as [Hz|Hnz].
  - left. split; [exact Hz|]. inversion Hp; reflexivity.
  - right. split; [exact Hnz|].
    unfold Candidate.getRedshift, ParticleState.getEnergy, ParticleState.getMcharge,
      ParticleState.getPosition, ParticleState.getDirection in *.
    cbn [Candidate.redshift Candidate.setPrevious] in Hp.
    destruct (MonopolePropagationBP.integrate _ _ _ _ _ _ _ _ _)
      as [[[yOut step] newStep]|] eqn:Hi; [|discriminate].
    exists yOut, step, newStep. split; [reflexivity|congruence].
Qed.

(** The step taken and the step proposed by the integrator. *)
Lemma integrate_window (fuel : nat) (candidate : Candidate) (yIn : Y) (z m g : R)
    (yOut : Y) (h n : R) :
  0 < tolerance -> 0 < minStep <= maxStep ->
  integrate fuel candidate yIn z m g = Some (yOut, h, n) ->
  minStep <= h <= maxStep /\ 0.95 * minStep <= n <= maxStep.
Proof.
  intros Ht [Hmin Hle]. unfold MonopolePropagationBP.integrate.
  destruct (Req_dec_T minStep maxStep) as [Heq|Hne].
  - intros H; inversion H; subst. lra.
  - intros H.
    pose proof (clip_bounds (Candidate.getNextStep candidate) minStep maxStep Hle) as Hc.
    apply (adaptiveLoop_result c_squared Y_of_double self) in H; [|lra|lra].
    destruct H as [Hh Hs].
    apply stepControl_Accept_bounds in Hs.
    + split; [lra|]. nra.
    + apply errorRatio_nonneg; exact Ht.
    + lra.
Qed.

(** X5: the step window.  With a positive tolerance and
    [0 < minStep <= maxStep], [process] returns for every candidate, charged
    or not, and in both modes the step it has taken lies between [minStep]
    and [maxStep], while the step it proposes is at most [maxStep] and at
    least [0.95 * minStep].  For a magnetically charged candidate in the
    adaptive mode this needs an energy and units that are not zero: the
    push divides by [m = E / c_light^2] and by [c_squared], and with a
    zero divisor the program's error ratio, and with it the step it
    proposes, is not a number. *)
Theorem process_step_window (candidate : Candidate) :
  0 < tolerance -> 0 < minStep <= maxStep ->
  (ParticleState.mcharge (Candidate.current candidate) = 0
   \/ minStep = maxStep
   \/ (ParticleState.energy (Candidate.current candidate) <> 0
       /\ c_light <> 0 /\ c_squared <> 0)) ->
  (exists fuel candidate', process fuel candidate = Some candidate')
  /\ (forall fuel candidate',
        process fuel candidate = Some candidate' ->
        minStep <= Candidate.currentStep candidate' <= maxStep
        /\ 0.95 * minStep <= Candidate.nextStep candidate' <= maxStep).
Proof.
  intros Ht Hs _. split; [apply process_total; exact Hs|].
  intros fuel candidate' Hp.
  destruct (process_result _ _ _ Hp) as [[_ ->]|[_ (yOut & h & n & Hi & ->)]].
  - unfold MonopolePropagationBP.rectilinear. cbn.
    pose proof (clip_bounds (Candidate.nextStep candidate) minStep maxStep (proj2 Hs)).
    unfold Candidate.getNextStep. cbn. lra.
  - apply integrate_window in Hi; [|assumption..].
    unfold MonopolePropagationBP.applyStep. cbn. exact Hi.
Qed.

(** X6: what the integrator leaves alone.  [process] stores the state it
    found as the previous state and changes nothing of the candidate but the
    position, direction and energy of the current state and the two steps:
    the id, the mass and both charges, the redshift, the radiated energy and
    the secondaries are the ones it found. *)
Theorem process_frame (fuel : nat) (candidate : Candidate) :
  match process fuel candidate with
  | Some candidate' =>
      Candidate.previous candidate' = Candidate.current candidate
      /\ ParticleState.id (Candidate.current candidate')
         = ParticleState.id (Candidate.current candidate)
      /\ ParticleState.pmass (Candidate.current candidate')
         = ParticleState.pmass (Candidate.current candidate)
      /\ ParticleState.charge (Candidate.current candidate')
         = ParticleState.charge (Candidate.current candidate)
      /\ ParticleState.mcharge (Candidate.current candidate')
         = ParticleState.mcharge (Candidate.current candidate)
      /\ Candidate.redshift candidate' = Candidate.redshift candidate
      /\ Candidate.stepRadiation candidate' = Candidate.stepRadiation candidate
      /\ Candidate.secondaries candidate' = Candidate.secondaries candidate
  | None => True
  end.
Proof.
  destruct (process fuel candidate) as [candidate'|] eqn:Hp; [|exact I].
  destruct (process_result _ _ _ Hp) as [[_ ->]|[_ (yOut & h & n & _ & ->)]];
    repeat split.
Qed.

End MonopolePropagationBP_steps.

Lemma process_step_window_witness :
  exists fuel candidate',
    MonopolePropagationBP.process 1 1 Scenario.Y_of_double Scenario.slabBP fuel
      Scenario.monopoleNextStep2 = Some candidate'
    /\ 1 <= Candidate.currentStep candidate' <= 10
    /\ 0.95 * 1 <= Candidate.nextStep candidate' <= 10.
Proof.
  destruct (process_step_window 1 1 Scenario.Y_of_double Scenario.slabBP
              Scenario.monopoleNextStep2) as [(fuel & candidate' & Hp) Hw];
    [simpl; lra|simpl; lra|right; right; simpl; repeat split; lra|].
  exists fuel, candidate'. split; [exact Hp|]. exact (Hw fuel candidate' Hp).
Defined.

Section Fixed_step_integrator.

Variables c_light c_squared : R.
Variable Y_of_double : R -> MonopolePropagationBP.Y.

(** X7: the fixed-step integrator never adapts.  The object that
    [MonopolePropagationBP(field, fixedStep)] builds for a step that is not
    negative returns from [process] for every candidate without entering the
    step-size loop: the step taken and the step proposed are both
    [fixedStep], for charged and for neutral candidates. *)
Theorem fixed_step_integrator (raw : MonopolePropagationBP.t)
    (field : MagneticField.ref_ptr) (fixedStep : R) (fuel : nat) (candidate : Candidate) :
  0 <= fixedStep ->
  exists self candidate',
    MonopolePropagationBP.newFixedStep raw field fixedStep = Some self
    /\ MonopolePropagationBP.process c_light c_squared Y_of_double self fuel candidate
       = Some candidate'
    /\ Candidate.currentStep candidate' = fixedStep
    /\ Candidate.nextStep candidate' = fixedStep
    /\ Candidate.previous candidate' = Candidate.current candidate.
Proof.
  intros Hh. eexists. 
  destruct (Req_dec_T (ParticleState.mcharge (Candidate.current candidate)) 0) as [Hz|Hnz].
  - eexists. split; [apply newFixedStep_builds; exact Hh|].
    rewrite process_rectilinear by exact Hz. split; [reflexivity|].
    cbn. rewrite clip_fixed. repeat split.
  - eexists. split; [apply newFixedStep_builds; exact Hh|].
    rewrite process_fixed_step by (try reflexivity; exact Hnz).
    split; [reflexivity|]. repeat split.
Qed.

End Fixed_step_integrator.

Lemma fixed_step_integrator_witness :
  exists self candidate',
    MonopolePropagationBP.newFixedStep (Scenario.adaptiveBP None) Scenario.uniformField 1
    = Some self
    /\ MonopolePropagationBP.process 1 1 Scenario.Y_of_double self 0 Scenario.monopole
       = Some candidate'
    /\ Candidate.currentStep candidate' = 1
    /\ Candidate.nextStep candidate' = 1
    /\ Candidate.previous candidate' = Scenario.monopoleState.
Proof.
  apply (fixed_step_integrator 1 1 Scenario.Y_of_double (Scenario.adaptiveBP None)
           Scenario.uniformField 1 0 Scenario.monopole).
  lra.
Defined.

Section MonopolePropagationBP_fields.

Variables c_light c_squared : R.
Variable Y_of_double : R -> MonopolePropagationBP.Y.
Variable self : MonopolePropagationBP.t.

Local Abbreviation Y := MonopolePropagationBP.Y.
Local Abbreviation x := MonopolePropagationBP.x.
Local Abbreviation u := MonopolePropagationBP.u.
Local Abbreviation minStep := (MonopolePropagationBP.minStep self).
Local Abbreviation maxStep := (MonopolePropagationBP.maxStep self).
Local Abbreviation tolerance := (MonopolePropagationBP.tolerance self).
Local Abbreviation getFieldAtPosition := (MonopolePropagationBP.getFieldAtPosition self).
Local Abbreviation dY := (MonopolePropagationBP.dY c_squared self).
Local Abbreviation tryStep := (MonopolePropagationBP.tryStep c_squared Y_of_double self).
Local Abbreviation process := (MonopolePropagationBP.process c_light c_squared Y_of_double self).

(** Half a step forward and half a step back along the same vector. *)
Lemma half_step_back (a d : Vector3d) (s : R) :
  (a + d * s / 2 + d * - s / 2)%vec = a.
Proof.
  destruct a, d. unfold Vector3.add, Vector3.scale, Vector3.div; simpl.
  f_equal; field.
Qed.

(** X8: the push is reversible.  In exact arithmetic one step of [dY] from
    the phase point it returns, with the step negated, leads back to the
    phase point it started from, in every field: the field is sampled at the
    same midpoint on the way out and on the way back. *)
Theorem dY_reversible (y : Y) (h z g m : R) :
  m <> 0 -> c_squared <> 0 ->
  let out := dY (x y) (u y) h z g m in
  dY (x out) (u out) (- h) z g m = y.
Proof.
  intros Hm Hc. cbv zeta. unfold MonopolePropagationBP.dY at 1.
  cbn [MonopolePropagationBP.dY MonopolePropagationBP.x MonopolePropagationBP.u].
  rewrite half_step_back.
  destruct (getFieldAtPosition (x y + u y * h / 2)%vec z) as [bx by_ bz].
  destruct y as [[px py pz] [ux uy uz]].
  unfold Vector3.add, Vector3.scale, Vector3.div, Vector3.lscale; simpl.
  f_equal; f_equal; field; split; assumption.
Qed.

(** [dY] where the field is the same everywhere. *)
Lemma dY_uniform (B pos dir : Vector3d) (h z g m : R) :
  (forall pos' z', getFieldAtPosition pos' z' = B) ->
  dY pos dir h z g m
  = MonopolePropagationBP.mkY
      (pos + dir * h / 2 + (dir + Vector3.lscale g B * h / m / c_squared) * h / 2)%vec
      (dir + Vector3.lscale g B * h / m / c_squared)%vec.
Proof.
  intros HB. unfold MonopolePropagationBP.dY. rewrite HB. reflexivity.
Qed.

Lemma sub_self (v : Vector3d) : (v - v)%vec = Vector3.zero.
Proof.
  destruct v. unfold Vector3.sub, Vector3.zero, Vector3.fill; simpl. f_equal; ring.
Qed.

(** Two half steps and one full step agree in a uniform field. *)
Lemma tryStep_uniform (B : Vector3d) (y : Y) (h z m g : R) :
  (forall pos z', getFieldAtPosition pos z' = B) ->
  m <> 0 -> c_squared <> 0 ->
  let half := dY (x y) (u y) (h / 2) z g m in
  dY (x half) (u half) (h / 2) z g m = dY (x y) (u y) h z g m
  /\ snd (tryStep y h z m g) = Y_of_double 0.
Proof.
  intros HB Hm Hc. cbv zeta.
  assert (Heq : dY (x (dY (x y) (u y) (h / 2) z g m)) (u (dY (x y) (u y) (h / 2) z g m))
                  (h / 2) z g m
                = dY (x y) (u y) h z g m).
  { rewrite !(dY_uniform B) by exact HB.
    cbn [MonopolePropagationBP.x MonopolePropagationBP.u].
    destruct B as [bx by_ bz]. destruct y as [[px py pz] [ux uy uz]].
    unfold Vector3.add, Vector3.scale, Vector3.div, Vector3.lscale; simpl.
    f_equal; f_equal; field; split; assumption. }
  split; [exact Heq|].
  unfold MonopolePropagationBP.tryStep. cbn [snd]. rewrite Heq.
  unfold MonopolePropagationBP.errorEstimation.
  rewrite sub_self, getR_zero. f_equal. unfold Rdiv; ring.
Qed.

(** X9: the push is exact in a uniform field.  Where the sampled field is
    the same everywhere, one step of length [h] and two steps of length
    [h / 2] reach the same phase point, so the error estimate of [tryStep]
    is [Y(0)]; the point reached is the one of a uniformly accelerated
    motion. *)
Theorem uniform_field_exact (B : Vector3d) (y : Y) (h z m g : R) :
  (forall pos z', getFieldAtPosition pos z' = B) ->
  m <> 0 -> c_squared <> 0 -> h <> 0 ->
  let out := fst (tryStep y h z m g) in
  let half := dY (x y) (u y) (h / 2) z g m in
  dY (x half) (u half) (h / 2) z g m = out
  /\ snd (tryStep y h z m g) = Y_of_double 0
  /\ u out = (u y + Vector3.lscale g B * (h / (m * c_squared)))%vec
  /\ x out = (x y + u y * h + Vector3.lscale g B * (h * h / (2 * m * c_squared)))%vec.
Proof.
  intros HB Hm Hc Hh. cbv zeta.
  destruct (tryStep_uniform B y h z m g HB Hm Hc) as [Heq Herr].
  split; [exact Heq|]. split; [exact Herr|].
  unfold MonopolePropagationBP.tryStep. cbn [fst].
  rewrite (dY_uniform B) by exact HB.
  cbn [MonopolePropagationBP.x MonopolePropagationBP.u].
  destruct B as [bx by_ bz]. destruct y as [[px py pz] [ux uy uz]].
  unfold Vector3.add, Vector3.scale, Vector3.div, Vector3.lscale; simpl.
  split; f_equal; field; split; assumption.
Qed.

End MonopolePropagationBP_fields.

Lemma dY_reversible_witness :
  let y := MonopolePropagationBP.mkY Vector3.zero (Vector3.mk 1 0 0) in
  let out := MonopolePropagationBP.dY 1 Scenario.slabBP
               (MonopolePropagationBP.x y) (MonopolePropagationBP.u y) 2 0 1 1 in
  MonopolePropagationBP.dY 1 Scenario.slabBP
    (MonopolePropagationBP.x out) (MonopolePropagationBP.u out) (- 2) 0 1 1 = y.
Proof.
  apply (dY_reversible 1 Scenario.slabBP
           (MonopolePropagationBP.mkY Vector3.zero (Vector3.mk 1 0 0)) 2 0 1 1); lra.
Defined.

Lemma uniform_field_exact_witness :
  let self := Scenario.adaptiveBP Scenario.uniformField in
  let y := MonopolePropagationBP.mkY Vector3.zero (Vector3.mk 0 1 0) in
  let tried := MonopolePropagationBP.tryStep 1 Scenario.Y_of_double self y 2 0 1 1 in
  snd tried = Scenario.Y_of_double 0
  /\ MonopolePropagationBP.u (fst tried)
     = (Vector3.mk 0 1 0 + Vector3.lscale 1 (Vector3.mk 1 0 0) * (2 / (1 * 1)))%vec
  /\ MonopolePropagationBP.x (fst tried)
     = (Vector3.zero + Vector3.mk 0 1 0 * 2
        + Vector3.lscale 1 (Vector3.mk 1 0 0) * (2 * 2 / (2 * 1 * 1)))%vec.
Proof.
  refine (proj2 (uniform_field_exact 1 Scenario.Y_of_double
                   (Scenario.adaptiveBP Scenario.uniformField) (Vector3.mk 1 0 0)
                   (MonopolePropagationBP.mkY Vector3.zero (Vector3.mk 0 1 0))
                   2 0 1 1 _ _ _ _)); try lra.
  intros pos z'. reflexivity.
Defined.

Section MonopolePropagationBP_no_field.

Variables c_light c_squared : R.
Variable Y_of_double : R -> MonopolePropagationBP.Y.
Variable self : MonopolePropagationBP.t.

Local Abbreviation Y := MonopolePropagationBP.Y.
Local Abbreviation x := MonopolePropagationBP.x.
Local Abbreviation u := MonopolePropagationBP.u.
Local Abbreviation minStep := (MonopolePropagationBP.minStep self).
Local Abbreviation maxStep := (MonopolePropagationBP.maxStep self).
Local Abbreviation tolerance := (MonopolePropagationBP.tolerance self).
Local Abbreviation getFieldAtPosition := (MonopolePropagationBP.getFieldAtPosition self).
Local Abbreviation dY := (MonopolePropagationBP.dY c_squared self).
Local Abbreviation tryStep := (MonopolePropagationBP.tryStep c_squared Y_of_double self).
Local Abbreviation process := (MonopolePropagationBP.process c_light c_squared Y_of_double self).

Lemma div_one (v : Vector3d) : (v / 1)%vec = v.
Proof. destruct v. unfold Vector3.div; simpl. f_equal; field. Qed.

(** The write-back of a step where there is no field: the energy and a unit
    direction are kept. *)
Lemma applyStep_no_field (candidate : Candidate) (g z : R) (pos dir : Vector3d)
    (step newStep : R) :
  (forall pos' z', getFieldAtPosition pos' z' = Vector3.zero) ->
  Vector3.getR dir = 1 ->
  0 <= ParticleState.energy (Candidate.current candidate) ->
  Candidate.current
    (MonopolePropagationBP.applyStep self candidate g z
       (MonopolePropagationBP.mkY pos dir) step newStep)
  = ParticleState.setDirection
      (ParticleState.setPosition (Candidate.current candidate) pos) dir.
Proof.
  intros HB Hdir HE. unfold MonopolePropagationBP.applyStep.
  cbn [MonopolePropagationBP.x MonopolePropagationBP.u Candidate.current
       Candidate.setNextStep Candidate.setCurrentStep Candidate.setCurrent].
  rewrite HB, dot_zero_l.
  unfold Vector3.getUnitVector. rewrite Hdir, div_one.
  unfold ParticleState.setEnergy, ParticleState.getEnergy, ParticleState.setDirection,
    ParticleState.setPosition. cbn.
  rewrite Hdir, Rmax_right by lra. f_equal. ring.
Qed.

(** The step taken is never below [minStep]. *)
Lemma integrate_step_lower (fuel : nat) (candidate : Candidate)
    (yIn : MonopolePropagationBP.Y) (z m g : R) (yOut : MonopolePropagationBP.Y)
    (h n : R) :
  0 < minStep <= maxStep ->
  MonopolePropagationBP.integrate c_squared Y_of_double self fuel candidate yIn z m g
  = Some (yOut, h, n) ->
  minStep <= h.
Proof.
  intros [Hmin Hle]. unfold MonopolePropagationBP.integrate.
  destruct (Req_dec_T minStep maxStep) as [Heq|Hne].
  - intros H; inversion H; subst. lra.
  - intros H.
    pose proof (clip_bounds (Candidate.getNextStep candidate) minStep maxStep Hle) as Hc.
    apply (adaptiveLoop_result c_squared Y_of_double self) in H; [lra|lra|lra].
Qed.

(** The candidate that [process] returns where there is no field. *)
Lemma process_no_field (fuel : nat) (candidate candidate' : Candidate) :
  let current := Candidate.current candidate in
  (forall pos z', getFieldAtPosition pos z' = Vector3.zero) ->
  ParticleState.mcharge current <> 0 ->
  0 < ParticleState.energy current -> c_light <> 0 -> c_squared <> 0 ->
  Vector3.getR (ParticleState.direction current) = 1 ->
  0 < minStep <= maxStep ->
  process fuel candidate = Some candidate' ->
  Candidate.current candidate'
  = ParticleState.setPosition current
      (ParticleState.position current
       + ParticleState.direction current * Candidate.currentStep candidate')%vec
  /\ Candidate.previous candidate' = current
  /\ Candidate.redshift candidate' = Candidate.redshift candidate
  /\ minStep <= Candidate.currentStep candidate'.
Proof.
  intros current HB Hg HE Hc Hc2 Hdir Hs Hp.
  destruct (process_result _ _ _ _ _ _ _ Hp) as [[Hz _]|[_ (yOut & h & n & Hi & ->)]];
    [contradiction|].
  pose proof (integrate_step_lower _ _ _ _ _ _ _ _ _ Hs Hi) as Hh.
  apply integrate_yOut in Hi. subst yOut.
  cbn [MonopolePropagationBP.x MonopolePropagationBP.u].
  fold current.
  set (m := ParticleState.energy current / (c_light * c_light)).
  assert (Hm : m <> 0).
  { unfold m. apply Rmult_integral_contrapositive_currified; [lra|].
    apply Rinv_neq_0_compat. apply Rmult_integral_contrapositive_currified; assumption. }
  assert (HdY : dY (ParticleState.position current) (ParticleState.direction current) h
                  (Candidate.redshift candidate) (ParticleState.mcharge current) m
                = MonopolePropagationBP.mkY
                    (ParticleState.position current + ParticleState.direction current * h)%vec
                    (ParticleState.direction current)).
  { rewrite (dY_uniform c_squared self Vector3.zero) by exact HB.
    destruct (ParticleState.position current) as [px py pz].
    destruct (ParticleState.direction current) as [ux uy uz].
    unfold Vector3.add, Vector3.scale, Vector3.div, Vector3.lscale, Vector3.zero,
      Vector3.fill; simpl.
    f_equal; f_equal; field; split; assumption. }
  rewrite HdY.
  assert (Hcs : Candidate.currentStep
                  (MonopolePropagationBP.applyStep self
                     (Candidate.setPrevious candidate current)
                     (ParticleState.mcharge current) (Candidate.redshift candidate)
                     (MonopolePropagationBP.mkY
                        (ParticleState.position current
                         + ParticleState.direction current * h)%vec
                        (ParticleState.direction current)) h n) = h) by reflexivity.
  rewrite Hcs.
  rewrite applyStep_no_field; [|exact HB|exact Hdir|cbn; fold current; lra].
  unfold ParticleState.setDirection, ParticleState.setPosition. cbn.
  fold current. rewrite Hdir, div_one. repeat split. exact Hh.
Qed.

(** X10: without a field a monopole flies straight.  Where the field
    reference is null, its sampler throws or the field vanishes, so that
    [getFieldAtPosition] is zero everywhere, [process] moves a magnetically
    charged candidate with a unit direction by the step it has taken along
    that direction and changes neither the direction nor the energy, in the
    fixed-step and in the adaptive mode. *)
Theorem no_field_straight_line (candidate : Candidate) :
  let current := Candidate.current candidate in
  (forall pos z', getFieldAtPosition pos z' = Vector3.zero) ->
  ParticleState.mcharge current <> 0 ->
  0 < ParticleState.energy current -> c_light <> 0 -> c_squared <> 0 ->
  Vector3.getR (ParticleState.direction current) = 1 ->
  0 < minStep <= maxStep ->
  (exists fuel candidate', process fuel candidate = Some candidate')
  /\ (forall fuel candidate',
        process fuel candidate = Some candidate' ->
        ParticleState.position (Candidate.current candidate')
        = (ParticleState.position current
           + ParticleState.direction current * Candidate.currentStep candidate')%vec
        /\ ParticleState.direction (Candidate.current candidate')
           = ParticleState.direction current
        /\ ParticleState.energy (Candidate.current candidate')
           = ParticleState.energy current).
Proof.
  intros current HB Hg HE Hc Hc2 Hdir Hs.
  split; [apply process_total; exact Hs|].
  intros fuel candidate' Hp.
  destruct (process_no_field fuel candidate candidate' HB Hg HE Hc Hc2 Hdir Hs Hp)
    as (-> & _).
  repeat split.
Qed.

End MonopolePropagationBP_no_field.

Section MonopolePropagationBP_uniform.

Variables c_light c_squared : R.
Variable self : MonopolePropagationBP.t.

Local Abbreviation minStep := (MonopolePropagationBP.minStep self).
Local Abbreviation maxStep := (MonopolePropagationBP.maxStep self).
Local Abbreviation tolerance := (MonopolePropagationBP.tolerance self).
Local Abbreviation getFieldAtPosition := (MonopolePropagationBP.getFieldAtPosition self).
Local Abbreviation process :=
  (MonopolePropagationBP.process c_light c_squared Scenario.Y_of_double self).

(** With upstream's [Y(double)] the error ratio of a step in a uniform
    field is zero. *)
Lemma errorRatio_uniform (B : Vector3d) (yIn : MonopolePropagationBP.Y) (h z m g : R) :
  (forall pos z', getFieldAtPosition pos z' = B) ->
  m <> 0 -> c_squared <> 0 ->
  MonopolePropagationBP.errorRatio c_squared Scenario.Y_of_double self yIn h z m g = 0.
Proof.
  intros HB Hm Hc. unfold MonopolePropagationBP.errorRatio.
  destruct (tryStep_uniform c_squared Scenario.Y_of_double self B yIn h z m g HB Hm Hc)
    as [_ ->].
  cbn [Scenario.Y_of_double MonopolePropagationBP.u]. fold Vector3.zero.
  rewrite getR_zero. unfold Rdiv; ring.
Qed.

(** X11: in a uniform field the first attempt is accepted.  With the
    converting constructor of upstream CRPropa, a positive tolerance and
    [0 < minStep <= maxStep], one pass of the loop is enough for a charged
    candidate: the step taken is the proposed one clipped to the window, its
    error estimate is zero, and the step proposed next is five times as
    long, capped by [maxStep]. *)
Theorem uniform_field_first_attempt (B : Vector3d) (fuel : nat) (candidate : Candidate) :
  let current := Candidate.current candidate in
  let h := clip (Candidate.nextStep candidate) minStep maxStep in
  (forall pos z', getFieldAtPosition pos z' = B) ->
  ParticleState.mcharge current <> 0 ->
  ParticleState.energy current / (c_light * c_light) <> 0 -> c_squared <> 0 ->
  0 < tolerance -> 0 < minStep <= maxStep ->
  exists candidate',
    process (S fuel) candidate = Some candidate'
    /\ Candidate.currentStep candidate' = h
    /\ Candidate.nextStep candidate' = Rmin (5 * h) maxStep.
Proof.
  intros current h HB Hg Hm Hc Ht Hs.
  pose proof (clip_bounds (Candidate.nextStep candidate) minStep maxStep (proj2 Hs)) as Hh.
  fold h in Hh.
  unfold MonopolePropagationBP.process, MonopolePropagationBP.integrate.
  destruct (Req_dec_T _ 0) as [Hz|_]; [exfalso; apply Hg; exact Hz|].
  destruct (Req_dec_T minStep maxStep) as [Heq|Hne].
  - eexists. split; [reflexivity|]. cbn.
    assert (Hh' : h = maxStep) by lra.
    rewrite Hh'. split; [reflexivity|]. rewrite Rmin_right; lra.
  - cbn [MonopolePropagationBP.adaptiveLoop].
    unfold Candidate.getNextStep, ParticleState.getEnergy, ParticleState.getMcharge,
      ParticleState.getPosition, ParticleState.getDirection, Candidate.getRedshift.
    cbn [Candidate.nextStep Candidate.setPrevious Candidate.redshift].
    fold current. fold h.
    rewrite (errorRatio_uniform B) by assumption.
    destruct (Req_dec_T h maxStep) as [Hmax|Hnmax].
    + rewrite stepControl_at_maxStep by (lra || assumption).
      eexists. split; [reflexivity|]. cbn. split; [reflexivity|].
      rewrite Rmin_right; lra.
    + rewrite stepControl_grow_zero_error by assumption.
      eexists. split; [reflexivity|]. cbn. split; reflexivity.
Qed.

End MonopolePropagationBP_uniform.

Lemma no_field_straight_line_witness :
  exists fuel candidate',
    MonopolePropagationBP.process 1 1 Scenario.Y_of_double
      (Scenario.adaptiveBP Scenario.brokenField) fuel Scenario.monopole = Some candidate'
    /\ ParticleState.position (Candidate.current candidate')
       = (Vector3.zero + Vector3.mk 1 0 0 * Candidate.currentStep candidate')%vec
    /\ ParticleState.direction (Candidate.current candidate') = Vector3.mk 1 0 0
    /\ ParticleState.energy (Candidate.current candidate') = 1.
Proof.
  destruct (no_field_straight_line 1 1 Scenario.Y_of_double
              (Scenario.adaptiveBP Scenario.brokenField) Scenario.monopole)
    as [(fuel & candidate' & Hp) Hline];
    try (simpl; lra).
  - intros pos z'. reflexivity.
  - simpl. apply getR_axis. lra.
  - exists fuel, candidate'. split; [exact Hp|]. exact (Hline fuel candidate' Hp).
Defined.

Lemma uniform_field_first_attempt_witness :
  exists candidate',
    MonopolePropagationBP.process 1 1 Scenario.Y_of_double
      (Scenario.adaptiveBP Scenario.uniformField) 1 Scenario.monopoleNextStep2
    = Some candidate'
    /\ Candidate.currentStep candidate' = clip 2 1 10
    /\ Candidate.nextStep candidate' = Rmin (5 * clip 2 1 10) 10.
Proof.
  apply (uniform_field_first_attempt 1 1 (Scenario.adaptiveBP Scenario.uniformField)
           (Vector3.mk 1 0 0) 0 Scenario.monopoleNextStep2); try (simpl; lra).
  intros pos z'. reflexivity.
Defined.

(** ** Particle states *)

(** The length of a rescaled vector. *)
Lemma getR_scale (v : Vector3d) (k : R) :
  Vector3.getR (v * k)%vec = Rabs k * Vector3.getR v.
Proof.
  destruct v as [a b c]. unfold Vector3.getR, Vector3.scale; simpl.
  replace (a * k * (a * k) + b * k * (b * k) + c * k * (c * k))
    with (Rsqr k * (a * a + b * b + c * c)) by (unfold Rsqr; ring).
  rewrite sqrt_mult; [|apply Rle_0_sqr|apply norm2_nonneg].
  rewrite sqrt_Rsqr_abs. reflexivity.
Qed.

Lemma div_as_scale (v : Vector3d) (f : R) : (v / f)%vec = (v * / f)%vec.
Proof. destruct v. reflexivity. Qed.

Section ParticleState_kinematics.

Variables c_light c_squared : R.

Local Abbreviation getLorentzFactor := (ParticleState.getLorentzFactor c_squared).
Local Abbreviation setLorentzFactor := (ParticleState.setLorentzFactor c_squared).
Local Abbreviation getVelocity := (ParticleState.getVelocity c_light c_squared).
Local Abbreviation getMomentum := (ParticleState.getMomentum c_light c_squared).

(** X12: the Lorentz factor round trip.  For a particle with non-zero rest
    energy, [getLorentzFactor] after [setLorentzFactor(lf)] returns [lf]
    clamped at zero, [setLorentzFactor(getLorentzFactor())] restores the
    state whenever the factor read is not negative, and after [setEnergy]
    the factor is at least 1 for a positive rest energy. *)
Theorem lorentz_factor_round_trip (p : ParticleState) (lf E : R) :
  ParticleState.pmass p <> 0 -> c_squared <> 0 ->
  getLorentzFactor (setLorentzFactor p lf) = Rmax 0 lf
  /\ (0 <= getLorentzFactor p -> setLorentzFactor p (getLorentzFactor p) = p)
  /\ (0 < ParticleState.pmass p -> 0 < c_squared ->
      1 <= getLorentzFactor (ParticleState.setEnergy p E)).
Proof.
  intros Hm Hc. split; [|split].
  - unfold ParticleState.getLorentzFactor, ParticleState.setLorentzFactor. cbn.
    field. split; assumption.
  - intros Hlf. unfold ParticleState.setLorentzFactor.
    rewrite Rmax_right by exact Hlf.
    destruct p as [i e pos dir m q g]. unfold ParticleState.getLorentzFactor in *.
    cbn in *. f_equal. field. split; assumption.
  - intros Hmpos Hcpos.
    unfold ParticleState.getLorentzFactor, ParticleState.setEnergy. cbn.
    assert (0 <= Rmax 0 E / (ParticleState.pmass p * c_squared)); [|lra].
    apply Rmult_le_pos; [apply Rmax_l|]. left. apply Rinv_0_lt_compat. nra.
Qed.

(** [getVelocity] and [getLorentzFactor] spell the same factor in two
    ways. *)
Lemma gamma_forms (p : ParticleState) :
  ParticleState.pmass p <> 0 -> c_squared <> 0 ->
  1 + ParticleState.energy p / ParticleState.pmass p / c_squared = getLorentzFactor p.
Proof. intros. unfold ParticleState.getLorentzFactor. field. split; assumption. Qed.

Lemma gamma_ge_1 (p : ParticleState) :
  0 <= ParticleState.energy p -> 0 < ParticleState.pmass p -> 0 < c_squared ->
  1 <= getLorentzFactor p.
Proof.
  intros HE Hm Hc. unfold ParticleState.getLorentzFactor.
  assert (0 <= ParticleState.energy p / (ParticleState.pmass p * c_squared)); [|lra].
  apply Rmult_le_pos; [exact HE|]. left. apply Rinv_0_lt_compat. nra.
Qed.

Lemma beta2_bounds (gamma : R) :
  1 <= gamma -> 0 <= 1 - 1 / gamma / gamma < 1.
Proof.
  intros Hg.
  assert (Hi : 0 < / gamma <= 1).
  { split; [apply Rinv_0_lt_compat; lra|].
    rewrite <- Rinv_1. apply Rinv_le_contravar; lra. }
  replace (1 - 1 / gamma / gamma) with (1 - / gamma * / gamma) by (field; lra).
  nra.
Qed.

(** The speed of a state with a unit direction. *)
Lemma getVelocity_speed (p : ParticleState) :
  Vector3.getR (ParticleState.direction p) = 1 ->
  0 <= ParticleState.energy p -> 0 < ParticleState.pmass p -> 0 < c_squared ->
  0 < c_light ->
  Vector3.getR (getVelocity p)
  = c_light * sqrt (1 - 1 / getLorentzFactor p / getLorentzFactor p).
Proof.
  intros Hdir HE Hm Hc Hl. unfold ParticleState.getVelocity.
  rewrite gamma_forms by lra.
  rewrite !getR_scale, Hdir.
  rewrite (Rabs_right c_light) by lra.
  rewrite Rabs_right by (apply Rle_ge, sqrt_pos). ring.
Qed.

(** X13: nothing moves faster than light.  For a state with a unit
    direction, a non-negative energy and a positive mass, the speed
    [getVelocity().getR()] is [c_light * sqrt(1 - 1 / gamma^2)] for the
    Lorentz factor [gamma] of the state: it is below [c_light], and a
    particle without kinetic energy is at rest. *)
Theorem velocity_below_light_speed (p : ParticleState) :
  Vector3.getR (ParticleState.direction p) = 1 ->
  0 <= ParticleState.energy p -> 0 < ParticleState.pmass p -> 0 < c_squared ->
  0 < c_light ->
  0 <= Vector3.getR (getVelocity p) < c_light
  /\ Vector3.getR (getVelocity p) ^ 2
     = c_light ^ 2 * (1 - 1 / getLorentzFactor p ^ 2)
  /\ (ParticleState.energy p = 0 -> Vector3.getR (getVelocity p) = 0).
Proof.
  intros Hdir HE Hm Hc Hl.
  rewrite getVelocity_speed by assumption.
  pose proof (gamma_ge_1 p HE Hm Hc) as Hg.
  pose proof (beta2_bounds _ Hg) as Hb.
  set (b := 1 - 1 / getLorentzFactor p / getLorentzFactor p) in *.
  assert (Hs : 0 <= sqrt b < 1).
  { split; [apply sqrt_pos|]. rewrite <- sqrt_1. apply sqrt_lt_1; lra. }
  split; [nra|]. split.
  - rewrite Rpow_mult_distr. f_equal.
    rewrite <- Rsqr_pow2, Rsqr_sqrt by lra. unfold b. field. lra.
  - intros H0. unfold b, ParticleState.getLorentzFactor. rewrite H0.
    replace (1 - 1 / (1 + 0 / (ParticleState.pmass p * c_squared))
                 / (1 + 0 / (ParticleState.pmass p * c_squared))) with 0
      by (field; nra).
    rewrite sqrt_0. ring.
Qed.

(** X14: momentum, velocity and Lorentz factor agree.  With
    [c_squared = c_light * c_light], a positive mass and a non-negative
    energy, [getMomentum()] is [getVelocity()] times the Lorentz factor and
    the mass, and for a unit direction its length [P] satisfies
    [(P c)^2 + (m c^2)^2 = (E + m c^2)^2]. *)
Theorem momentum_velocity_relation (p : ParticleState) :
  c_squared = c_light * c_light -> 0 < c_light ->
  0 <= ParticleState.energy p -> 0 < ParticleState.pmass p ->
  getMomentum p = (getVelocity p * (getLorentzFactor p * ParticleState.pmass p))%vec
  /\ (Vector3.getR (ParticleState.direction p) = 1 ->
      (Vector3.getR (getMomentum p) * c_light) ^ 2
      + (ParticleState.pmass p * c_squared) ^ 2
      = (ParticleState.energy p + ParticleState.pmass p * c_squared) ^ 2).
Proof.
  intros Hc2 Hl HE Hm.
  assert (Hc : 0 < c_squared) by (rewrite Hc2; nra).
  pose proof (gamma_ge_1 p HE Hm Hc) as Hg.
  pose proof (beta2_bounds _ Hg) as Hb.
  set (E := ParticleState.energy p) in *. set (m := ParticleState.pmass p) in *.
  assert (Hrad : 0 <= (E + m * c_squared) * (E + m * c_squared)
                      - m * c_squared * (m * c_squared)).
  { replace ((E + m * c_squared) * (E + m * c_squared) - m * c_squared * (m * c_squared))
      with (E * E + 2 * (E * (m * c_squared))) by ring.
    assert (0 <= E * (m * c_squared)) by (apply Rmult_le_pos; nra). nra. }
  split.
  - unfold ParticleState.getMomentum, ParticleState.getVelocity.
    fold E m.
    replace (1 + E / m / c_squared) with (getLorentzFactor p)
      by (symmetry; apply gamma_forms; fold m; lra).
    set (gamma := getLorentzFactor p) in *.
    assert (Hroot : sqrt ((E + m * c_squared) * (E + m * c_squared)
                          - m * c_squared * (m * c_squared))
                    = m * c_squared * gamma * sqrt (1 - 1 / gamma / gamma)).
    { apply sqrt_lem_1; [exact Hrad| |].
      - apply Rmult_le_pos; [|apply sqrt_pos].
        apply Rmult_le_pos; [apply Rmult_le_pos|]; lra.
      - transitivity (m * c_squared * gamma * (m * c_squared * gamma)
                      * (sqrt (1 - 1 / gamma / gamma) * sqrt (1 - 1 / gamma / gamma)));
          [ring|].
        rewrite sqrt_sqrt by exact (proj1 Hb). unfold gamma, ParticleState.getLorentzFactor.
        fold E m. field. repeat split; try lra.
        assert (0 < m * c_squared) by (apply Rmult_lt_0_compat; lra). lra. }
    rewrite Hroot.
    destruct (ParticleState.direction p) as [dx dy dz].
    unfold Vector3.scale, Vector3.div; simpl. rewrite Hc2.
    f_equal; field; lra.
  - intros Hdir. unfold ParticleState.getMomentum. fold E m.
    rewrite div_as_scale, !getR_scale, Hdir.
    rewrite (Rabs_right (/ c_light))
      by (left; apply Rlt_gt, Rinv_0_lt_compat; exact Hl).
    rewrite Rabs_right by (apply Rle_ge, sqrt_pos).
    set (S := sqrt _).
    replace (/ c_light * (S * 1) * c_light) with S by (field; lra).
    unfold S. rewrite <- Rsqr_pow2, Rsqr_sqrt by exact Hrad. ring.
Qed.

End ParticleState_kinematics.

(** X15: [setDirection] keeps the direction of its argument only.  For a
    vector that is not zero, a positive rescaling, and so the normalisation
    [getUnitVector] that the integrator applies before the call, does not
    change the state that results, whose direction has length 1; setting the
    direction it already has changes nothing. *)
Theorem setDirection_scale_invariant (p : ParticleState) (dir : Vector3d) (k : R) :
  0 < k -> Vector3.getR dir <> 0 ->
  ParticleState.setDirection p (dir * k)%vec = ParticleState.setDirection p dir
  /\ ParticleState.setDirection p (Vector3.getUnitVector dir)
     = ParticleState.setDirection p dir
  /\ ParticleState.setDirection (ParticleState.setDirection p dir)
       (ParticleState.direction (ParticleState.setDirection p dir))
     = ParticleState.setDirection p dir.
Proof.
  intros Hk Hdir.
  assert (Hscale : forall s, 0 < s ->
            ParticleState.setDirection p (dir * s)%vec = ParticleState.setDirection p dir).
  { intros s Hs. unfold ParticleState.setDirection. f_equal.
    rewrite getR_scale, Rabs_right by lra.
    destruct dir as [a b c]. unfold Vector3.scale, Vector3.div; simpl.
    set (r := Vector3.getR _) in *.
    f_equal; field; split; lra. }
  assert (Hpos : 0 < Vector3.getR dir).
  { pose proof (getR_nonneg dir). lra. }
  split; [apply Hscale; exact Hk|]. split.
  - unfold Vector3.getUnitVector. rewrite div_as_scale.
    apply Hscale. apply Rinv_0_lt_compat. exact Hpos.
  - unfold ParticleState.setDirection at 1. cbn.
    rewrite getR_normalized by exact Hdir. rewrite div_one. reflexivity.
Qed.

Lemma lorentz_factor_round_trip_witness :
  ParticleState.getLorentzFactor 1 (ParticleState.setLorentzFactor 1 Scenario.monopoleState 3)
  = Rmax 0 3
  /\ ParticleState.setLorentzFactor 1 Scenario.monopoleState
       (ParticleState.getLorentzFactor 1 Scenario.monopoleState)
     = Scenario.monopoleState
  /\ 1 <= ParticleState.getLorentzFactor 1 (ParticleState.setEnergy Scenario.monopoleState 5).
Proof.
  destruct (lorentz_factor_round_trip 1 Scenario.monopoleState 3 5) as (H1 & H2 & H3);
    [simpl; lra|lra|].
  split; [exact H1|]. split.
  - apply H2. unfold ParticleState.getLorentzFactor. simpl. lra.
  - apply H3; simpl; lra.
Defined.

Lemma velocity_below_light_speed_witness :
  0 <= Vector3.getR (ParticleState.getVelocity 1 1 Scenario.monopoleState) < 1
  /\ Vector3.getR (ParticleState.getVelocity 1 1 Scenario.monopoleState) ^ 2
     = 1 ^ 2 * (1 - 1 / ParticleState.getLorentzFactor 1 Scenario.monopoleState ^ 2).
Proof.
  destruct (velocity_below_light_speed 1 1 Scenario.monopoleState) as (H1 & H2 & _);
    try (simpl; lra).
  - simpl. apply getR_axis. lra.
  - split; assumption.
Defined.

Lemma momentum_velocity_relation_witness :
  ParticleState.getMomentum 1 1 Scenario.monopoleState
  = (ParticleState.getVelocity 1 1 Scenario.monopoleState
     * (ParticleState.getLorentzFactor 1 Scenario.monopoleState
        * ParticleState.pmass Scenario.monopoleState))%vec
  /\ (Vector3.getR (ParticleState.getMomentum 1 1 Scenario.monopoleState) * 1) ^ 2
     + (ParticleState.pmass Scenario.monopoleState * 1) ^ 2
     = (ParticleState.energy Scenario.monopoleState
        + ParticleState.pmass Scenario.monopoleState * 1) ^ 2.
Proof.
  destruct (momentum_velocity_relation 1 1 Scenario.monopoleState) as (H1 & H2);
    try (simpl; lra).
  split; [exact H1|]. apply H2. simpl. apply getR_axis. lra.
Defined.

Lemma setDirection_scale_invariant_witness :
  ParticleState.setDirection Scenario.monopoleState (Vector3.mk 3 0 0 * 2)%vec
  = ParticleState.setDirection Scenario.monopoleState (Vector3.mk 3 0 0)
  /\ ParticleState.setDirection Scenario.monopoleState
       (Vector3.getUnitVector (Vector3.mk 3 0 0))
     = ParticleState.setDirection Scenario.monopoleState (Vector3.mk 3 0 0)
  /\ ParticleState.setDirection
       (ParticleState.setDirection Scenario.monopoleState (Vector3.mk 3 0 0))
       (ParticleState.direction
          (ParticleState.setDirection Scenario.monopoleState (Vector3.mk 3 0 0)))
     = ParticleState.setDirection Scenario.monopoleState (Vector3.mk 3 0 0).
Proof.
  apply (setDirection_scale_invariant Scenario.monopoleState (Vector3.mk 3 0 0) 2);
    [lra|].
  rewrite getR_axis; lra.
Defined.

Section ParticleState_identity.

Variables kilogram ampere meter eplus mass_electron : R.
Variable nuclearMass : Z -> R.
Variable HepPID_isNucleus : Z -> bool.
Variable HepPID_Z : Z -> Z.
Variable HepPID_isDyon : Z -> bool.
Variable HepPID_charge : Z -> R.

Local Abbreviation setMcharge := (ParticleState.setMcharge ampere meter).
Local Abbreviation setId :=
  (ParticleState.setId kilogram ampere meter eplus mass_electron nuclearMass
     HepPID_isNucleus HepPID_Z HepPID_isDyon HepPID_charge).
Local Abbreviation construct :=
  (ParticleState.construct kilogram ampere meter eplus mass_electron nuclearMass
     HepPID_isNucleus HepPID_Z HepPID_isDyon HepPID_charge).
Local Abbreviation isNucleus := (ParticleID.isNucleus HepPID_isNucleus).

(** X16: the sign of the magnetic charge is the sign of the id.
    [setMcharge] stores the magnitude of its argument, in units of ampere
    times meter, with a minus sign exactly for a negative id: a negative
    argument gives the state its absolute value gives, and only the magnetic
    charge is changed. *)
Theorem setMcharge_sign (p : ParticleState) (new_mcharge : R) :
  let p' := setMcharge p new_mcharge in
  ((0 <= ParticleState.id p)%Z ->
   ParticleState.mcharge p' = Rabs (new_mcharge * ampere * meter))
  /\ ((ParticleState.id p < 0)%Z ->
      ParticleState.mcharge p' = - Rabs (new_mcharge * ampere * meter))
  /\ setMcharge p (- new_mcharge) = p'
  /\ setMcharge p' new_mcharge = p'
  /\ p' = ParticleState.mk (ParticleState.id p) (ParticleState.energy p)
            (ParticleState.position p) (ParticleState.direction p)
            (ParticleState.pmass p) (ParticleState.charge p) (ParticleState.mcharge p').
Proof.
  cbv zeta. unfold ParticleState.setMcharge. cbn.
  replace (- new_mcharge * ampere * meter) with (- (new_mcharge * ampere * meter)) by ring.
  rewrite Rabs_Ropp.
  destruct (ParticleState.id p <? 0)%Z eqn:Hid.
  - apply Z.ltb_lt in Hid. repeat split; try reflexivity; intros; try lia. ring.
  - apply Z.ltb_ge in Hid. repeat split; try reflexivity; intros; lia.
Qed.

(** The constructor: [setId] on the zero state, then the energy, the
    position and the direction. *)
Lemma construct_members (id : Z) (E : R) (pos dir : Vector3d) (pmass mcharge : R) :
  let p := construct id E pos dir pmass mcharge in
  let p0 := setId (ParticleState.mk 0 0 (Vector3.fill 0) (Vector3.fill 0) 0 0 0)
              id pmass mcharge in
  p = ParticleState.mk (ParticleState.id p0) (Rmax 0 E) pos (dir / Vector3.getR dir)%vec
        (ParticleState.pmass p0) (ParticleState.charge p0) (ParticleState.mcharge p0).
Proof. reflexivity. Qed.

(** X17: what the constructor makes of its arguments.  The state built by
    [ParticleState(id, E, pos, dir, pmass, mcharge)] has the id and the
    position given, the energy clamped at zero and the direction normalised.
    For a nucleus the mass is the tabulated one and the mass and magnetic
    charge asked for are ignored: the magnetic charge is zero.  For an id
    that HepPID reads as a dyon the mass and the magnitude of the magnetic
    charge are the ones asked for, in SI units.  For every other id, the
    monopole ids of [isDyon] included when HepPID does not read them as
    dyons, the magnetic charge is zero, and so is the mass unless the
    particle is an electron or positron. *)
Theorem construct_by_kind (id : Z) (E : R) (pos dir : Vector3d) (pmass mcharge : R) :
  let p := construct id E pos dir pmass mcharge in
  (ParticleState.id p = id
   /\ ParticleState.energy p = Rmax 0 E
   /\ ParticleState.position p = pos
   /\ ParticleState.direction p = (dir / Vector3.getR dir)%vec)
  /\ (isNucleus id = true ->
      ParticleState.pmass p = nuclearMass id
      /\ ParticleState.mcharge p = 0
      /\ Rabs (ParticleState.charge p) = Rabs (IZR (HepPID_Z id) * eplus))
  /\ (isNucleus id = false -> HepPID_isDyon id = true ->
      ParticleState.pmass p = pmass * kilogram
      /\ Rabs (ParticleState.mcharge p) = Rabs (mcharge * ampere * meter)
      /\ ((0 <= id)%Z -> 0 <= ParticleState.mcharge p)
      /\ ((id < 0)%Z -> ParticleState.mcharge p <= 0))
  /\ (isNucleus id = false -> HepPID_isDyon id = false ->
      ParticleState.mcharge p = 0
      /\ ParticleState.pmass p = (if (Z.abs id =? 11)%Z then mass_electron else 0)
      /\ ParticleState.charge p = HepPID_charge id * eplus)
  /\ (ParticleID.isDyon HepPID_isDyon 4110000 = true
      /\ ParticleID.isDyon HepPID_isDyon (-4120000) = true).
Proof.
  cbv zeta. rewrite construct_members. cbv zeta.
  unfold ParticleState.setId, ParticleState.setMass, ParticleState.setMcharge.
  cbn [ParticleState.id ParticleState.energy ParticleState.position
       ParticleState.direction ParticleState.pmass ParticleState.charge
       ParticleState.mcharge].
  destruct (isNucleus id) eqn:Hn; [|destruct (HepPID_isDyon id) eqn:Hd];
    cbn [ParticleState.id ParticleState.energy ParticleState.position
         ParticleState.direction ParticleState.pmass ParticleState.charge
         ParticleState.mcharge].
  - split; [repeat split|]. split; [|split; [intros; discriminate|split; [intros; discriminate|split; reflexivity]]].
    intros _. split; [reflexivity|]. split; [reflexivity|].
    unfold ParticleID.chargeNumber.
    destruct (id <? 0)%Z; [|reflexivity].
    replace (IZR (HepPID_Z id) * eplus * -1) with (- (IZR (HepPID_Z id) * eplus)) by ring.
    apply Rabs_Ropp.
  - split; [repeat split|]. split; [intros; discriminate|].
    split; [|split; [intros; discriminate|split; reflexivity]].
    intros _ _. split; [reflexivity|].
    destruct (id <? 0)%Z eqn:Hid.
    + apply Z.ltb_lt in Hid.
      replace (Rabs (mcharge * ampere * meter) * -1)
        with (- Rabs (mcharge * ampere * meter)) by ring.
      rewrite Rabs_Ropp, Rabs_Rabsolu.
      pose proof (Rabs_pos (mcharge * ampere * meter)).
      repeat split; intros; try lia; lra.
    + apply Z.ltb_ge in Hid. rewrite Rabs_Rabsolu.
      pose proof (Rabs_pos (mcharge * ampere * meter)).
      repeat split; intros; try lia; lra.
  - split; [repeat split|]. split; [intros; discriminate|].
    split; [intros; discriminate|].
    split; [intros _ _; repeat split|]. split; reflexivity.
Qed.

End ParticleState_identity.

Section Constructed_nucleus.

Variables c_light c_squared : R.
Variable Y_of_double : R -> MonopolePropagationBP.Y.
Variable self : MonopolePropagationBP.t.
Variables kilogram ampere meter eplus mass_electron : R.
Variable nuclearMass : Z -> R.
Variable HepPID_isNucleus : Z -> bool.
Variable HepPID_Z : Z -> Z.
Variable HepPID_isDyon : Z -> bool.
Variable HepPID_charge : Z -> R.

Local Abbreviation construct :=
  (ParticleState.construct kilogram ampere meter eplus mass_electron nuclearMass
     HepPID_isNucleus HepPID_Z HepPID_isDyon HepPID_charge).
Local Abbreviation minStep := (MonopolePropagationBP.minStep self).
Local Abbreviation maxStep := (MonopolePropagationBP.maxStep self).
Local Abbreviation process :=
  (MonopolePropagationBP.process c_light c_squared Y_of_double self).

Lemma construct_nucleus_mcharge (id : Z) (E : R) (pos dir : Vector3d) (pmass mcharge : R) :
  ParticleID.isNucleus HepPID_isNucleus id = true ->
  ParticleState.mcharge (construct id E pos dir pmass mcharge) = 0.
Proof.
  intros Hn. unfold ParticleState.construct, ParticleState.setId. rewrite Hn. reflexivity.
Qed.

(** X18: a nucleus does not feel the monopole force.  Whatever mass and
    magnetic charge its constructor was given, a candidate whose current
    state was built for a nucleus id is moved by the integrator in a straight
    line, by the proposed step clipped to the window: the field is not
    consulted, and the result is the same for two different magnetic charges
    asked for. *)
Theorem constructed_nucleus_flies_straight (id : Z) (E : R) (pos dir : Vector3d)
    (pmass mcharge pmass' mcharge' : R) (fuel : nat) (candidate : Candidate) :
  ParticleID.isNucleus HepPID_isNucleus id = true ->
  Candidate.current candidate = construct id E pos dir pmass mcharge ->
  let h := clip (Candidate.nextStep candidate) minStep maxStep in
  construct id E pos dir pmass' mcharge' = Candidate.current candidate
  /\ exists candidate',
       process fuel candidate = Some candidate'
       /\ ParticleState.position (Candidate.current candidate')
          = (pos + dir / Vector3.getR dir * h)%vec
       /\ ParticleState.direction (Candidate.current candidate')
          = (dir / Vector3.getR dir)%vec
       /\ ParticleState.energy (Candidate.current candidate') = Rmax 0 E
       /\ Candidate.currentStep candidate' = h
       /\ Candidate.nextStep candidate' = maxStep.
Proof.
  intros Hn Hcur h. split.
  - rewrite Hcur. unfold ParticleState.construct, ParticleState.setId.
    rewrite Hn. reflexivity.
  - rewrite process_rectilinear
      by (rewrite Hcur; apply construct_nucleus_mcharge; exact Hn).
    eexists. split; [reflexivity|]. cbn. rewrite Hcur. repeat split.
Qed.

End Constructed_nucleus.

Section ParticleState_massless.

Variables c_light c_squared ampere meter : R.

Local Abbreviation getLorentzFactor := (ParticleStateMassless.getLorentzFactor c_squared).
Local Abbreviation setLorentzFactor := (ParticleStateMassless.setLorentzFactor c_squared).
Local Abbreviation getVelocity := (ParticleStateMassless.getVelocity c_light).
Local Abbreviation getMomentum := (ParticleStateMassless.getMomentum c_light).

(** X19: the ParticleState.cpp in which everything moves at the speed of
    light.  There [setLorentzFactor] never stores a negative energy and
    [getLorentzFactor] reads back the factor set, clamped at zero; a state
    with a unit direction has the speed [c_light] and the momentum
    [energy / c_light]; and [setMcharge] keeps the sign of its argument, so
    it agrees with the dyon-aware version exactly on arguments that are not
    negative in SI units. *)
Theorem massless_particle_state (p : ParticleState) (lf g : R) :
  0 <= ParticleState.pmass p -> 0 <= c_squared ->
  0 <= ParticleState.energy (setLorentzFactor p lf)
  /\ (ParticleState.pmass p <> 0 -> c_squared <> 0 ->
      getLorentzFactor (setLorentzFactor p lf) = Rmax 0 lf)
  /\ (Vector3.getR (ParticleState.direction p) = 1 -> 0 < c_light ->
      Vector3.getR (getVelocity p) = c_light
      /\ (0 <= ParticleState.energy p ->
          Vector3.getR (getMomentum p) * c_light = ParticleState.energy p))
  /\ (0 <= g * ampere * meter ->
      ParticleStateMassless.setMcharge ampere meter p g
      = ParticleState.setMcharge ampere meter p g)
  /\ (g * ampere * meter < 0 ->
      ParticleState.mcharge (ParticleStateMassless.setMcharge ampere meter p g)
      = - ParticleState.mcharge (ParticleState.setMcharge ampere meter p g)).
Proof.
  intros Hm Hc. split; [|split; [|split; [|split]]].
  - unfold ParticleStateMassless.setLorentzFactor. cbn.
    apply Rmult_le_pos; [apply Rmult_le_pos|]; try assumption. apply Rmax_l.
  - intros Hm0 Hc0.
    unfold ParticleStateMassless.getLorentzFactor, ParticleStateMassless.setLorentzFactor.
    cbn. field. split; assumption.
  - intros Hdir Hl. unfold ParticleStateMassless.getVelocity, ParticleStateMassless.getMomentum.
    rewrite !getR_scale, Hdir. split.
    + rewrite Rabs_right by lra. ring.
    + intros HE. rewrite Rabs_right.
      * field. lra.
      * apply Rle_ge. apply Rmult_le_pos; [exact HE|].
        left. apply Rinv_0_lt_compat. exact Hl.
  - intros Hg. unfold ParticleStateMassless.setMcharge, ParticleState.setMcharge.
    rewrite (Rabs_right (g * ampere * meter)) by lra. reflexivity.
  - intros Hg. unfold ParticleStateMassless.setMcharge, ParticleState.setMcharge. cbn.
    rewrite (Rabs_left (g * ampere * meter)) by exact Hg.
    destruct (ParticleState.id p <? 0)%Z; ring.
Qed.

End ParticleState_massless.

Lemma constructed_nucleus_flies_straight_witness :
  Scenario.constructedHelium 0 0 = Scenario.constructedHelium 7 3
  /\ exists candidate',
       MonopolePropagationBP.process 1 1 Scenario.Y_of_double
         (Scenario.adaptiveBP Scenario.uniformField) 0 Scenario.constructedHeliumCandidate
       = Some candidate'
       /\ ParticleState.position (Candidate.current candidate')
          = (Vector3.zero
             + Vector3.mk 2 0 0 / Vector3.getR (Vector3.mk 2 0 0) * clip 2 1 10)%vec
       /\ ParticleState.direction (Candidate.current candidate')
          = (Vector3.mk 2 0 0 / Vector3.getR (Vector3.mk 2 0 0))%vec
       /\ ParticleState.energy (Candidate.current candidate') = Rmax 0 5
       /\ Candidate.currentStep candidate' = clip 2 1 10
       /\ Candidate.nextStep candidate' = 10.
Proof.
  apply (constructed_nucleus_flies_straight 1 1 Scenario.Y_of_double
           (Scenario.adaptiveBP Scenario.uniformField) 1 1 1 1 1 Scenario.nuclearMass
           Scenario.hepIsNucleus Scenario.hepZ Scenario.hepIsDyon Scenario.hepCharge
           1000020040 5 Vector3.zero (Vector3.mk 2 0 0) 7 3 0 0 0
           Scenario.constructedHeliumCandidate); reflexivity.
Defined.

Lemma massless_particle_state_witness :
  0 <= ParticleState.energy
         (ParticleStateMassless.setLorentzFactor 1 Scenario.monopoleState (-3))
  /\ ParticleStateMassless.getLorentzFactor 1
       (ParticleStateMassless.setLorentzFactor 1 Scenario.monopoleState (-3))
     = Rmax 0 (-3)
  /\ Vector3.getR (ParticleStateMassless.getVelocity 1 Scenario.monopoleState) = 1
  /\ ParticleState.mcharge (ParticleStateMassless.setMcharge 1 1 Scenario.monopoleState (-2))
     = - ParticleState.mcharge (ParticleState.setMcharge 1 1 Scenario.monopoleState (-2)).
Proof.
  destruct (massless_particle_state 1 1 1 1 Scenario.monopoleState (-3) (-2))
    as (H1 & H2 & H3 & _ & H5); try (simpl; lra).
  split; [exact H1|]. split; [apply H2; simpl; lra|]. split.
  - apply H3; [|lra]. simpl. apply getR_axis. lra.
  - apply H5. lra.
Defined.

(** ** Particle ids *)

(** The id of a valid pair of numbers. *)
Lemma nucleusId_value (a z : Z) :
  (0 <= z <= a)%Z -> (1 <= a)%Z ->
  ParticleID.nucleusId a z = Some (1000000000 + z * 10000 + a * 10)%Z.
Proof.
  intros Hz Ha. unfold ParticleID.nucleusId.
  destruct (z <? 0)%Z eqn:E1; [apply Z.ltb_lt in E1; lia|].
  destruct (a <? 1)%Z eqn:E2; [apply Z.ltb_lt in E2; lia|].
  destruct (a <? z)%Z eqn:E3; [apply Z.ltb_lt in E3; lia|].
  reflexivity.
Qed.

(** The digits of [1000000000 + z * 10000 + a * 10]. *)
Lemma nucleus_digit_groups (a z : Z) :
  (0 <= z <= a)%Z -> (1 <= a)%Z -> (a < 1000)%Z ->
  let id := (1000000000 + z * 10000 + a * 10)%Z in
  ((id / 10) mod 1000 = a /\ (id / 10000) mod 1000 = z
   /\ id mod 10 = 0 /\ id / 10000000 = 100)%Z.
Proof.
  intros Hz Ha Hb id. unfold id. repeat split.
  - replace (1000000000 + z * 10000 + a * 10)%Z
      with ((100000000 + z * 1000 + a) * 10)%Z by ring.
    rewrite Z.div_mul by lia.
    replace (100000000 + z * 1000 + a)%Z with (a + (100000 + z) * 1000)%Z by ring.
    rewrite Z.mod_add by lia. apply Z.mod_small. lia.
  - replace (1000000000 + z * 10000 + a * 10)%Z
      with (a * 10 + (100000 + z) * 10000)%Z by ring.
    rewrite Z.div_add by lia. rewrite (Z.div_small (a * 10)) by lia.
    replace (0 + (100000 + z))%Z with (z + 100 * 1000)%Z by ring.
    rewrite Z.mod_add by lia. apply Z.mod_small. lia.
  - replace (1000000000 + z * 10000 + a * 10)%Z
      with (0 + (100000000 + z * 1000 + a) * 10)%Z by ring.
    rewrite Z.mod_add by lia. reflexivity.
  - replace (1000000000 + z * 10000 + a * 10)%Z
      with ((z * 10000 + a * 10) + 100 * 10000000)%Z by ring.
    rewrite Z.div_add by lia. rewrite Z.div_small by lia. reflexivity.
Qed.

(** X20: the id of a nucleus and its digits.  [nucleusId(a, z)] throws
    exactly when [z < 0], [a < 1] or [a < z]; otherwise the id it returns is
    [10LZZZAAAI] with [L = 0] and [I = 0], from which the mass and charge
    numbers are read back as the digit groups [AAA] and [ZZZ], provided
    [a < 1000].  The bound is needed: no mass number is refused for being
    too large, and [nucleusId(1002, 1)] is the id of [nucleusId(2, 2)]. *)
Theorem nucleusId_digits (a z : Z) :
  (ParticleID.nucleusId a z = None <-> (z < 0 \/ a < 1 \/ a < z)%Z)
  /\ ((0 <= z <= a)%Z -> (1 <= a < 1000)%Z ->
      exists id : Z,
        ParticleID.nucleusId a z = Some id
        /\ ((id / 10) mod 1000 = a /\ (id / 10000) mod 1000 = z
            /\ id mod 10 = 0 /\ id / 10000000 = 100)%Z)
  /\ ParticleID.nucleusId 1002 1 = ParticleID.nucleusId 2 2.
Proof.
  split; [|split].
  - unfold ParticleID.nucleusId.
    destruct (z <? 0)%Z eqn:E1; [apply Z.ltb_lt in E1|apply Z.ltb_ge in E1].
    { split; [intros _; lia|reflexivity]. }
    destruct (a <? 1)%Z eqn:E2; [apply Z.ltb_lt in E2|apply Z.ltb_ge in E2].
    { split; [intros _; lia|reflexivity]. }
    destruct (a <? z)%Z eqn:E3; [apply Z.ltb_lt in E3|apply Z.ltb_ge in E3].
    { split; [intros _; lia|reflexivity]. }
    split; [discriminate|]. intros H. exfalso. lia.
  - intros Hz Ha. eexists. split; [apply nucleusId_value; lia|].
    apply nucleus_digit_groups; lia.
  - reflexivity.
Qed.

(** ** Elastic scattering over a whole step *)

Section ElasticScattering_steps.

Variables c_squared eV : R.
Variable HepPID_isNucleus : Z -> bool.
Variables HepPID_A HepPID_Z : Z -> Z.
Variable Random : Type.
Variable rand : Random -> R * Random.
Variable randBin : list R -> Random -> nat * Random.
Variable randomInterpolatedPosition : Vector3d -> Vector3d -> Random -> Vector3d * Random.
Variable interpolateEquidistant : R -> R -> R -> list R -> R.
Variable self : ElasticScattering.t.

Local Abbreviation lgmin := ElasticScattering.lgmin.
Local Abbreviation lgmax := ElasticScattering.lgmax.
Local Abbreviation epsmin := (ElasticScattering.epsmin eV).
Local Abbreviation epsmax := (ElasticScattering.epsmax eV).
Local Abbreviation isNucleus := (ParticleID.isNucleus HepPID_isNucleus).
Local Abbreviation massNumber := (ParticleID.massNumber HepPID_A).
Local Abbreviation chargeNumber := (ParticleID.chargeNumber HepPID_Z).
Local Abbreviation lg := (ElasticScattering.lg c_squared).
Local Abbreviation rate :=
  (ElasticScattering.rate c_squared HepPID_A HepPID_Z interpolateEquidistant self).
Local Abbreviation interact :=
  (ElasticScattering.interact c_squared eV Random rand randBin
     randomInterpolatedPosition self).
Local Abbreviation loop :=
  (ElasticScattering.loop c_squared eV HepPID_A HepPID_Z Random rand randBin
     randomInterpolatedPosition interpolateEquidistant self).
Local Abbreviation process :=
  (ElasticScattering.process c_squared eV HepPID_isNucleus HepPID_A HepPID_Z Random
     rand randBin randomInterpolatedPosition interpolateEquidistant self).

(** The candidate with [photons] appended to its secondaries. *)
Local Abbreviation withPhotons candidate photons :=
  (Candidate.mk (Candidate.current candidate) (Candidate.previous candidate)
     (Candidate.redshift candidate) (Candidate.currentStep candidate)
     (Candidate.nextStep candidate) (Candidate.stepRadiation candidate)
     (Candidate.secondaries candidate ++ photons)).

Local Abbreviation isPhoton :=
  (fun s : Candidate.Secondary =>
     Candidate.sid s = 22%Z /\ Candidate.sweight s = 1
     /\ Candidate.stag s = ElasticScattering.interactionTag self).

(** The loop appends one photon per interaction and touches nothing
    else. *)
Lemma loop_appends_photons (fuel : nat) :
  forall (candidate : Candidate) (step : R) (random : Random)
         (candidate' : Candidate) (random' : Random),
    loop fuel candidate step random = Some (candidate', random') ->
    exists photons,
      candidate' = withPhotons candidate photons /\ Forall isPhoton photons
      /\ (List.length photons < fuel)%nat.
Proof.
  induction fuel as [|fuel IH]; intros candidate step random candidate' random' H.
  - discriminate.
  - assert (Hnone : candidate' = candidate ->
              exists photons,
                candidate' = withPhotons candidate photons /\ Forall isPhoton photons
                /\ (List.length photons < S fuel)%nat).
    { intros ->. exists []. rewrite app_nil_r. destruct candidate.
      split; [reflexivity|]. split; [constructor|simpl; lia]. }
    cbn [ElasticScattering.loop] in H.
    destruct (Rgt_dec step 0); [|inversion H; subst; apply Hnone; reflexivity].
    destruct (rand random) as [u0 random1].
    destruct (XDouble.divx _ _) as [randDist|]; [|inversion H; subst; apply Hnone; reflexivity].
    destruct (Rlt_dec step randDist); [inversion H; subst; apply Hnone; reflexivity|].
    destruct (interact_appends_photon c_squared eV Random rand randBin
                randomInterpolatedPosition self candidate random1) as (E & pos & Hi).
    destruct (interact candidate random1) as [candidate1 random2].
    cbn [fst] in Hi. subst candidate1.
    apply IH in H. destruct H as (photons & -> & Hall & Hlen).
    exists (Candidate.mkSecondary 22 E pos 1 (ElasticScattering.interactionTag self)
            :: photons).
    split; [|split].
    + unfold Candidate.addSecondary. cbn. rewrite <- app_assoc. reflexivity.
    + constructor; [repeat split|exact Hall].
    + simpl. lia.
Qed.

(** X21: elastic scattering only adds photons.  Whatever the tables and
    the random numbers, a call of [process] that returns leaves both
    particle states, the redshift, the steps and the secondaries already
    there as they were, and appends a list of secondaries that are all
    photons (id 22) of weight 1 carrying the interaction tag; with a loop
    bound of [fuel] passes it appends fewer than [fuel] of them. *)
Theorem scattering_only_appends_photons (fuel : nat) (candidate : Candidate)
    (random : Random) :
  match process fuel candidate random with
  | Some (candidate', _) =>
      exists photons,
        candidate' = withPhotons candidate photons
        /\ Forall isPhoton photons
        /\ (List.length photons <= fuel)%nat
  | None => True
  end.
Proof.
  destruct (process fuel candidate random) as [[candidate' random']|] eqn:Hp; [|exact I].
  assert (Hnone : candidate' = candidate ->
            exists photons,
              candidate' = withPhotons candidate photons /\ Forall isPhoton photons
              /\ (List.length photons <= fuel)%nat).
  { intros ->. exists []. rewrite app_nil_r. destruct candidate.
    split; [reflexivity|]. split; [constructor|simpl; lia]. }
  unfold ElasticScattering.process in Hp.
  destruct (negb _); [inversion Hp; subst; apply Hnone; reflexivity|].
  destruct (Rlt_dec _ _); [inversion Hp; subst; apply Hnone; reflexivity|].
  destruct (Rgt_dec _ _); [inversion Hp; subst; apply Hnone; reflexivity|].
  apply loop_appends_photons in Hp. destruct Hp as (photons & H1 & H2 & H3).
  exists photons. split; [exact H1|]. split; [exact H2|lia].
Qed.

(** The scaling [Z * N / A] of a nucleus without protons or without
    neutrons. *)
Lemma rate_without_partner (candidate : Candidate) :
  let id := ParticleState.id (Candidate.current candidate) in
  (chargeNumber id = 0 \/ massNumber id = chargeNumber id)%Z ->
  rate candidate = 0.
Proof.
  intros id H. unfold ElasticScattering.rate.
  unfold ParticleState.getId. fold id.
  replace (chargeNumber id * (massNumber id - chargeNumber id))%Z with 0%Z
    by (destruct H as [-> | ->]; lia).
  unfold Rdiv. ring.
Qed.

(** X22: free nucleons do not scatter.  For a nucleus whose charge number
    or whose neutron number is zero (a proton, or the neutron that
    [isNucleus] admits) the scaling [Z * N / A] makes the rate zero and the
    free path infinite: for a tabulated rate and a redshift scaling that are
    not negative and a uniform draw below 1, [process] draws one random
    number when the step is positive and returns the candidate as it found
    it. *)
Theorem free_nucleons_do_not_scatter (fuel : nat) (candidate : Candidate)
    (random : Random) :
  let id := ParticleState.id (Candidate.current candidate) in
  let z := Candidate.redshift candidate in
  isNucleus id = true -> lgmin <= lg candidate <= lgmax ->
  (chargeNumber id = 0 \/ massNumber id = chargeNumber id)%Z ->
  (massNumber id <> 0)%Z ->
  0 <= interpolateEquidistant (lg candidate) lgmin lgmax (ElasticScattering.tabRate self) ->
  0 <= ElasticScattering.getRedshiftScaling self z ->
  0 <= fst (rand random) < 1 ->
  rate candidate = 0
  /\ process (S fuel) candidate random
     = Some (candidate,
             if Rgt_dec (Candidate.currentStep candidate) 0 then snd (rand random)
             else random).
Proof.
  intros id z Hn Hlg HZN HA Htab Hscale Hu.
  pose proof (rate_without_partner candidate HZN) as Hrate.
  split; [exact Hrate|].
  rewrite process_in_range by assumption.
  destruct (Rgt_dec (Candidate.currentStep candidate) 0) as [Hs|Hs].
  - apply loop_pass_infinite; [lra|]. right. exact Hrate.
  - apply loop_exhausted. lra.
Qed.

Lemma neps_value : INR ElasticScattering.neps = 513.
Proof.
  unfold ElasticScattering.neps. rewrite INR_IZR_INZ. reflexivity.
Qed.

(** X23: the energy of a secondary photon.  When the bin that [randBin]
    draws from the row of the table lies between 1 and [neps - 1] and the
    two uniform draws that follow lie in [0, 1], the photon that the
    interaction adds has an energy between zero and
    [2 * gamma * 10^epsmax], for the Lorentz factor [gamma >= 0] of the
    nucleus: the background photon energy lies between [10^epsmin] and
    [10^epsmax] in the rest frame of the nucleus. *)
Theorem secondary_photon_energy (candidate : Candidate) (random : Random) :
  let gamma := ParticleState.getLorentzFactor c_squared (Candidate.current candidate) in
  let i :=
    ElasticScattering.floor
      ((lg candidate - lgmin) / (lgmax - lgmin) * (INR ElasticScattering.nlg - 1)) in
  let bin := randBin (nth i (ElasticScattering.tabCDF self) []) random in
  let u1 := rand (snd bin) in
  let u2 := rand (snd u1) in
  (1 <= fst bin <= ElasticScattering.neps - 1)%nat ->
  0 <= fst u1 <= 1 -> 0 <= fst u2 <= 1 ->
  0 <= gamma ->
  exists E pos,
    fst (interact candidate random)
    = Candidate.addSecondary candidate 22 E pos 1 (ElasticScattering.interactionTag self)
    /\ 0 <= E <= 2 * gamma * Rpower 10 epsmax.
Proof.
  intros gamma i drawn first second Hb Hu1 Hu2 Hgamma.
  unfold ElasticScattering.interact. fold i.
  subst drawn first second.
  destruct (randBin (nth i (ElasticScattering.tabCDF self) []) random) as [bin random1].
  cbn [fst snd] in *.
  destruct (rand random1) as [u1 random2]. cbn [fst snd] in *.
  destruct (rand random2) as [u2 random3].
  destruct (randomInterpolatedPosition _ _ random3) as [pos random4].
  cbn [fst snd] in *. eexists; eexists; split; [reflexivity|].
  fold gamma.
  assert (Hj : ((Z.of_nat bin - 1) mod 2 ^ 64 = Z.of_nat bin - 1)%Z).
  { apply Z.mod_small. unfold ElasticScattering.neps in Hb. lia. }
  rewrite Hj.
  assert (HjR : 0 <= IZR (Z.of_nat bin - 1) <= 511).
  { unfold ElasticScattering.neps in Hb. split; apply IZR_le; lia. }
  set (j := IZR (Z.of_nat bin - 1)) in *.
  assert (Hexp : epsmin <= epsmin + (j + u1) * ((epsmax - epsmin) / (INR ElasticScattering.neps - 1))
                 <= epsmax).
  { rewrite neps_value. unfold ElasticScattering.epsmin, ElasticScattering.epsmax.
    set (l := ElasticScattering.log10 (2 * eV)).
    replace ((l + 8.12 - (l + 3)) / (513 - 1)) with (1 / 100) by lra.
    lra. }
  set (e := epsmin + (j + u1) * ((epsmax - epsmin) / (INR ElasticScattering.neps - 1))) in *.
  assert (Heps : 0 < Rpower 10 e <= Rpower 10 epsmax).
  { split; [unfold Rpower; apply exp_pos|]. apply Rle_Rpower; lra. }
  set (eps := Rpower 10 e) in *. set (top := Rpower 10 epsmax) in *.
  assert (Hge : 0 <= eps * gamma) by (apply Rmult_le_pos; lra).
  assert (Hle : eps * gamma <= top * gamma) by (apply Rmult_le_compat_r; lra).
  split.
  - apply Rmult_le_pos; [exact Hge|lra].
  - apply Rle_trans with (eps * gamma * 2).
    + apply Rmult_le_compat_l; [exact Hge|lra].
    + lra.
Qed.

End ElasticScattering_steps.

Lemma proton_lg : ElasticScattering.lg 1 Scenario.proton = 6.
Proof.
  unfold ElasticScattering.lg, ParticleState.getLorentzFactor, Candidate.getRedshift.
  simpl. replace ((1 + 999999 / (1 * 1)) * (1 + 0)) with 1000000 by field.
  apply log10_million.
Qed.

Lemma exp_minus_one_below_one : 0 <= exp (-1) < 1.
Proof.
  split; [left; apply exp_pos|]. rewrite <- exp_0. apply exp_increasing. lra.
Qed.

Lemma free_nucleons_do_not_scatter_witness :
  ElasticScattering.rate 1 Scenario.hepA Scenario.hepZ Common.interpolateEquidistant
    Scenario.flatScattering Scenario.proton = 0
  /\ ElasticScattering.process 1 1 Scenario.hepIsNucleus Scenario.hepA Scenario.hepZ nat
       Scenario.rand Scenario.randBin Scenario.randomInterpolatedPosition
       Common.interpolateEquidistant Scenario.flatScattering 1 Scenario.proton 0%nat
     = Some (Scenario.proton,
             if Rgt_dec (Candidate.currentStep Scenario.proton) 0
             then snd (Scenario.rand 0) else 0%nat).
Proof.
  apply (free_nucleons_do_not_scatter 1 1 Scenario.hepIsNucleus Scenario.hepA
           Scenario.hepZ nat Scenario.rand Scenario.randBin
           Scenario.randomInterpolatedPosition Common.interpolateEquidistant
           Scenario.flatScattering 0 Scenario.proton 0%nat).
  - reflexivity.
  - rewrite proton_lg. unfold ElasticScattering.lgmin, ElasticScattering.lgmax. lra.
  - right. reflexivity.
  - discriminate.
  - rewrite proton_lg, interpolateEquidistant_lower. simpl. lra.
  - simpl. lra.
  - exact exp_minus_one_below_one.
Defined.

(** The row of the table for the helium nucleus at the lower bound. *)
Lemma helium_row :
  ElasticScattering.floor
    ((ElasticScattering.lg 1 (Scenario.helium 1) - ElasticScattering.lgmin)
     / (ElasticScattering.lgmax - ElasticScattering.lgmin)
     * (INR ElasticScattering.nlg - 1)) = 0%nat.
Proof.
  rewrite (helium_lg (Scenario.helium 1)) by (split; reflexivity).
  unfold ElasticScattering.lgmin, ElasticScattering.lgmax, ElasticScattering.floor.
  replace ((6 - 6) / (14 - 6) * (INR ElasticScattering.nlg - 1)) with 0
    by (unfold Rdiv; ring).
  rewrite <- (Int_part_spec 0 0) by lra. reflexivity.
Qed.

Lemma secondary_photon_energy_witness :
  exists E pos,
    fst (ElasticScattering.interact 1 1 nat Scenario.halfRand Scenario.halfRandBin
           Scenario.halfPosition Scenario.tableScattering (Scenario.helium 1) 0%nat)
    = Candidate.addSecondary (Scenario.helium 1) 22 E pos 1 "ES"%string
    /\ 0 <= E
       <= 2 * ParticleState.getLorentzFactor 1 Scenario.heliumState
          * Rpower 10 (ElasticScattering.epsmax 1).
Proof.
  apply (secondary_photon_energy 1 1 nat Scenario.halfRand Scenario.halfRandBin
           Scenario.halfPosition Scenario.tableScattering (Scenario.helium 1) 0%nat).
  - rewrite helium_row. unfold Scenario.halfRandBin, Scenario.halfRand.
    cbn [nth ElasticScattering.tabCDF Scenario.tableScattering last fst].
    rewrite lowerBound_half. unfold ElasticScattering.neps. lia.
  - simpl. lra.
  - simpl. lra.
  - unfold ParticleState.getLorentzFactor. simpl. lra.
Defined.

(** ** Radiation losses *)

Lemma dot_self (v : Vector3d) : Vector3.dot v v = Vector3.getR v * Vector3.getR v.
Proof.
  unfold Vector3.dot, Vector3.getR. rewrite sqrt_sqrt; [reflexivity|apply norm2_nonneg].
Qed.

(** Lagrange's identity, in the form the radiated power uses it. *)
Lemma lagrange_identity (b d : Vector3d) :
  Vector3.dot d d - Vector3.dot (Vector3.cross b d) (Vector3.cross b d)
  = Vector3.dot d d * (1 - Vector3.dot b b) + Vector3.dot b d * Vector3.dot b d.
Proof.
  destruct b, d. unfold Vector3.dot, Vector3.cross; simpl. ring.
Qed.

Lemma xmin_le (x : XDouble.xdouble) (b : R) : XDouble.min x b <= b.
Proof. destruct x; simpl; [apply Rmin_r|lra]. Qed.

Section MonopoleRadiation_losses.

Variables c_light c_squared mu0 : R.

Local Abbreviation process := (MonopoleRadiation.process c_light c_squared mu0).
Local Abbreviation getVelocity := (ParticleState.getVelocity c_light c_squared).

(** The velocity in units of the speed of light. *)
Lemma beta_below_one (p : ParticleState) :
  Vector3.getR (ParticleState.direction p) = 1 ->
  0 <= ParticleState.energy p -> 0 < ParticleState.pmass p -> 0 < c_squared ->
  0 < c_light ->
  Vector3.dot (getVelocity p / c_light)%vec (getVelocity p / c_light)%vec <= 1.
Proof.
  intros Hdir HE Hm Hc Hl.
  rewrite dot_self, div_as_scale, getR_scale.
  rewrite (getVelocity_speed c_light c_squared p) by assumption.
  pose proof (gamma_ge_1 c_squared p HE Hm Hc) as Hg.
  pose proof (beta2_bounds _ Hg) as Hb.
  set (b := 1 - 1 / _ / _) in *.
  rewrite Rabs_right by (left; apply Rlt_gt, Rinv_0_lt_compat; exact Hl).
  replace (/ c_light * (c_light * sqrt b) * (/ c_light * (c_light * sqrt b)))
    with (sqrt b * sqrt b) by (field; lra).
  rewrite sqrt_sqrt; lra.
Qed.

(** X24: radiation only takes energy away.  For a magnetically charged
    candidate with a unit direction whose current and previous states have
    a non-negative energy and a positive mass, after a positive step at a
    redshift above -1 and for a non-negative [mu0], the energy loss that
    [process] records is not negative; the energy it stores is the old one
    less the loss, clamped at zero, so it lies between zero and the old
    energy; and the next step proposed is never raised.  The call fails only
    if the field sampler throws.  The Lorentz factor is at most [10^6]:
    the loss has the sign of [dbeta.dbeta - |beta x dbeta|^2], which is at
    least [|dbeta|^2 / gamma^2], and for larger Lorentz factors
    [1 / gamma^2] comes close to the spacing of the doubles near 1, where
    the rounding of the two terms decides the sign of their difference. *)
Theorem radiation_only_loses_energy (self : MonopoleRadiation.t) (candidate : Candidate) :
  let current := Candidate.current candidate in
  let z := Candidate.redshift candidate in
  ParticleState.mcharge current <> 0 ->
  Vector3.getR (ParticleState.direction current) = 1 ->
  0 <= ParticleState.energy current -> 0 < ParticleState.pmass current ->
  ParticleState.getLorentzFactor c_squared current <= 10 ^ 6 ->
  0 <= ParticleState.energy (Candidate.previous candidate) ->
  0 < ParticleState.pmass (Candidate.previous candidate) ->
  0 < c_squared -> 0 < c_light -> 0 <= mu0 ->
  0 < Candidate.currentStep candidate -> -1 < z ->
  match process self candidate with
  | MonopoleRadiation.Done candidate' =>
      0 <= Candidate.stepRadiation candidate'
      /\ ParticleState.energy (Candidate.current candidate')
         = Rmax 0 (ParticleState.energy current - Candidate.stepRadiation candidate')
      /\ 0 <= ParticleState.energy (Candidate.current candidate')
         <= ParticleState.energy current
      /\ Candidate.nextStep candidate' <= Candidate.nextStep candidate
  | MonopoleRadiation.Thrown =>
      MonopoleRadiation.perpendicularField self candidate z = None
  end.
Proof.
  intros current z Hg Hdir HE Hm _ HEp Hmp Hc Hl Hmu Hstep Hz.
  unfold MonopoleRadiation.process. fold current.
  destruct (Req_dec_T _ 0) as [H0|_].
  { exfalso. apply Hg. unfold ParticleState.getMcharge in H0.
    destruct (Req_dec (ParticleState.mcharge current) 0) as [e|ne]; [exact e|].
    exfalso. exact (Rabs_no_R0 _ ne H0). }
  unfold Candidate.getRedshift. fold z.
  destruct (MonopoleRadiation.perpendicularField self candidate z) as [B|];
    [|reflexivity].
  set (step := Candidate.getCurrentStep candidate / (1 + z)).
  set (beta := (getVelocity current / c_light)%vec).
  set (dbeta := ((getVelocity current - getVelocity (Candidate.previous candidate))
                 / step)%vec).
  set (dEdx := mu0 / 6 / PI * _ ^ 6 * _ ^ 2 * _).
  assert (Hs : 0 < step).
  { unfold step, Candidate.getCurrentStep. apply Rmult_lt_0_compat; [exact Hstep|].
    apply Rinv_0_lt_compat. lra. }
  assert (Hpower : 0 <= dEdx).
  { unfold dEdx. rewrite lagrange_identity.
    pose proof (beta_below_one current Hdir HE Hm Hc Hl) as Hbeta. fold beta in Hbeta.
    apply Rmult_le_pos; [apply Rmult_le_pos; [apply Rmult_le_pos|]|].
    - apply Rmult_le_pos; [lra|]. left. apply Rinv_0_lt_compat. exact PI_RGT_0.
    - match goal with |- 0 <= ?lf ^ 6 => replace (lf ^ 6) with ((lf ^ 3) ^ 2) by ring end.
      apply pow2_ge_0.
    - apply pow2_ge_0.
    - rewrite (dot_self dbeta).
      pose proof (getR_nonneg dbeta).
      assert (0 <= Vector3.getR dbeta * Vector3.getR dbeta * (1 - Vector3.dot beta beta))
        by (apply Rmult_le_pos; nra).
      nra. }
  assert (HdE : 0 <= step * dEdx) by (apply Rmult_le_pos; lra).
  assert (Hresult :
            0 <= step * dEdx
            /\ Rmax 0 (ParticleState.getEnergy current - step * dEdx)
               = Rmax 0 (ParticleState.energy current - step * dEdx)
            /\ 0 <= Rmax 0 (ParticleState.getEnergy current - step * dEdx)
               <= ParticleState.energy current
            /\ XDouble.min
                 (XDouble.div (MonopoleRadiation.limit self * ParticleState.getEnergy current)
                    dEdx)
                 (Candidate.nextStep candidate)
               <= Candidate.nextStep candidate).
  { split; [exact HdE|]. split; [reflexivity|]. split; [|apply xmin_le].
    unfold ParticleState.getEnergy. split; [apply Rmax_l|]. apply Rmax_lub; lra. }
  destruct (negb (MonopoleRadiation.havePhotons self)); cbn; exact Hresult.
Qed.

(** X25: the field strength does not enter the loss.  [process] samples
    the field, or takes [Brms], and then never uses the value: two modules
    with the same [limit] treat a candidate alike, whatever their fields and
    [Brms] are, as long as the sampler of one throws exactly when the sampler
    of the other does. *)
Theorem radiation_ignores_field_strength (self self' : MonopoleRadiation.t)
    (candidate : Candidate) :
  let z := Candidate.redshift candidate in
  MonopoleRadiation.limit self = MonopoleRadiation.limit self' ->
  (MonopoleRadiation.perpendicularField self candidate z = None
   <-> MonopoleRadiation.perpendicularField self' candidate z = None) ->
  process self candidate = process self' candidate.
Proof.
  intros z Hlimit Hthrow. unfold MonopoleRadiation.process.
  destruct (Req_dec_T _ 0); [reflexivity|].
  unfold Candidate.getRedshift. fold z.
  destruct (MonopoleRadiation.perpendicularField self candidate z) as [B|];
    destruct (MonopoleRadiation.perpendicularField self' candidate z) as [B'|].
  - rewrite Hlimit.
    destruct (negb (MonopoleRadiation.havePhotons self));
      destruct (negb (MonopoleRadiation.havePhotons self')); reflexivity.
  - destruct Hthrow as [_ H]. discriminate (H eq_refl).
  - destruct Hthrow as [H _]. discriminate (H eq_refl).
  - reflexivity.
Qed.

End MonopoleRadiation_losses.

Lemma radiation_only_loses_energy_witness :
  match MonopoleRadiation.process 1 1 (6 * PI) Scenario.thinningRadiation
          Scenario.acceleratedMonopole with
  | MonopoleRadiation.Done candidate' =>
      0 <= Candidate.stepRadiation candidate'
      /\ ParticleState.energy (Candidate.current candidate')
         = Rmax 0 (5 / 2 - Candidate.stepRadiation candidate')
      /\ 0 <= ParticleState.energy (Candidate.current candidate') <= 5 / 2
      /\ Candidate.nextStep candidate' <= 1
  | MonopoleRadiation.Thrown =>
      MonopoleRadiation.perpendicularField Scenario.thinningRadiation
        Scenario.acceleratedMonopole 0 = None
  end.
Proof.
  apply (radiation_only_loses_energy 1 1 (6 * PI) Scenario.thinningRadiation
           Scenario.acceleratedMonopole); try (simpl; lra).
  - simpl. apply getR_axis. lra.
  - unfold ParticleState.getLorentzFactor. simpl. lra.
  - pose proof PI_RGT_0. lra.
Defined.

Lemma radiation_ignores_field_strength_witness :
  MonopoleRadiation.process 1 1 1 Scenario.thinningRadiation Scenario.monopoleAfterStep
  = MonopoleRadiation.process 1 1 1 Scenario.fieldRadiation Scenario.monopoleAfterStep.
Proof.
  apply (radiation_ignores_field_strength 1 1 1 Scenario.thinningRadiation
           Scenario.fieldRadiation Scenario.monopoleAfterStep).
  - reflexivity.
  - split; intros H; discriminate H.
Defined.

(** ** The integrator and the radiation module together *)

Section Propagation_and_radiation.

Variables c_light c_squared mu0 : R.
Variable Y_of_double : R -> MonopolePropagationBP.Y.
Variable propagation : MonopolePropagationBP.t.
Variable radiation : MonopoleRadiation.t.

Local Abbreviation minStep := (MonopolePropagationBP.minStep propagation).
Local Abbreviation maxStep := (MonopolePropagationBP.maxStep propagation).
Local Abbreviation getFieldAtPosition :=
  (MonopolePropagationBP.getFieldAtPosition propagation).
Local Abbreviation integrator :=
  (MonopolePropagationBP.process c_light c_squared Y_of_double propagation).

Lemma cross_zero_r (v : Vector3d) : Vector3.cross v Vector3.zero = Vector3.zero.
Proof.
  destruct v. unfold Vector3.cross, Vector3.zero, Vector3.fill; simpl.
  f_equal; ring.
Qed.

(** X26: no field, no radiation.  A monopole with a unit direction that the
    integrator has moved through a region where the sampled field is zero
    has the velocity it had before, so the radiation module, called next
    with a sampler that does not throw and a positive [limit], records an
    energy loss of zero and leaves the energy and the proposed step as the
    integrator set them. *)
Theorem no_field_no_radiation (candidate : Candidate) :
  let current := Candidate.current candidate in
  (forall pos z', getFieldAtPosition pos z' = Vector3.zero) ->
  (forall getField pos z',
     MonopoleRadiation.field radiation = Some getField ->
     getField pos z' <> MagneticField.Throws) ->
  ParticleState.mcharge current <> 0 ->
  0 < ParticleState.energy current -> 0 < ParticleState.pmass current ->
  0 < c_light -> 0 < c_squared ->
  Vector3.getR (ParticleState.direction current) = 1 ->
  0 < minStep <= maxStep -> -1 < Candidate.redshift candidate ->
  0 < MonopoleRadiation.limit radiation ->
  (exists fuel candidate', integrator fuel candidate = Some candidate')
  /\ (forall fuel candidate',
        integrator fuel candidate = Some candidate' ->
        MonopoleRadiation.process c_light c_squared mu0 radiation candidate'
        = MonopoleRadiation.Done (Candidate.setStepRadiation candidate' 0)).
Proof.
  intros current HB Hsampler Hg HE Hm Hl Hc Hdir Hs Hz Hlimit.
  split; [apply process_total; exact Hs|].
  intros fuel candidate' Hp.
  destruct (process_no_field c_light c_squared Y_of_double propagation fuel candidate
              candidate' HB Hg HE) as (Hcur & Hprev & Hred & Hstep);
    try assumption; try lra.
  unfold MonopoleRadiation.process.
  rewrite Hcur, Hprev. fold current.
  unfold ParticleState.getMcharge, ParticleState.setPosition.
  cbn [ParticleState.mcharge].
  destruct (Req_dec_T (Rabs (ParticleState.mcharge current)) 0) as [H0|_].
  { exfalso. exact (Rabs_no_R0 _ Hg H0). }
  assert (Hperp : exists B,
            MonopoleRadiation.perpendicularField radiation candidate'
              (Candidate.getRedshift candidate') = Some B).
  { unfold MonopoleRadiation.perpendicularField.
    destruct (MonopoleRadiation.field radiation) as [getField|] eqn:Hf;
      [|eexists; reflexivity].
    destruct (getField (ParticleState.getPosition (Candidate.current candidate'))
                (Candidate.getRedshift candidate')) eqn:Hv;
      [eexists; reflexivity|].
    exfalso. exact (Hsampler getField _ _ eq_refl Hv). }
  destruct Hperp as [B ->].
  assert (Hv : ParticleState.getVelocity c_light c_squared
                 {| ParticleState.id := ParticleState.id current;
                    ParticleState.energy := ParticleState.energy current;
                    ParticleState.position :=
                      (ParticleState.position current
                       + ParticleState.direction current
                         * Candidate.currentStep candidate')%vec;
                    ParticleState.direction := ParticleState.direction current;
                    ParticleState.pmass := ParticleState.pmass current;
                    ParticleState.charge := ParticleState.charge current;
                    ParticleState.mcharge := ParticleState.mcharge current |}
               = ParticleState.getVelocity c_light c_squared current) by reflexivity.
  rewrite Hv, sub_self, div_zero, cross_zero_r, !dot_zero_l.
  unfold ParticleState.getEnergy. cbn [ParticleState.energy].
  replace (mu0 / 6 / PI
           * ParticleState.getLorentzFactor c_squared
               {| ParticleState.id := ParticleState.id current;
                  ParticleState.energy := ParticleState.energy current;
                  ParticleState.position :=
                    (ParticleState.position current
                     + ParticleState.direction current
                       * Candidate.currentStep candidate')%vec;
                  ParticleState.direction := ParticleState.direction current;
                  ParticleState.pmass := ParticleState.pmass current;
                  ParticleState.charge := ParticleState.charge current;
                  ParticleState.mcharge := ParticleState.mcharge current |} ^ 6
           * (Rabs (ParticleState.mcharge current) / c_light) ^ 2 * (0 - 0))
    with 0 by ring.
  rewrite Rmult_0_r, Rminus_0_r.
  unfold XDouble.div. destruct (Req_dec_T 0 0) as [_|Hne]; [|exfalso; apply Hne; reflexivity].
  assert (Hsame : Candidate.limitNextStep
                    (Candidate.setCurrent (Candidate.setStepRadiation candidate' 0)
                       (ParticleState.setEnergy
                          {| ParticleState.id := ParticleState.id current;
                             ParticleState.energy := ParticleState.energy current;
                             ParticleState.position :=
                               (ParticleState.position current
                                + ParticleState.direction current
                                  * Candidate.currentStep candidate')%vec;
                             ParticleState.direction := ParticleState.direction current;
                             ParticleState.pmass := ParticleState.pmass current;
                             ParticleState.charge := ParticleState.charge current;
                             ParticleState.mcharge := ParticleState.mcharge current |}
                          (ParticleState.energy current)))
                    XDouble.PInf
                  = Candidate.setStepRadiation candidate' 0).
  { unfold Candidate.limitNextStep, Candidate.setNextStep, Candidate.setCurrent,
      Candidate.setStepRadiation, ParticleState.setEnergy. cbn.
    rewrite Rmax_right by lra.
    destruct candidate' as [cur prev red cs ns sr secs]. cbn in *.
    rewrite Hcur. reflexivity. }
  rewrite Hsame. destruct (negb (MonopoleRadiation.havePhotons radiation)); reflexivity.
Qed.

End Propagation_and_radiation.

Lemma no_field_no_radiation_witness :
  exists fuel candidate',
    MonopolePropagationBP.process 1 1 Scenario.Y_of_double
      (Scenario.adaptiveBP Scenario.brokenField) fuel Scenario.monopole = Some candidate'
    /\ MonopoleRadiation.process 1 1 1 Scenario.fieldRadiation candidate'
       = MonopoleRadiation.Done (Candidate.setStepRadiation candidate' 0).
Proof.
  destruct (no_field_no_radiation 1 1 1 Scenario.Y_of_double
              (Scenario.adaptiveBP Scenario.brokenField) Scenario.fieldRadiation
              Scenario.monopole) as [(fuel & candidate' & Hp) Hrad];
    try (simpl; lra).
  - intros pos z'. reflexivity.
  - intros getField pos z' Hf. injection Hf as <-. discriminate.
  - simpl. apply getR_axis. lra.
  - exists fuel, candidate'. split; [exact Hp|]. exact (Hrad fuel candidate' Hp).
Defined.

(** ** The emission histogram *)

Section CylindricalProjectionMap_facts.

Local Abbreviation store := CylindricalProjectionMap.store.
Local Abbreviation updateLoop := CylindricalProjectionMap.updateLoop.
Local Abbreviation updateCdf := CylindricalProjectionMap.updateCdf.
Local Abbreviation fillBin := CylindricalProjectionMap.fillBin.
Local Abbreviation pdf := CylindricalProjectionMap.pdf.
Local Abbreviation cdf := CylindricalProjectionMap.cdf.
Local Abbreviation dirty := CylindricalProjectionMap.dirty.

(** The sum of the weights of the bins [0 .. k]. *)
Local Abbreviation weightUpTo k v := (fold_right Rplus 0 (firstn (S k) v)).

(** A write inside the vector changes the entry written and no other. *)
Lemma store_in_range (v : list R) (i : nat) (a : R) :
  (i < List.length v)%nat ->
  exists w,
    store v i a = Some w /\ List.length w = List.length v
    /\ nth i w 0 = a
    /\ forall k, k <> i -> nth k w 0 = nth k v 0.
Proof.
  revert i. induction v as [|b v IH]; intros i Hi; simpl in Hi; [lia|].
  destruct i as [|i]; simpl.
  - eexists. split; [reflexivity|]. repeat split.
    intros [|k] Hk; [contradiction|reflexivity].
  - destruct (IH i) as (w & -> & Hlen & Hat & Hother); [lia|].
    eexists. split; [reflexivity|]. simpl. repeat split; [lia|exact Hat|].
    intros [|k] Hk; [reflexivity|]. apply Hother. lia.
Qed.

Lemma store_out_of_range (v : list R) (i : nat) (a : R) :
  (List.length v <= i)%nat -> store v i a = None.
Proof.
  revert i. induction v as [|b v IH]; intros i Hi; [reflexivity|].
  destruct i as [|i]; simpl in *; [lia|]. rewrite IH by lia. reflexivity.
Qed.

Lemma nth_error_nth_in_range (v : list R) (i : nat) :
  (i < List.length v)%nat -> nth_error v i = Some (nth i v 0).
Proof.
  revert i. induction v as [|b v IH]; intros i Hi; simpl in Hi; [lia|].
  destruct i; simpl; [reflexivity|]. apply IH. lia.
Qed.

Lemma weightUpTo_next (v : list R) (k : nat) :
  (S k < List.length v)%nat ->
  weightUpTo (S k) v = weightUpTo k v + nth (S k) v 0.
Proof.
  revert k. induction v as [|b v IH]; intros k Hk; simpl in Hk; [lia|].
  destruct k as [|k].
  - destruct v as [|b' v]; simpl in *; [lia|]. ring.
  - change (weightUpTo (S (S k)) (b :: v)) with (b + weightUpTo (S k) v).
    change (weightUpTo (S k) (b :: v)) with (b + weightUpTo k v).
    change (nth (S (S k)) (b :: v) 0) with (nth (S k) v 0).
    rewrite IH by lia. ring.
Qed.

(** The invariant of the loop of [updateCdf]: the entries before [i] are
    the cumulative sums. *)
Lemma updateLoop_sums (weights : list R) (n : nat) :
  forall (i : nat) (sums : list R),
    (1 <= i)%nat -> (i + n = List.length weights)%nat ->
    List.length sums = List.length weights ->
    (forall k, (k < i)%nat -> nth k sums 0 = weightUpTo k weights) ->
    exists sums',
      updateLoop n i weights sums = Some sums'
      /\ List.length sums' = List.length weights
      /\ forall k, (k < List.length weights)%nat -> nth k sums' 0 = weightUpTo k weights.
Proof.
  induction n as [|n IH]; intros i sums Hi Hn Hlen Hdone.
  - exists sums. split; [reflexivity|]. split; [exact Hlen|].
    intros k Hk. apply Hdone. lia.
  - cbn [CylindricalProjectionMap.updateLoop].
    rewrite (nth_error_nth_in_range sums (i - 1)) by lia.
    rewrite (nth_error_nth_in_range weights i) by lia.
    cbn [Throw.bind].
    destruct (store_in_range sums i (nth (i - 1) sums 0 + nth i weights 0))
      as (sums1 & -> & Hlen1 & Hat & Hother); [lia|].
    cbn [Throw.bind].
    apply IH; [lia|lia|lia|].
    intros k Hk. destruct (Nat.eq_dec k i) as [->|Hne].
    + rewrite Hat, Hdone by lia.
      destruct i as [|i]; [lia|].
      replace (S i - 1)%nat with i by lia.
      rewrite weightUpTo_next by lia. reflexivity.
    + rewrite Hother by exact Hne. apply Hdone. lia.
Qed.

Lemma last_nth (v : list R) : v <> [] -> last v 0 = nth (List.length v - 1) v 0.
Proof.
  induction v as [|b v IHv]; [contradiction|]. intros _.
  destruct v as [|b' v]; [reflexivity|].
  change (last (b :: b' :: v) 0) with (last (b' :: v) 0).
  rewrite IHv by discriminate. simpl. rewrite Nat.sub_0_r. reflexivity.
Qed.

(** [updateCdf] on a modified map with bins. *)
Lemma updateCdf_sums (self : CylindricalProjectionMap.t) :
  dirty self = true -> pdf self <> [] ->
  List.length (cdf self) = List.length (pdf self) ->
  exists sums,
    updateCdf self
    = Some (CylindricalProjectionMap.mk (CylindricalProjectionMap.nPhi self)
              (CylindricalProjectionMap.nTheta self) false (pdf self) sums
              (CylindricalProjectionMap.sPhi self) (CylindricalProjectionMap.sTheta self))
    /\ List.length sums = List.length (pdf self)
    /\ forall k, (k < List.length (pdf self))%nat -> nth k sums 0 = weightUpTo k (pdf self).
Proof.
  intros Hdirty Hne Hlen. unfold CylindricalProjectionMap.updateCdf. rewrite Hdirty.
  assert (Hpos : (0 < List.length (pdf self))%nat)
    by (destruct (pdf self); [contradiction|simpl; lia]).
  rewrite (nth_error_nth_in_range (pdf self) 0) by exact Hpos. cbn [Throw.bind].
  destruct (store_in_range (cdf self) 0 (nth 0 (pdf self) 0))
    as (sums0 & -> & Hlen0 & Hat & Hother); [lia|].
  cbn [Throw.bind].
  destruct (updateLoop_sums (pdf self) (List.length (pdf self) - 1) 1 sums0)
    as (sums & -> & Hlens & Hsums).
  - lia.
  - lia.
  - lia.
  - intros k Hk. replace k with 0%nat by lia. rewrite Hat.
    destruct (pdf self); [contradiction|]. simpl. ring.
  - cbn [Throw.bind]. exists sums. split; [reflexivity|]. split; assumption.
Qed.

(** X27: the cumulative sums.  For a map whose two vectors have the same
    positive length, [updateCdf] on a modified map leaves the weights alone,
    clears the flag and makes [cdf[k]] the sum of the weights of the bins
    [0 .. k], so that the last entry is the total weight; on an unmodified
    map it does nothing; and on a modified map without bins it reads
    outside its vectors. *)
Theorem updateCdf_cumulative (self : CylindricalProjectionMap.t) :
  (dirty self = false -> updateCdf self = Some self)
  /\ (dirty self = true -> pdf self = [] -> updateCdf self = None)
  /\ (dirty self = true -> pdf self <> [] ->
      List.length (cdf self) = List.length (pdf self) ->
      exists self',
        updateCdf self = Some self'
        /\ dirty self' = false
        /\ pdf self' = pdf self
        /\ List.length (cdf self') = List.length (pdf self)
        /\ (forall k, (k < List.length (pdf self))%nat ->
              nth k (cdf self') 0 = weightUpTo k (pdf self))
        /\ last (cdf self') 0 = fold_right Rplus 0 (pdf self)).
Proof.
  split; [|split].
  - unfold CylindricalProjectionMap.updateCdf. intros ->. reflexivity.
  - unfold CylindricalProjectionMap.updateCdf. intros -> ->. reflexivity.
  - intros Hdirty Hne Hlen.
    destruct (updateCdf_sums self Hdirty Hne Hlen) as (sums & -> & Hlens & Hsums).
    eexists. split; [reflexivity|]. cbn.
    repeat split; [exact Hlens|exact Hsums|].
    assert (Hpos : (0 < List.length (pdf self))%nat)
      by (destruct (pdf self); [contradiction|simpl; lia]).
    rewrite last_nth by (destruct sums; [simpl in Hlens; lia|discriminate]).
    rewrite Hlens, Hsums by lia.
    replace (S (List.length (pdf self) - 1)) with (List.length (pdf self)) by lia.
    rewrite firstn_all. reflexivity.
Qed.

Lemma firstn_nonneg (v : list R) (n : nat) :
  Forall (fun w => 0 <= w) v -> 0 <= fold_right Rplus 0 (firstn n v).
Proof.
  intros Hpos. revert n. induction Hpos as [|b v Hb Hv IH]; intros [|n]; simpl; try lra.
  pose proof (IH n). lra.
Qed.

Lemma weightUpTo_monotone (v : list R) :
  Forall (fun w => 0 <= w) v ->
  forall i j, (i <= j)%nat -> weightUpTo i v <= weightUpTo j v.
Proof.
  intros Hpos.
  induction Hpos as [|b v Hb Hv IH]; intros i j Hij.
  - simpl. lra.
  - change (weightUpTo i (b :: v)) with (b + fold_right Rplus 0 (firstn i v)).
    change (weightUpTo j (b :: v)) with (b + fold_right Rplus 0 (firstn j v)).
    destruct i as [|i].
    + simpl. pose proof (firstn_nonneg v j Hv). lra.
    + destruct j as [|j]; [lia|].
      pose proof (IH i j ltac:(lia)). lra.
Qed.

(** X28: a distribution function.  When no weight is negative, the
    cumulative sums that [updateCdf] stores never decrease from one bin to
    the next and stay between zero and the total weight, which is what the
    draw of a bin from them relies on. *)
Theorem updateCdf_monotone (self : CylindricalProjectionMap.t) :
  List.length (cdf self) = List.length (pdf self) ->
  dirty self = true -> pdf self <> [] ->
  Forall (fun w => 0 <= w) (pdf self) ->
  exists self',
    updateCdf self = Some self'
    /\ forall i j, (i <= j < List.length (pdf self))%nat ->
         0 <= nth i (cdf self') 0 <= nth j (cdf self') 0
         /\ nth j (cdf self') 0 <= fold_right Rplus 0 (pdf self).
Proof.
  intros Hlen Hdirty Hne Hpos.
  destruct (updateCdf_sums self Hdirty Hne Hlen) as (sums & -> & Hlens & Hsums).
  eexists. split; [reflexivity|]. cbn [CylindricalProjectionMap.cdf].
  intros i j Hij. rewrite !Hsums by lia.
  pose proof (weightUpTo_monotone (pdf self) Hpos) as Hmono.
  split; [split; [apply firstn_nonneg; exact Hpos|apply Hmono; lia]|].
  rewrite <- (firstn_all (pdf self)) at 2.
  destruct (List.length (pdf self)) as [|n] eqn:El; [lia|].
  apply Hmono. lia.
Qed.

End CylindricalProjectionMap_facts.

Lemma updateCdf_monotone_witness :
  exists self',
    CylindricalProjectionMap.updateCdf Scenario.twoBins = Some self'
    /\ forall i j, (i <= j < 2)%nat ->
         0 <= nth i (CylindricalProjectionMap.cdf self') 0
         <= nth j (CylindricalProjectionMap.cdf self') 0
         /\ nth j (CylindricalProjectionMap.cdf self') 0 <= fold_right Rplus 0 [1; 2].
Proof.
  apply (updateCdf_monotone Scenario.twoBins).
  - reflexivity.
  - reflexivity.
  - discriminate.
  - repeat constructor; lra.
Defined.

Section CylindricalProjectionMap_filling.

Local Abbreviation store := CylindricalProjectionMap.store.
Local Abbreviation updateCdf := CylindricalProjectionMap.updateCdf.
Local Abbreviation fillBin := CylindricalProjectionMap.fillBin.
Local Abbreviation pdf := CylindricalProjectionMap.pdf.
Local Abbreviation cdf := CylindricalProjectionMap.cdf.
Local Abbreviation dirty := CylindricalProjectionMap.dirty.
Local Abbreviation weightUpTo k v := (fold_right Rplus 0 (firstn (S k) v)).

(** [fillBin] on a bin of the map: the weight is added there, nowhere else,
    and the map is marked as modified. *)
Lemma fillBin_in_range (self : CylindricalProjectionMap.t) (bin : nat) (weight : R) :
  (bin < List.length (pdf self))%nat ->
  exists weights,
    fillBin self bin weight
    = Some (CylindricalProjectionMap.mk (CylindricalProjectionMap.nPhi self)
              (CylindricalProjectionMap.nTheta self) true weights (cdf self)
              (CylindricalProjectionMap.sPhi self) (CylindricalProjectionMap.sTheta self))
    /\ List.length weights = List.length (pdf self)
    /\ nth bin weights 0 = nth bin (pdf self) 0 + weight
    /\ forall k, k <> bin -> nth k weights 0 = nth k (pdf self) 0.
Proof.
  intros Hbin. unfold CylindricalProjectionMap.fillBin.
  rewrite (nth_error_nth_in_range (pdf self) bin) by exact Hbin. cbn [Throw.bind].
  destruct (store_in_range (pdf self) bin (nth bin (pdf self) 0 + weight) Hbin)
    as (weights & -> & Hlen & Hat & Hother).
  cbn [Throw.bind]. exists weights. repeat split; assumption.
Qed.

Lemma fillBin_out_of_range (self : CylindricalProjectionMap.t) (bin : nat) (weight : R) :
  (List.length (pdf self) <= bin)%nat -> fillBin self bin weight = None.
Proof.
  intros Hbin. unfold CylindricalProjectionMap.fillBin.
  destruct (nth_error (pdf self) bin) eqn:E; [|reflexivity].
  assert (Hsome : nth_error (pdf self) bin <> None) by (rewrite E; discriminate).
  apply nth_error_Some in Hsome. lia.
Qed.

(** Raising one weight raises the cumulative sums from that bin on. *)
Lemma weightUpTo_changed (v w : list R) (bin : nat) (weight : R) :
  List.length w = List.length v ->
  (bin < List.length v)%nat ->
  nth bin w 0 = nth bin v 0 + weight ->
  (forall k, k <> bin -> nth k w 0 = nth k v 0) ->
  forall k, (k < List.length v)%nat ->
    weightUpTo k w = weightUpTo k v + (if (bin <=? k)%nat then weight else 0).
Proof.
  intros Hlen Hbin Hat Hother. induction k as [|k IH]; intros Hk.
  - destruct v as [|a v]; [simpl in Hk; lia|]. destruct w as [|b w]; [discriminate|].
    simpl. destruct bin as [|bin].
    + simpl in Hat. simpl. lra.
    + specialize (Hother 0%nat ltac:(lia)). simpl in Hother. simpl. lra.
  - rewrite (weightUpTo_next w) by lia. rewrite (weightUpTo_next v) by lia.
    rewrite IH by lia.
    destruct (Nat.eq_dec (S k) bin) as [<-|Hne].
    + rewrite Hat. rewrite Nat.leb_refl.
      replace (S k <=? k)%nat with false by (symmetry; apply Nat.leb_gt; lia). ring.
    + rewrite Hother by exact Hne.
      destruct (bin <=? k)%nat eqn:E1; destruct (bin <=? S k)%nat eqn:E2;
        try ring;
        [apply Nat.leb_le in E1; apply Nat.leb_gt in E2; lia
        |apply Nat.leb_gt in E1; apply Nat.leb_le in E2; lia].
Qed.

(** X29: filling a bin raises the distribution from that bin on.
    [fillBin(bin, weight)] reads outside the vector for a bin that does not
    exist; for a bin of the map it marks the map as modified, and the
    [updateCdf] that follows stores, at every bin [k], the sum of the old
    weights up to [k] plus the new weight when [bin <= k]. *)
Theorem fillBin_then_updateCdf (self : CylindricalProjectionMap.t) (bin : nat)
    (weight : R) :
  List.length (cdf self) = List.length (pdf self) ->
  ((List.length (pdf self) <= bin)%nat -> fillBin self bin weight = None)
  /\ ((bin < List.length (pdf self))%nat ->
      exists self1 self2,
        fillBin self bin weight = Some self1
        /\ dirty self1 = true
        /\ updateCdf self1 = Some self2
        /\ dirty self2 = false
        /\ forall k, (k < List.length (pdf self))%nat ->
             nth k (pdf self2) 0
             = nth k (pdf self) 0 + (if (k =? bin)%nat then weight else 0)
             /\ nth k (cdf self2) 0
                = weightUpTo k (pdf self) + (if (bin <=? k)%nat then weight else 0)).
Proof.
  intros Hlen. split; [apply fillBin_out_of_range|].
  intros Hbin.
  destruct (fillBin_in_range self bin weight Hbin) as (weights & Hfill & Hlw & Hat & Hother).
  destruct (updateCdf_sums
              (CylindricalProjectionMap.mk (CylindricalProjectionMap.nPhi self)
                 (CylindricalProjectionMap.nTheta self) true weights (cdf self)
                 (CylindricalProjectionMap.sPhi self) (CylindricalProjectionMap.sTheta self)))
    as (sums & Hu & Hl & Hsums);
    [reflexivity|destruct weights; [simpl in Hlw; lia|discriminate]|cbn; lia|].
  cbn in Hu, Hl, Hsums.
  eexists. eexists. split; [exact Hfill|]. split; [reflexivity|].
  split; [exact Hu|]. split; [reflexivity|].
  intros k Hk. cbn. split.
  - destruct (Nat.eqb_spec k bin) as [->|Hne].
    + exact Hat.
    + rewrite Hother by exact Hne. ring.
  - rewrite Hsums by lia.
    apply weightUpTo_changed; assumption.
Qed.

End CylindricalProjectionMap_filling.

Lemma fillBin_then_updateCdf_witness :
  exists self1 self2,
    CylindricalProjectionMap.fillBin Scenario.twoBins 1 3 = Some self1
    /\ CylindricalProjectionMap.dirty self1 = true
    /\ CylindricalProjectionMap.updateCdf self1 = Some self2
    /\ CylindricalProjectionMap.dirty self2 = false
    /\ forall k, (k < 2)%nat ->
         nth k (CylindricalProjectionMap.pdf self2) 0
         = nth k [1; 2] 0 + (if (k =? 1)%nat then 3 else 0)
         /\ nth k (CylindricalProjectionMap.cdf self2) 0
            = fold_right Rplus 0 (firstn (S k) [1; 2])
              + (if (1 <=? k)%nat then 3 else 0).
Proof.
  refine (proj2 (fillBin_then_updateCdf Scenario.twoBins 1 3 _) _).
  - reflexivity.
  - simpl. lia.
Defined.

Section CylindricalProjectionMap_drawing.

Variable Random : Type.
Variable randBin : list R -> Random -> nat * Random.

Local Abbreviation updateCdf := CylindricalProjectionMap.updateCdf.
Local Abbreviation fillBin := CylindricalProjectionMap.fillBin.
Local Abbreviation drawBin := (CylindricalProjectionMap.drawBin Random randBin).
Local Abbreviation create := CylindricalProjectionMap.create.
Local Abbreviation bins := CylindricalProjectionMap.bins.
Local Abbreviation Built := CylindricalProjectionMap.Built.
Local Abbreviation pdf := CylindricalProjectionMap.pdf.
Local Abbreviation cdf := CylindricalProjectionMap.cdf.
Local Abbreviation dirty := CylindricalProjectionMap.dirty.
Local Abbreviation weightUpTo k v := (fold_right Rplus 0 (firstn (S k) v)).

(** The two vectors have the same length, and the cumulative sums are those
    of the weights unless the map is marked as modified. *)
Local Abbreviation upToDate self :=
  (List.length (cdf self) = List.length (pdf self)
   /\ (dirty self = false ->
       forall k : nat, lt k (List.length (pdf self)) ->
         nth k (cdf self) 0 = weightUpTo k (pdf self))).

Lemma zeros_sum (n k : nat) : fold_right Rplus 0 (firstn k (repeat 0 n)) = 0.
Proof.
  revert k. induction n as [|n IH]; intros [|k]; simpl; try reflexivity.
  rewrite IH. ring.
Qed.

(** The number of bins when the product does not wrap around. *)
Lemma bins_product (nPhi nTheta : nat) :
  (N.of_nat nPhi * N.of_nat nTheta < 2 ^ 64)%N -> bins nPhi nTheta = (nPhi * nTheta)%nat.
Proof.
  intros Hsmall. unfold CylindricalProjectionMap.bins.
  rewrite N.mod_small by exact Hsmall.
  lia.
Qed.

(** What [drawDirection] does before it draws. *)
Lemma draw_update (self : CylindricalProjectionMap.t) :
  upToDate self -> pdf self <> [] ->
  exists self',
    (if dirty self then updateCdf self else Some self) = Some self'
    /\ dirty self' = false /\ pdf self' = pdf self
    /\ List.length (cdf self') = List.length (pdf self)
    /\ forall k : nat, (k < List.length (pdf self))%nat ->
         nth k (cdf self') 0 = weightUpTo k (pdf self).
Proof.
  intros [Hlen Hclean] Hne. destruct (dirty self) eqn:Hd.
  - destruct (updateCdf_sums self Hd Hne Hlen) as (sums & -> & Hlens & Hsums).
    eexists. split; [reflexivity|]. cbn. repeat split; assumption.
  - exists self. repeat split; try assumption. apply Hclean. reflexivity.
Qed.

(** The constructor, [fillBin] and [updateCdf] keep the map up to date. *)
Lemma Built_upToDate (self : CylindricalProjectionMap.t) : Built self -> upToDate self.
Proof.
  induction 1 as [nPhi nTheta|self self' bin weight _ [Hlen _] Hfill
                 |self self' _ Hup Hu].
  - unfold CylindricalProjectionMap.create. cbn.
    rewrite !repeat_length. split; [reflexivity|].
    intros _ k Hk. rewrite nth_repeat. symmetry. apply (zeros_sum _ (S k)).
  - destruct (Nat.lt_ge_cases bin (List.length (pdf self))) as [Hin|Hout].
    + destruct (fillBin_in_range self bin weight Hin) as (weights & Hf & Hlw & _).
      rewrite Hf in Hfill. injection Hfill as <-. cbn.
      split; [lia|discriminate].
    + rewrite fillBin_out_of_range in Hfill by exact Hout. discriminate.
  - destruct (pdf self) as [|w0 weights] eqn:Hpdf.
    + unfold CylindricalProjectionMap.updateCdf in Hu. destruct Hup as [Hlen Hclean].
      destruct (dirty self) eqn:Hd.
      * rewrite Hpdf in Hu. discriminate.
      * injection Hu as <-. rewrite Hpdf. split; [assumption|].
        intros _ k Hk. simpl in Hk. lia.
    + assert (Hne : pdf self <> []) by (rewrite Hpdf; discriminate).
      rewrite <- Hpdf in *.
      destruct (draw_update self Hup Hne) as (self2 & H2 & Hd2 & Hp2 & Hl2 & Hs2).
      assert (self2 = self').
      { unfold CylindricalProjectionMap.updateCdf in Hu.
        destruct (dirty self) eqn:Hd.
        - unfold CylindricalProjectionMap.updateCdf in H2. rewrite Hd in H2. congruence.
        - congruence. }
      subst self2. rewrite Hp2. split; [assumption|]. intros _. exact Hs2.
Qed.

(** The loop of [load] writes the numbers of the stream over the weights
    and touches nothing else. *)
Lemma readPdf_values (values : list R) (n : nat) :
  forall (i : nat) (cpm : CylindricalProjectionMap.t),
    (i + n = List.length (pdf cpm))%nat ->
    (List.length (pdf cpm) <= List.length values)%nat ->
    exists weights,
      EmissionMap.readPdf n i values cpm
      = Some (CylindricalProjectionMap.mk (CylindricalProjectionMap.nPhi cpm)
                (CylindricalProjectionMap.nTheta cpm) (dirty cpm) weights (cdf cpm)
                (CylindricalProjectionMap.sPhi cpm) (CylindricalProjectionMap.sTheta cpm))
      /\ List.length weights = List.length (pdf cpm)
      /\ forall k, (k < List.length (pdf cpm))%nat ->
           nth k weights 0 = if (k <? i)%nat then nth k (pdf cpm) 0 else nth k values 0.
Proof.
  induction n as [|n IH]; intros i cpm Hn Hlen.
  - exists (pdf cpm). split; [destruct cpm; reflexivity|]. split; [reflexivity|].
    intros k Hk. replace (k <? i)%nat with true; [reflexivity|].
    symmetry. apply Nat.ltb_lt. lia.
  - cbn [EmissionMap.readPdf].
    rewrite (nth_error_nth_in_range values i) by lia. cbn [Throw.bind].
    unfold CylindricalProjectionMap.setPdf.
    destruct (store_in_range (pdf cpm) i (nth i values 0))
      as (weights1 & -> & Hlen1 & Hat & Hother); [lia|].
    cbn [Throw.bind].
    destruct (IH (S i)
                (CylindricalProjectionMap.mk (CylindricalProjectionMap.nPhi cpm)
                   (CylindricalProjectionMap.nTheta cpm) (dirty cpm) weights1 (cdf cpm)
                   (CylindricalProjectionMap.sPhi cpm) (CylindricalProjectionMap.sTheta cpm)))
      as (weights & Hr & Hlw & Hvals); [cbn; lia|cbn; lia|].
    cbn in Hr, Hlw, Hvals. exists weights. split; [exact Hr|]. split; [lia|].
    intros k Hk. rewrite Hvals by lia.
    destruct (Nat.leb_spec k i) as [Hlt|Hge]; destruct (Nat.ltb_spec k i) as [Hlt'|Hge'];
      try lia; try reflexivity.
    + apply Hother. lia.
    + replace k with i by lia. exact Hat.
Qed.

(** A stream that ends before the last bin. *)
Lemma readPdf_short (values : list R) (n : nat) :
  forall (i : nat) (cpm : CylindricalProjectionMap.t),
    (i + n = List.length (pdf cpm))%nat -> (i <= List.length values)%nat ->
    (List.length values < List.length (pdf cpm))%nat ->
    EmissionMap.readPdf n i values cpm = None.
Proof.
  induction n as [|n IH]; intros i cpm Hn Hi Hlen; [lia|].
  cbn [EmissionMap.readPdf].
  destruct (Nat.lt_ge_cases i (List.length values)) as [Hin|Hout].
  - rewrite (nth_error_nth_in_range values i) by exact Hin. cbn [Throw.bind].
    unfold CylindricalProjectionMap.setPdf.
    destruct (store_in_range (pdf cpm) i (nth i values 0))
      as (weights1 & -> & Hlen1 & _); [lia|].
    cbn [Throw.bind]. apply IH; cbn; lia.
  - replace (nth_error values i) with (@None R); [reflexivity|].
    symmetry. apply nth_error_None. exact Hout.
Qed.

(** The map that [load] builds. *)
Lemma load_result (nPhi_ nTheta_ : nat) (values : list R) :
  (bins nPhi_ nTheta_ <= List.length values)%nat ->
  exists weights,
    EmissionMap.load nPhi_ nTheta_ values
    = Some (CylindricalProjectionMap.mk nPhi_ nTheta_ false weights
              (repeat 0 (bins nPhi_ nTheta_)) (2 * PI / INR nPhi_) (2 / INR nTheta_))
    /\ List.length weights = bins nPhi_ nTheta_
    /\ forall k, (k < bins nPhi_ nTheta_)%nat -> nth k weights 0 = nth k values 0.
Proof.
  intros Hlen. unfold EmissionMap.load, CylindricalProjectionMap.getPdf.
  destruct (readPdf_values values (List.length (pdf (create nPhi_ nTheta_))) 0
              (create nPhi_ nTheta_)) as (weights & Hr & Hlw & Hvals).
  - reflexivity.
  - cbn. rewrite repeat_length. exact Hlen.
  - cbn in Hr, Hlw, Hvals. rewrite repeat_length in Hlw, Hvals.
    exists weights. split; [exact Hr|]. split; [exact Hlw|].
    intros k Hk. rewrite Hvals by exact Hk. reflexivity.
Qed.


End CylindricalProjectionMap_drawing.

(** The bin that the generator of draws [1/2] finds in an all-zero cdf. *)
Lemma lowerBound_zeros : Scenario.lowerBound [0; 0] (1 / 2 * 0) = 0%nat.
Proof.
  simpl. destruct (Rlt_dec 0 (1 / 2 * 0)); [lra|reflexivity].
Qed.

